(** * RTL patch for a compiled stylesheet: resolver, synthesis and lifecycle

    A shallow embedding of [src/patch-rtl.js].

    - JavaScript strings are sequences of UTF-16 code units; they are
      modelled as lists of [N] (no statement depends on the 16-bit bound).
      The regular expressions of the source are embedded as matchers over
      such lists, with the greedy quantifier, its backtracking and the
      leftmost-match rule written out.
    - The class map built by [extractClassMap] is a JavaScript object used
      as a dictionary; it is modelled as a [gmap] from names to hashes.
    - The file system touched by [applyPatch], [revertPatch] and
      [checkPatch] is a finite map from paths to the text of regular files,
      threaded explicitly through every call.  A file holds the string that
      [readFileSync(path, "utf8")] returns, which stands for its bytes as
      long as these are valid UTF-8; reads and writes of existing paths do
      not fail. *)

From Stdlib Require Import NArith Ascii String.
From stdpp Require Import base option list numbers strings pretty gmap fin_maps.

Open Scope N_scope.
Open Scope nat_scope.
Open Scope list_scope.

(** ** JavaScript strings *)

Module JsString.

(** A JavaScript string value: its UTF-16 code units. *)
Abbreviation str := (list N).

(** The code units of an ASCII source literal. *)
Definition lit (s : string) : str :=
  (λ a, N_of_ascii a) <$> list_ascii_of_string s.

(** The double quote, U+0022. *)
Definition dquote : str := [34%N].

(** The line feed, U+000A. *)
Definition LF : N := 10%N.

(** [s.startsWith(p)]. *)
Fixpoint startsWith (p s : str) : bool :=
  match p, s with
  | [], _ => true
  | _ :: _, [] => false
  | a :: p', b :: s' => if decide (a = b) then startsWith p' s' else false
  end.

(** [s.indexOf(p)]; [None] stands for the result [-1]. *)
Fixpoint indexOf (p s : str) : option nat :=
  if startsWith p s then Some 0
  else match s with
       | [] => None
       | _ :: s' => S <$> indexOf p s'
       end.

(** [s.includes(p)]. *)
Definition includes (p s : str) : bool :=
  match indexOf p s with Some _ => true | None => false end.

(** [s.substring(i, j)] for [i <= j]. *)
Definition substring (i j : nat) (s : str) : str := take (j - i) (drop i s).

(** [s.substring(i)]. *)
Definition substringFrom (i : nat) (s : str) : str := drop i s.

(** Number of positions of [s] at which [p] starts. *)
Fixpoint countOccurrences (p s : str) : nat :=
  (if startsWith p s then 1 else 0) +
  match s with
  | [] => 0
  | _ :: s' => countOccurrences p s'
  end.

(** [lines.join(sep)] for a one-unit separator. *)
Fixpoint join (sep : N) (lines : list str) : str :=
  match lines with
  | [] => []
  | [l] => l
  | l :: ls => l ++ sep :: join sep ls
  end.

(** Every line followed by the separator, concatenated: what [join]
    puts in front of the last line. *)
Definition terminated (sep : N) (ls : list str) : str :=
  concat ((λ l, l ++ [sep]) <$> ls).

(** The suffix matched by [/\n+$/] when the match starts at the head. *)
Definition allNewlines (s : str) : bool :=
  match s with
  | [] => false
  | _ => forallb (λ c, bool_decide (c = LF)) s
  end.

(** [s.replace(/\n+$/, "")]: the leftmost position from which only line
    feeds (one or more) run to the end of the input is where the match
    starts; the match is replaced by the empty string. *)
Fixpoint replaceTrailingNewlines (s : str) : str :=
  if allNewlines s then []
  else match s with
       | [] => []
       | c :: s' => c :: replaceTrailingNewlines s'
       end.

End JsString.

Import JsString.

(** ** The resolver's regular expression *)

Module Regex.

(** The class [[A-Za-z0-9]]. *)
Definition isAlnum (c : N) : bool :=
  ((65 <=? c) && (c <=? 90) || (97 <=? c) && (c <=? 122)
   || (48 <=? c) && (c <=? 57))%N.

(** The class [\s] of ECMAScript: WhiteSpace and LineTerminator. *)
Definition isSpace (c : N) : bool :=
  ((9 <=? c) && (c <=? 13) || (c =? 32) || (c =? 160) || (c =? 5760)
   || (8192 <=? c) && (c <=? 8202) || (c =? 8232) || (c =? 8233)
   || (c =? 8239) || (c =? 8287) || (c =? 12288) || (c =? 65279))%N.

(** The lookahead class [[\s{.,:\[>~+]]. *)
Definition isBoundary (c : N) : bool :=
  (isSpace c || (c =? 123) || (c =? 46) || (c =? 44) || (c =? 58)
   || (c =? 91) || (c =? 62) || (c =? 126) || (c =? 43))%N.

(** The lookahead [(?=[\s{.,:\[>~+])] at the head of [s]. *)
Definition lookahead (s : str) : bool :=
  match s with
  | b :: _ => isBoundary b
  | [] => false
  end.

(** [([A-Za-z0-9]+)(?=[\s{.,:\[>~+])] at the head of [s]: the quantifier
    is greedy, so one more unit is taken first, and the matcher backtracks
    to the shorter capture when the continuation fails. *)
Fixpoint matchHash (s : str) : option str :=
  match s with
  | [] => None
  | c :: s' =>
      if isAlnum c then
        match matchHash s' with
        | Some h => Some (c :: h)
        | None => if lookahead s' then Some [c] else None
        end
      else None
  end.

(** The literal part [\.name_] of the pattern. *)
Definition classPrefix (name : string) : str :=
  lit "." ++ lit name ++ lit "_".

(** The whole pattern anchored at the head of [s]; the result is the
    capture group. *)
Definition matchAt (name : string) (s : str) : option str :=
  if startsWith (classPrefix name) s
  then matchHash (drop (length (classPrefix name)) s)
  else None.

(** [regex.exec(s)] on a fresh regular expression ([lastIndex] is 0): the
    leftmost position at which the pattern matches. *)
Fixpoint exec (name : string) (s : str) : option str :=
  match matchAt name s with
  | Some h => Some h
  | None =>
      match s with
      | [] => None
      | _ :: s' => exec name s'
      end
  end.

End Regex.

Import Regex.

(** ** The patch: resolution, synthesis, excision *)

(** Marker comments that delimit the injected fragment. *)
Definition PATCH_START : str := lit "/* CLAUDE-CODE-RTL-FIX:START */".
Definition PATCH_END : str := lit "/* CLAUDE-CODE-RTL-FIX:END */".

(** The semantic class names looked up by [extractClassMap], in order. *)
Definition patterns : list string :=
  [ "message"; "messagesContainer"; "chatContainer"; "userMessageContainer";
    "userMessage"; "timelineMessage"; "emptyStateContent"; "emptyStateText";
    "highlightedMessage"; "slashCommandMessage"; "slashCommandResultMessage";
    "interruptedMessage"; "metaMessage"; "progressContent" ]%string.

(** One iteration of the loop of [extractClassMap]. *)
Definition recordClass (cssContent : str) (classMap : gmap string str)
    (name : string) : gmap string str :=
  match exec name cssContent with
  | Some h => <[name := h]> classMap
  | None => classMap
  end.

(** [extractClassMap(cssContent)]: semantic name to hash suffix. *)
Definition extractClassMap (cssContent : str) : gmap string str :=
  foldl (recordClass cssContent) ∅ patterns.

(** JavaScript truthiness of a looked-up property: [undefined] and the
    empty string are falsy. *)
Definition truthy (v : option str) : bool :=
  match v with
  | Some (_ :: _) => true
  | _ => false
  end.

(** The exact class selector [.key_hash]. *)
Definition exactSelector (key : string) (hash : str) : str :=
  lit "." ++ lit key ++ lit "_" ++ hash.

(** The attribute selector used when the hash is not known. *)
Definition fallbackSelector (key : string) : str :=
  lit "[class*=" ++ dquote ++ lit key ++ lit "_" ++ dquote ++ lit "]".

(** The conditional [classMap.key ? `.key_${classMap.key}`
    : '[class*="key_"]'] repeated for eight keys in [generateRtlCss]. *)
Definition classSelector (key : string) (classMap : gmap string str) : str :=
  match classMap !! key with
  | Some (c :: h) => exactSelector key (c :: h)
  | _ => fallbackSelector key
  end.

(** The fixed selector [[data-testid="assistant-message"]]. *)
Definition assistantMessage : str :=
  lit "[data-testid=" ++ dquote ++ lit "assistant-message" ++ dquote ++ lit "]".

(** The fixed selector [[class*="inputContainer_"]]. *)
Definition inputContainer : str :=
  lit "[class*=" ++ dquote ++ lit "inputContainer_" ++ dquote ++ lit "]".

(** The array [lines] of [generateRtlCss] after its [push]. *)
Definition rtlLines (classMap : gmap string str) : list str :=
  let messageClass := classSelector "message" classMap in
  let userMsgClass := classSelector "userMessage" classMap in
  let userMsgContainerClass := classSelector "userMessageContainer" classMap in
  let timelineClass := classSelector "timelineMessage" classMap in
  let slashCmdClass := classSelector "slashCommandMessage" classMap in
  let slashCmdResultClass := classSelector "slashCommandResultMessage" classMap in
  let interruptedClass := classSelector "interruptedMessage" classMap in
  let progressClass := classSelector "progressContent" classMap in
  [ PATCH_START;
    lit "";
    lit "/*";
    lit " * RTL (Right-to-Left) text support for Claude Code";
    lit " * Supports Hebrew, Arabic, Persian, Urdu, and other RTL scripts.";
    lit " * Uses CSS unicode-bidi: plaintext for automatic direction detection";
    lit " * per-paragraph, so mixed LTR/RTL content renders correctly.";
    lit " */";
    lit "";
    lit "/* Auto-detect text direction on all message text content */";
    messageClass ++ lit ",";
    userMsgClass ++ lit ",";
    userMsgContainerClass ++ lit ",";
    timelineClass ++ lit ",";
    slashCmdClass ++ lit ",";
    slashCmdResultClass ++ lit ",";
    interruptedClass ++ lit ",";
    progressClass ++ lit ",";
    assistantMessage ++ lit " {";
    lit "  unicode-bidi: plaintext;";
    lit "  text-align: start;";
    lit "}";
    lit "";
    lit "/* Fix user message container alignment for RTL content */";
    messageClass ++ userMsgContainerClass ++ lit " {";
    lit "  text-align: start;";
    lit "}";
    lit "";
    lit "/* Ensure paragraphs and inline text respect auto-direction */";
    messageClass ++ lit " p,";
    messageClass ++ lit " li,";
    messageClass ++ lit " span,";
    messageClass ++ lit " div,";
    assistantMessage ++ lit " p,";
    assistantMessage ++ lit " li,";
    assistantMessage ++ lit " span,";
    assistantMessage ++ lit " div {";
    lit "  unicode-bidi: plaintext;";
    lit "  text-align: start;";
    lit "}";
    lit "";
    lit "/* Preserve code blocks as LTR (code is always LTR) */";
    messageClass ++ lit " pre,";
    messageClass ++ lit " code,";
    assistantMessage ++ lit " pre,";
    assistantMessage ++ lit " code {";
    lit "  unicode-bidi: normal;";
    lit "  direction: ltr;";
    lit "  text-align: left;";
    lit "}";
    lit "";
    lit "/* Timeline dot position: use logical properties so dot stays correct in RTL */";
    timelineClass ++ lit " {";
    lit "  padding-inline-start: 30px;";
    lit "  padding-left: unset;";
    lit "}";
    lit "";
    timelineClass ++ lit "::before {";
    lit "  inset-inline-start: 9px;";
    lit "  left: unset;";
    lit "}";
    lit "";
    timelineClass ++ lit "::after {";
    lit "  inset-inline-start: 12px;";
    lit "  left: unset;";
    lit "}";
    lit "";
    lit "/* Input area RTL support */";
    inputContainer ++ lit " textarea,";
    inputContainer ++ lit " [contenteditable] {";
    lit "  unicode-bidi: plaintext;";
    lit "  text-align: start;";
    lit "}";
    lit "";
    PATCH_END ].

(** [generateRtlCss(classMap)]. *)
Definition generateRtlCss (classMap : gmap string str) : str :=
  join LF (rtlLines classMap).

(** [removePatchContent(cssContent)]. *)
Definition removePatchContent (cssContent : str) : str :=
  match indexOf PATCH_START cssContent, indexOf PATCH_END cssContent with
  | Some startIdx, Some endIdx =>
      let beforePatch :=
        replaceTrailingNewlines (substring 0 startIdx cssContent) in
      let afterPatch := substringFrom (endIdx + length PATCH_END) cssContent in
      beforePatch ++ afterPatch
  | _, _ => cssContent
  end.

(** ** The lifecycle operations over the file system *)

(** Result objects of [applyPatch]: [{success: true, classMap, backupPath}]
    or [{success: false, error}]. *)
Inductive applyResult : Type :=
| ApplySuccess (classMap : gmap string str) (backupPath : string)
| ApplyFailure (error : string).

(** Result objects of [revertPatch]: [{success: true, method}] or
    [{success: false, error}]. *)
Inductive revertResult : Type :=
| RevertSuccess (method : string)
| RevertFailure (error : string).

(** The message of the not-found failure. *)
Definition notFoundError (cssFilePath : string) : string :=
  "CSS file not found: " +:+ cssFilePath.

(** The message of the unrecognized-format failure. *)
Definition unrecognizedFormatError : string :=
  "Could not extract CSS class names from extension. The extension structure may have changed.".

(** The message of the nothing-to-revert failure. *)
Definition nothingToRevertError : string := "No patch found to revert".

(** The sibling path of the backup file. *)
Definition backupPathOf (cssFilePath : string) : string :=
  cssFilePath +:+ ".rtl-backup".

(** The content [applyPatch] works on after its re-patch check. *)
Definition workingCopy (content : str) : str :=
  if includes PATCH_START content then removePatchContent content else content.

(** [applyPatch(cssFilePath)] as a transition of the file system. *)
Definition applyPatch (cssFilePath : string) (fs : gmap string str)
    : applyResult * gmap string str :=
  match fs !! cssFilePath with
  | None => (ApplyFailure (notFoundError cssFilePath), fs)
  | Some content =>
      let cssContent := workingCopy content in
      let classMap := extractClassMap cssContent in
      if truthy (classMap !! "message"%string) then
        let rtlCss := generateRtlCss classMap in
        let patchedContent := cssContent ++ LF :: rtlCss in
        let backupPath := backupPathOf cssFilePath in
        let fs1 :=
          match fs !! backupPath with
          | None => <[backupPath := cssContent]> fs
          | Some _ => fs
          end in
        (ApplySuccess classMap backupPath, <[cssFilePath := patchedContent]> fs1)
      else (ApplyFailure unrecognizedFormatError, fs)
  end.

(** [revertPatch(cssFilePath)] as a transition of the file system. *)
Definition revertPatch (cssFilePath : string) (fs : gmap string str)
    : revertResult * gmap string str :=
  match fs !! cssFilePath with
  | None => (RevertFailure (notFoundError cssFilePath), fs)
  | Some content =>
      let backupPath := backupPathOf cssFilePath in
      match fs !! backupPath with
      | Some original =>
          (RevertSuccess "backup",
           delete backupPath (<[cssFilePath := original]> fs))
      | None =>
          if includes PATCH_START content then
            (RevertSuccess "strip",
             <[cssFilePath := removePatchContent content]> fs)
          else (RevertFailure nothingToRevertError, fs)
      end
  end.

(** [checkPatch(cssFilePath)]. *)
Definition checkPatch (cssFilePath : string) (fs : gmap string str) : bool :=
  match fs !! cssFilePath with
  | None => false
  | Some content => includes PATCH_START content
  end.

(** Whether a call of [applyPatch] reported success. *)
Definition applySucceeded (r : applyResult) : bool :=
  match r with
  | ApplySuccess _ _ => true
  | ApplyFailure _ => false
  end.

(** [n] consecutive calls of [applyPatch] on one path; [None] as soon as a
    call reports failure. *)
Fixpoint applyTimes (n : nat) (cssFilePath : string) (fs : gmap string str)
    : option (gmap string str) :=
  match n with
  | 0 => Some fs
  | S n' =>
      match applyPatch cssFilePath fs with
      | (ApplySuccess _ _, fs') => applyTimes n' cssFilePath fs'
      | (ApplyFailure _, _) => None
      end
  end.


(** ** Vocabulary of the statements *)

(** The eight keys whose selectors [generateRtlCss] writes. *)
Definition synthKeys : list string :=
  [ "message"; "userMessage"; "userMessageContainer"; "timelineMessage";
    "slashCommandMessage"; "slashCommandResultMessage"; "interruptedMessage";
    "progressContent" ]%string.

(** The lines of the fragment between the two markers. *)
Definition rtlBody (classMap : gmap string str) : list str :=
  removelast (tail (rtlLines classMap)).

(** The solidus U+002F, with which both markers begin. *)
Definition SLASH : N := 47%N.

(** A class map all of whose hashes are alphanumeric, as the resolver
    builds it. *)
Definition alnumValues (classMap : gmap string str) : Prop :=
  ∀ key h, classMap !! key = Some h → Forall (λ c, isAlnum c = true) h.

(** A content in which neither marker occurs. *)
Definition markerFree (content : str) : Prop :=
  includes PATCH_START content = false ∧ includes PATCH_END content = false.

(** A boundary-delimited occurrence of [.key_hash] that starts at position
    [i] of [css]: the literal, a non-empty alphanumeric hash, then one unit
    of the boundary class. *)
Definition delimitedAt (key : string) (hash : str) (i : nat) (css : str) : Prop :=
  ∃ pre b rest,
    css = pre ++ classPrefix key ++ hash ++ b :: rest ∧ length pre = i ∧
    hash ≠ [] ∧ Forall (λ c, isAlnum c = true) hash ∧ isBoundary b = true.

(** The state of a target file right after a successful [applyPatch]:
    a marker-free content, one line feed, and the fragment synthesized
    from that content. *)
Definition freshlyPatched (path : string) (fs : gmap string str) : Prop :=
  ∃ D, markerFree D ∧
       fs !! path = Some (D ++ LF :: generateRtlCss (extractClassMap D)).

(** A target content with no marker outside at most one fragment at its
    end: either marker-free, or a marker-free text, one line feed and a
    fragment synthesized from alphanumeric hashes. *)
Definition wellFormedTarget (content : str) : Prop :=
  markerFree content ∨
  ∃ D m, markerFree D ∧ alnumValues m ∧
         content = D ++ LF :: generateRtlCss m.

(** The content of the target after [n] consecutive successful calls. *)
Definition contentAfter (n : nat) (path : string) (fs : gmap string str)
    : option str :=
  applyTimes n path fs ≫= (λ fs', fs' !! path).

(** ** The occurrence that the specification describes

    The specification names the alphabet of a hash and the characters
    that may follow it.  These definitions follow its words, with every
    character written out, and do not use the classes of [Regex]; they
    are compared with the resolver below. *)

(** The alphanumerics: the letters of both cases and the digits. *)
Definition specAlphanumerics : str :=
  lit "ABCDEFGHIJKLMNOPQRSTUVWXYZabcdefghijklmnopqrstuvwxyz0123456789".

(** Whitespace: the code units that ECMAScript counts as white space or
    as a line terminator, from the character tabulation U+0009 to the
    byte order mark U+FEFF. *)
Definition specWhitespace : str :=
  [ 9; 10; 11; 12; 13; 32; 160; 5760; 8192; 8193; 8194; 8195; 8196; 8197;
    8198; 8199; 8200; 8201; 8202; 8232; 8233; 8239; 8287; 12288; 65279 ]%N.

(** The other boundary characters. *)
Definition specDelimiters : str := lit "{.,:[>~+".

(** An occurrence of [.key_hash] at position [i] of [css] whose hash, one
    or more alphanumerics, is immediately followed by a boundary
    character. *)
Definition specOccurrenceAt (key : string) (hash : str) (i : nat) (css : str)
    : Prop :=
  ∃ pre b rest,
    css = pre ++ lit "." ++ lit key ++ lit "_" ++ hash ++ b :: rest ∧
    length pre = i ∧
    hash ≠ [] ∧ Forall (λ c, c ∈ specAlphanumerics) hash ∧
    (b ∈ specWhitespace ∨ b ∈ specDelimiters).

(** ** Concrete inputs *)

(** The path of the target file in the examples. *)
Definition cssPath : string := "index.css".

(** The stylesheet of the specification's concrete scenario. *)
Definition sampleCss : str :=
  lit ".message_Abc123{color:red} .timelineMessage_Abc123{padding-left:30px}".

(** A stylesheet without the mandatory class. *)
Definition unrecognizedCss : str := lit ".foo{color:red}".

(** A stylesheet that ends with a line feed. *)
Definition newlineCss : str := lit ".message_Abc123{color:red}" ++ [LF].

(** A stylesheet with a start marker that no end marker follows. *)
Definition orphanCss : str := lit ".message_Abc123{color:red}" ++ PATCH_START.

(** A patched stylesheet, as [applyPatch] leaves [sampleCss]. *)
Definition patchedCss : str :=
  sampleCss ++ LF :: generateRtlCss (extractClassMap sampleCss).

(** A patched stylesheet to which a rule was added after the fragment. *)
Definition laterCss : str := patchedCss ++ lit " .later_Abc123{color:blue}".

(** A stylesheet with a fragment that [generateRtlCss] did not write, of
    the shape that the unit test of [removePatchContent] uses. *)
Definition handCss : str :=
  sampleCss ++ LF :: PATCH_START ++ LF :: lit ".rtl{}" ++ LF :: PATCH_END.

(** A stylesheet in which an empty fragment splits a class name. *)
Definition splitCss : str :=
  lit ".mess" ++ PATCH_START ++ PATCH_END ++ lit "age_Q{} .message_Abc123".

(** A stylesheet whose only [.message_] class name ends it. *)
Definition trailingCss : str := lit "body{margin:0} .message_Abc123".

(** [SAMPLE_CSS] of the unit tests. *)
Definition SAMPLE_CSS : str :=
  join LF
    [ lit ".chatContainer_Abc123{display:flex;overflow:hidden}";
      lit ".messagesContainer_Abc123{overflow-y:auto;display:flex;flex-direction:column}";
      lit ".message_Abc123{color:var(--app-primary-foreground);display:flex;flex-direction:column;align-items:flex-start;padding:8px 0}";
      lit ".message_Abc123.userMessageContainer_Abc123{text-align:left;position:relative;align-items:flex-start;margin-left:0}";
      lit ".userMessageContainer_Abc123{display:inline-block;position:relative;margin:4px 0}";
      lit ".userMessage_Abc123{color:var(--app-secondary-foreground);width:100%;font-style:italic}";
      lit ".timelineMessage_Abc123{user-select:text;align-items:flex-start;padding-left:30px}";
      lit ".timelineMessage_Abc123:before{content:" ++ dquote ++ dquote
        ++ lit ";position:absolute;left:9px}";
      lit ".slashCommandMessage_Abc123{font-weight:bold}";
      lit ".slashCommandResultMessage_Abc123{opacity:0.8}";
      lit ".interruptedMessage_Abc123{border-top:1px dashed}";
      lit ".progressContent_Abc123{display:flex}";
      lit ".highlightedMessage_Abc123{opacity:1}" ].

(** A file system that holds [SAMPLE_CSS] at the target path. *)
Definition sampleFs : gmap string str := {[ cssPath := SAMPLE_CSS ]}.

(** The mapping of the missing-class scenario. *)
Definition partialMap : gmap string str := {[ "message"%string := lit "XYZ999" ]}.

(** ** Further functions of [patch-rtl.js] *)

(** [\s*\{] at the head of [s]: the greedy star takes a whitespace unit
    first and falls back to the brace when the continuation fails. *)
Fixpoint matchSpacesBrace (s : str) : bool :=
  match s with
  | [] => false
  | c :: s' =>
      if isSpace c then
        if matchSpacesBrace s' then true else (c =? 123)%N
      else (c =? 123)%N
  end.

(** [([A-Za-z0-9]+)\s*\{] at the head of [s], greedy with backtracking. *)
Fixpoint matchHashBrace (s : str) : option str :=
  match s with
  | [] => None
  | c :: s' =>
      if isAlnum c then
        match matchHashBrace s' with
        | Some h => Some (c :: h)
        | None => if matchSpacesBrace s' then Some [c] else None
        end
      else None
  end.

(** The pattern [/\.name_([A-Za-z0-9]+)\s*\{/] anchored at the head of
    [s]. *)
Definition matchSuffixAt (name : string) (s : str) : option str :=
  if startsWith (classPrefix name) s
  then matchHashBrace (drop (length (classPrefix name)) s)
  else None.

(** [s.match(/\.name_([A-Za-z0-9]+)\s*\{/)]: the capture of the leftmost
    match. *)
Fixpoint matchSuffix (name : string) (s : str) : option str :=
  match matchSuffixAt name s with
  | Some h => Some h
  | None =>
      match s with
      | [] => None
      | _ :: s' => matchSuffix name s'
      end
  end.

(** [extractHashSuffix(cssContent)]; [None] stands for [null]. *)
Definition extractHashSuffix (cssContent : str) : option str :=
  match matchSuffix "message" cssContent with
  | Some h => Some h
  | None =>
      match matchSuffix "chatContainer" cssContent with
      | Some h => Some h
      | None => None
      end
  end.

(** ** Discovery of the installed extensions *)

(** What [findExtensionDirs] and [main] read from the process and from
    Node's [os], [path] and [fs] modules.  A call that can throw returns
    [None] when it does. *)
Record host : Type := {
  (** [os.homedir()] *)
  homedir : string;
  (** [process.platform] *)
  platformName : string;
  (** [process.env.APPDATA] *)
  envAPPDATA : option string;
  (** [process.env.LOCALAPPDATA] *)
  envLOCALAPPDATA : option string;
  (** [process.env.CLAUDE_CODE_EXT_DIR] *)
  envCLAUDE_CODE_EXT_DIR : option string;
  (** [path.join(...segments)] *)
  pathJoin : list string → string;
  (** [path.basename(p)] *)
  pathBasename : string → string;
  (** [fs.existsSync(p)] *)
  existsSync : string → bool;
  (** [fs.readdirSync(p)] *)
  readdirSync : string → option (list string);
  (** [fs.statSync(p).isDirectory()] *)
  statIsDirectory : string → option bool
}.

(** Truthiness of an environment variable: [undefined] and the empty
    string are falsy. *)
Definition envTruthy (v : option string) : bool :=
  match v with
  | Some (String _ _) => true
  | _ => false
  end.

(** The directory of the Windows users seen from WSL. *)
Definition wslUsersDir : string := "/mnt/c/Users".

(** The filter on the entries of [/mnt/c/Users]. *)
Definition wslUserKept (u : string) : bool :=
  negb (u =? "Public")%string && negb (u =? "Default")%string
  && negb (u =? "Default User")%string && negb (u =? "All Users")%string.

(** The array [candidates] of [findExtensionDirs], in the order of the
    pushes. *)
Definition candidateDirs (H : host) : list string :=
  let home := homedir H in
  let join := pathJoin H in
  [ join [home; ".vscode"; "extensions"];
    join [home; ".vscode-server"; "extensions"];
    join [home; ".vscode-remote"; "extensions"];
    join [home; ".vscode-insiders"; "extensions"];
    join [home; ".cursor"; "extensions"] ]%string
  ++ (if (platformName H =? "win32")%string then
        (match envAPPDATA H with
         | Some (String c a) =>
             let appData := String c a in
             [ join [appData; "Code"; "User"; "extensions"];
               join [appData; "Code - Insiders"; "User"; "extensions"];
               join [appData; "Cursor"; "User"; "extensions"] ]%string
         | _ => []
         end)
        ++ (match envLOCALAPPDATA H with
            | Some (String c a) =>
                [ join [String c a; "Programs"; "Microsoft VS Code";
                        "extensions"] ]%string
            | _ => []
            end)
      else [])
  ++ (if (platformName H =? "darwin")%string then
        [ join [home; "Library"; "Application Support"; "Code"; "User";
                "extensions"];
          join [home; "Library"; "Application Support"; "Cursor"; "User";
                "extensions"] ]%string
      else [])
  ++ (if (platformName H =? "linux")%string && existsSync H wslUsersDir then
        match readdirSync H wslUsersDir with
        | Some users =>
            flat_map
              (λ user,
                 [ join [wslUsersDir; user; ".vscode"; "extensions"];
                   join [wslUsersDir; user; ".vscode-server"; "extensions"]
                 ]%string)
              (List.filter wslUserKept users)
        | None => []
        end
      else []).

(** The prefix of the extension's directory names. *)
Definition extensionPrefix : string := "anthropic.claude-code-".

(** The inner loop over the entries of one directory: a [statSync] that
    throws leaves the loop, and what was pushed before stays. *)
Fixpoint scanEntries (H : host) (extDir : string) (entries : list string)
    (found : list string) : list string :=
  match entries with
  | [] => found
  | entry :: entries' =>
      if String.prefix extensionPrefix entry then
        let fullPath := pathJoin H [extDir; entry] in
        match statIsDirectory H fullPath with
        | Some true => scanEntries H extDir entries' (found ++ [fullPath])
        | Some false => scanEntries H extDir entries' found
        | None => found
        end
      else scanEntries H extDir entries' found
  end.

(** One iteration of the loop over the candidates. *)
Definition scanDir (H : host) (found : list string) (extDir : string)
    : list string :=
  if existsSync H extDir then
    match readdirSync H extDir with
    | Some entries => scanEntries H extDir entries found
    | None => found
    end
  else found.

(** [findExtensionDirs()]. *)
Definition findExtensionDirs (H : host) : list string :=
  let candidates := candidateDirs H in
  match envCLAUDE_CODE_EXT_DIR H with
  | Some (String c d) => [String c d]
  | _ => foldl (scanDir H) [] candidates
  end.

(** ** The command line entry point *)

(** Where a line is printed: [console.log] or [console.error]. *)
Inductive stream : Type := Stdout | Stderr.

(** What a run of [main] leaves: the argument of [process.exit], the lines
    printed in order, and the file system. *)
Record mainResult : Type := {
  exitCode : nat;
  output : list (stream * string);
  filesAfter : gmap string str
}.

(** The double quote as a one-character string. *)
Definition quoteChar : string := String (ascii_of_nat 34) EmptyString.

(** [s.replace(pat, "")] for a string pattern: the first occurrence is
    removed. *)
Fixpoint removeFirst (pat s : string) : string :=
  if String.prefix pat s
  then String.substring (String.length pat)
         (String.length s - String.length pat) s
  else match s with
       | EmptyString => EmptyString
       | String c s' => String c (removeFirst pat s')
       end.

(** [path.join(extDir, "webview", "index.css")]. *)
Definition cssFileOf (H : host) (extDir : string) : string :=
  pathJoin H [extDir; "webview"; "index.css"]%string.

(** [path.basename(extDir).replace("anthropic.claude-code-", "")]. *)
Definition versionOf (H : host) (extDir : string) : string :=
  removeFirst extensionPrefix (pathBasename H extDir).

(** [Object.keys(classMap).join(", ")] for a map built by
    [extractClassMap]: its keys in the order of their insertion. *)
Definition classesFound (classMap : gmap string str) : string :=
  String.concat ", "
    (List.filter (λ k, bool_decide (is_Some (classMap !! k))) patterns).

(** The state of the loop of [main]: [anySuccess], the lines printed so
    far, the file system. *)
Definition mainState : Type := bool * list (stream * string) * gmap string str.

(** [log(line)]: [console.log] unless [--quiet] was given. *)
Definition logLine (isQuiet : bool) (line : string) : list (stream * string) :=
  if isQuiet then [] else [(Stdout, line)].

(** One iteration of the loop of [main]. *)
Definition mainStep (H : host) (isCheck isRevert isQuiet : bool)
    (st : mainState) (extDir : string) : mainState :=
  let '(anySuccess, out, fs) := st in
  let cssFile := cssFileOf H extDir in
  let version := versionOf H extDir in
  if isCheck then
    let patched := checkPatch cssFile fs in
    (anySuccess || patched,
     out ++ logLine isQuiet
       ("[" +:+ version +:+ "] "
        +:+ (if patched then "PATCHED" else "NOT PATCHED")
        +:+ " — " +:+ extDir),
     fs)
  else if isRevert then
    match revertPatch cssFile fs with
    | (RevertSuccess method, fs') =>
        (true,
         out ++ logLine isQuiet
           ("[" +:+ version +:+ "] Reverted RTL patch (" +:+ method
            +:+ ") — " +:+ extDir),
         fs')
    | (RevertFailure error, fs') =>
        (anySuccess,
         out ++ logLine isQuiet
           ("[" +:+ version +:+ "] " +:+ error +:+ " — " +:+ extDir),
         fs')
    end
  else
    match applyPatch cssFile fs with
    | (ApplySuccess classMap backupPath, fs') =>
        (true,
         out
         ++ logLine isQuiet
              ("[" +:+ version +:+ "] RTL patch applied successfully — "
               +:+ extDir)
         ++ logLine isQuiet ("  Classes found: " +:+ classesFound classMap)
         ++ logLine isQuiet ("  Backup saved: " +:+ backupPath)
         ++ logLine isQuiet
              ("  Reload VS Code window to see changes (Ctrl+Shift+P → "
               +:+ quoteChar +:+ "Reload Window" +:+ quoteChar +:+ ")"),
         fs')
    | (ApplyFailure error, fs') =>
        (anySuccess,
         out ++ [(Stderr,
                  "[" +:+ version +:+ "] Failed: " +:+ error +:+ " — "
                  +:+ extDir)],
         fs')
    end.

(** [main()] run with the arguments [process.argv.slice(2)]. *)
Definition main (H : host) (args : list string) (fs : gmap string str)
    : mainResult :=
  let isRevert := bool_decide ("--revert"%string ∈ args) in
  let isCheck := bool_decide ("--check"%string ∈ args) in
  let isQuiet := bool_decide ("--quiet"%string ∈ args) in
  let extDirs := findExtensionDirs H in
  match extDirs with
  | [] =>
      {| exitCode := 1;
         output :=
           [ (Stderr,
              "Error: Claude Code extension not found. Make sure it is installed.");
             (Stderr,
              "You can set CLAUDE_CODE_EXT_DIR to specify the path manually.")
           ]%string;
         filesAfter := fs |}
  | _ =>
      let '(anySuccess, out, fs') :=
        foldl (mainStep H isCheck isRevert isQuiet) (false, [], fs) extDirs in
      {| exitCode := if anySuccess then 0 else 1;
         output := out;
         filesAfter := fs' |}
  end.

(** The file system after [applyPatch] was called on the stylesheet of
    each directory in turn. *)
Definition applyAll (H : host) (extDirs : list string) (fs : gmap string str)
    : gmap string str :=
  foldl (λ fs extDir, (applyPatch (cssFileOf H extDir) fs).2) fs extDirs.

(** Whether one of these calls reported success. *)
Fixpoint anyApplied (H : host) (extDirs : list string) (fs : gmap string str)
    : bool :=
  match extDirs with
  | [] => false
  | extDir :: rest =>
      applySucceeded (applyPatch (cssFileOf H extDir) fs).1
      || anyApplied H rest (applyPatch (cssFileOf H extDir) fs).2
  end.

(** Whether a call of [revertPatch] reported success. *)
Definition revertSucceeded (r : revertResult) : bool :=
  match r with
  | RevertSuccess _ => true
  | RevertFailure _ => false
  end.

(** The file system after [revertPatch] was called on the stylesheet of
    each directory in turn. *)
Definition revertAll (H : host) (extDirs : list string) (fs : gmap string str)
    : gmap string str :=
  foldl (λ fs extDir, (revertPatch (cssFileOf H extDir) fs).2) fs extDirs.

(** Whether one of these calls reported success. *)
Fixpoint anyReverted (H : host) (extDirs : list string) (fs : gmap string str)
    : bool :=
  match extDirs with
  | [] => false
  | extDir :: rest =>
      revertSucceeded (revertPatch (cssFileOf H extDir) fs).1
      || anyReverted H rest (revertPatch (cssFileOf H extDir) fs).2
  end.

(** ** The editor extension *)

(** A message shown through [vscode.window]. *)
Inductive notification : Type :=
| InformationMessage (text : string)
| WarningMessage (text : string)
| ErrorMessage (text : string).

(** [findCssFilesViaApi()]: the stylesheet paths of the targets.
    [claudeExtensionPath] is the [extensionPath] of the extension with the
    id [anthropic.claude-code] when [vscode.extensions.all] has one. *)
Definition findCssFilesViaApi (H : host) (claudeExtensionPath : option string)
    : list (string * string) :=
  match claudeExtensionPath with
  | Some extensionPath =>
      [ (pathJoin H [extensionPath; "webview"; "index.css"]%string,
         extensionPath) ]
  | None =>
      (λ dir, (pathJoin H [dir; "webview"; "index.css"]%string, dir))
        <$> findExtensionDirs H
  end.

(** One iteration of the loops of [activate] and of its update watcher:
    a target that [checkPatch] reports as patched is skipped. *)
Definition autoPatchStep (message : string)
    (st : list notification * gmap string str) (target : string * string)
    : list notification * gmap string str :=
  let '(shown, fs) := st in
  if checkPatch target.1 fs then (shown, fs)
  else
    match applyPatch target.1 fs with
    | (ApplySuccess _ _, fs') => (shown ++ [InformationMessage message], fs')
    | (ApplyFailure _, fs') => (shown, fs')
    end.

(** The auto-patch of [activate]. *)
Definition activatePatch (H : host) (claudeExtensionPath : option string)
    (fs : gmap string str) : list notification * gmap string str :=
  foldl
    (autoPatchStep
       "Claude Code RTL Fix: Patch applied. Reload window to see changes.")
    ([], fs) (findCssFilesViaApi H claudeExtensionPath).

(** The handler of [vscode.extensions.onDidChange]. *)
Definition onExtensionsChanged (H : host) (claudeExtensionPath : option string)
    (fs : gmap string str) : list notification * gmap string str :=
  foldl
    (autoPatchStep
       "Claude Code RTL Fix: Re-applied after extension update. Reload window.")
    ([], fs) (findCssFilesViaApi H claudeExtensionPath).

(** One iteration of the loop of the command [claudeCodeRtlFix.patchNow]. *)
Definition patchNowStep (st : nat * gmap string str) (target : string * string)
    : nat * gmap string str :=
  let '(patched, fs) := st in
  match applyPatch target.1 fs with
  | (ApplySuccess _ _, fs') => (S patched, fs')
  | (ApplyFailure _, fs') => (patched, fs')
  end.

(** The command [claudeCodeRtlFix.patchNow]. *)
Definition patchNow (H : host) (claudeExtensionPath : option string)
    (fs : gmap string str) : list notification * gmap string str :=
  match findCssFilesViaApi H claudeExtensionPath with
  | [] =>
      ([ErrorMessage "Claude Code extension not found. Install it first."], fs)
  | targets =>
      let '(patched, fs') := foldl patchNowStep (0, fs) targets in
      (if 0 <? patched then
         [ InformationMessage
             ("Claude Code RTL Fix: Patched " +:+ pretty patched
              +:+ " installation(s). Reload window.") ]
       else
         [ WarningMessage "Claude Code RTL Fix: Patch could not be applied." ],
       fs')
  end.

(** One iteration of the loop of the command [claudeCodeRtlFix.revert]. *)
Definition revertCommandStep (st : nat * gmap string str)
    (target : string * string) : nat * gmap string str :=
  let '(reverted, fs) := st in
  match revertPatch target.1 fs with
  | (RevertSuccess _, fs') => (S reverted, fs')
  | (RevertFailure _, fs') => (reverted, fs')
  end.

(** The command [claudeCodeRtlFix.revert]. *)
Definition revertCommand (H : host) (claudeExtensionPath : option string)
    (fs : gmap string str) : list notification * gmap string str :=
  let '(reverted, fs') :=
    foldl revertCommandStep (0, fs) (findCssFilesViaApi H claudeExtensionPath) in
  (if 0 <? reverted then
     [ InformationMessage
         ("Claude Code RTL Fix: Reverted " +:+ pretty reverted
          +:+ " installation(s). Reload window.") ]
   else
     [ WarningMessage "Claude Code RTL Fix: No patch found to revert." ],
   fs').

(** A host for the examples: paths are joined with a solidus, no
    directory exists, and the override names one installation. *)
Definition exampleHost : host :=
  {| homedir := "/home/u";
     platformName := "linux";
     envAPPDATA := None;
     envLOCALAPPDATA := None;
     envCLAUDE_CODE_EXT_DIR := Some "/ext/anthropic.claude-code-1.0.0"%string;
     pathJoin := String.concat "/";
     pathBasename := λ p, "anthropic.claude-code-1.0.0"%string;
     existsSync := λ p, false;
     readdirSync := λ p, None;
     statIsDirectory := λ p, None |}.

(** A host that finds two installations by scanning [~/.vscode/extensions],
    in which one entry is a file and one has another name. *)
Definition scanningHost : host :=
  {| homedir := "/home/u";
     platformName := "darwin";
     envAPPDATA := None;
     envLOCALAPPDATA := None;
     envCLAUDE_CODE_EXT_DIR := None;
     pathJoin := String.concat "/";
     pathBasename := λ p, p;
     existsSync := λ p, (p =? "/home/u/.vscode/extensions")%string;
     readdirSync := λ p,
       if (p =? "/home/u/.vscode/extensions")%string
       then Some [ "anthropic.claude-code-1.0.0"; "ms-python.python-2024";
                   "anthropic.claude-code-readme.txt";
                   "anthropic.claude-code-2.0.0" ]%string
       else None;
     statIsDirectory := λ p,
       Some (negb (p =? "/home/u/.vscode/extensions/anthropic.claude-code-readme.txt")%string) |}.

(** A host whose [statSync] throws on the second of three installations. *)
Definition throwingHost : host :=
  {| homedir := "/home/u";
     platformName := "darwin";
     envAPPDATA := None;
     envLOCALAPPDATA := None;
     envCLAUDE_CODE_EXT_DIR := None;
     pathJoin := String.concat "/";
     pathBasename := λ p, p;
     existsSync := λ p, (p =? "/home/u/.vscode/extensions")%string;
     readdirSync := λ p,
       if (p =? "/home/u/.vscode/extensions")%string
       then Some [ "anthropic.claude-code-1.0.0";
                   "anthropic.claude-code-2.0.0";
                   "anthropic.claude-code-3.0.0" ]%string
       else None;
     statIsDirectory := λ p,
       if (p =? "/home/u/.vscode/extensions/anthropic.claude-code-2.0.0")%string
       then None else Some true |}.

(** The installation that [exampleHost] names, and its stylesheet. *)
Definition installedDir : string := "/ext/anthropic.claude-code-1.0.0".

Definition installedCss : string :=
  "/ext/anthropic.claude-code-1.0.0/webview/index.css".

(** A file system that holds the stylesheet of that installation. *)
Definition installedFs : gmap string str := {[ installedCss := SAMPLE_CSS ]}.

(** A file system in which the second installation of [scanningHost] is
    patched and the first has no stylesheet. *)
Definition scannedFs : gmap string str :=
  {[ "/home/u/.vscode/extensions/anthropic.claude-code-2.0.0/webview/index.css"%string
     := patchedCss ]}.

(** Whether a printed line went to the error stream. *)
Definition onStderr (line : stream * string) : bool :=
  match line.1 with
  | Stderr => true
  | Stdout => false
  end.

(** ** Facts about JavaScript string operations *)

Section StringFacts.

Implicit Types p s a b : str.

Lemma startsWith_prefix p s : startsWith p s = true ↔ ∃ k, s = p ++ k.
Proof.
  revert s. induction p as [|x p IH]; intros s; simpl.
  - split; eauto.
  - destruct s as [|y s].
    + split; [discriminate | intros [k Hk]; discriminate].
    + destruct (decide (x = y)) as [->|Hne].
      * rewrite IH. split; intros [k Hk]; exists k.
        -- by rewrite Hk.
        -- by injection Hk.
      * split; [discriminate | intros [k Hk]; injection Hk; congruence].
Qed.

Lemma startsWith_app p k : startsWith p (p ++ k) = true.
Proof. apply startsWith_prefix. eauto. Qed.

Lemma startsWith_nil_r p : p ≠ [] → startsWith p [] = false.
Proof. by destruct p. Qed.

Lemma startsWith_false p s :
  startsWith p s = false ↔ ¬ ∃ k, s = p ++ k.
Proof.
  rewrite <- startsWith_prefix. destruct (startsWith p s); naive_solver.
Qed.

(** A match that begins before a separating unit foreign to the pattern
    lies entirely before it. *)
Lemma startsWith_sep p a c b :
  c ∉ p → p ≠ [] → startsWith p (a ++ c :: b) = startsWith p a.
Proof.
  revert a. induction p as [|x p IH]; intros a Hc Hp; [done|].
  destruct a as [|y a]; simpl.
  - destruct (decide (x = c)) as [->|]; [|done].
    exfalso. apply Hc. left.
  - destruct (decide (x = y)); [|done].
    destruct p as [|x' p]; [done|].
    apply IH; [|done]. intros Hin. apply Hc. by right.
Qed.

Lemma indexOf_cons p c s :
  indexOf p (c :: s) =
    if startsWith p (c :: s) then Some 0 else S <$> indexOf p s.
Proof. done. Qed.

Lemma indexOf_here p k : indexOf p (p ++ k) = Some 0.
Proof.
  destruct p as [|x p]; destruct k; simpl; try done;
    rewrite ?decide_True by done; by rewrite ?startsWith_app.
Qed.

Lemma indexOf_skip p a c b :
  c ∉ p → p ≠ [] → indexOf p a = None →
  indexOf p (a ++ c :: b) = (λ i, length a + 1 + i) <$> indexOf p b.
Proof.
  intros Hc Hp. induction a as [|y a IH]; intros Ha.
  - rewrite app_nil_l, indexOf_cons.
    replace (c :: b) with ([] ++ c :: b) at 1 by done.
    rewrite startsWith_sep, startsWith_nil_r by done.
    destruct (indexOf p b); done.
  - rewrite indexOf_cons in Ha.
    destruct (startsWith p (y :: a)) eqn:Hsw; [done|].
    destruct (indexOf p a) eqn:Hi; [done|].
    rewrite <- app_comm_cons, indexOf_cons.
    rewrite (app_comm_cons a (c :: b) y), startsWith_sep, Hsw by done.
    rewrite IH by done. destruct (indexOf p b); done.
Qed.

Lemma indexOf_None_drop p s j :
  indexOf p s = None → startsWith p (drop j s) = false.
Proof.
  revert j. induction s as [|y s IH]; intros j H.
  - rewrite drop_nil. simpl in H. by destruct (startsWith p []).
  - rewrite indexOf_cons in H.
    destruct (startsWith p (y :: s)) eqn:Hsw; [done|].
    destruct (indexOf p s) eqn:Hi; [done|].
    destruct j; [done|]. by apply IH.
Qed.

Lemma indexOf_None_intro p s :
  (∀ j, startsWith p (drop j s) = false) → indexOf p s = None.
Proof.
  induction s as [|y s IH]; intros H.
  - pose proof (H 0) as H0. simpl in *. by rewrite H0.
  - pose proof (H 0) as H0. rewrite indexOf_cons. simpl in H0. rewrite H0.
    rewrite IH; [done|]. intros j. apply (H (S j)).
Qed.

(** [indexOf] returns the first position at which the pattern starts. *)
Lemma indexOf_Some_drop p s i :
  indexOf p s = Some i →
  startsWith p (drop i s) = true ∧ i ≤ length s ∧
  ∀ j, j < i → startsWith p (drop j s) = false.
Proof.
  revert i. induction s as [|y s IH]; intros i H.
  - simpl in H. destruct (startsWith p []) eqn:E; [|done].
    injection H as <-. repeat split; [done|done|lia].
  - rewrite indexOf_cons in H.
    destruct (startsWith p (y :: s)) eqn:Hsw.
    + injection H as <-. repeat split; [done|simpl; lia|lia].
    + destruct (indexOf p s) as [i'|] eqn:Hi; [|done].
      injection H as <-. destruct (IH i' eq_refl) as (H1 & H2 & H3).
      repeat split; [done|simpl; lia|].
      intros [|j] Hj; [done|]. apply H3. lia.
Qed.

(** No occurrence in a text means none in any of its prefixes. *)
Lemma indexOf_None_app_l p a b :
  p ≠ [] → indexOf p (a ++ b) = None → indexOf p a = None.
Proof.
  intros Hp H. apply indexOf_None_intro. intros j.
  destruct (le_lt_dec (length a) j) as [Hle|Hlt].
  - rewrite drop_ge by done. by apply startsWith_nil_r.
  - apply startsWith_false. intros [k Hk].
    pose proof (indexOf_None_drop p (a ++ b) j H) as Hn.
    apply startsWith_false in Hn. apply Hn.
    exists (k ++ b). rewrite drop_app_le by lia. rewrite Hk. by rewrite <- app_assoc.
Qed.

Lemma indexOf_None_app_r p a b :
  indexOf p (a ++ b) = None → indexOf p b = None.
Proof.
  intros H. apply indexOf_None_intro. intros j.
  pose proof (indexOf_None_drop p (a ++ b) (length a + j) H) as Hn.
  by rewrite drop_app_add in Hn.
Qed.

(** A pattern that holds a unit absent from the text does not occur. *)
Lemma indexOf_None_foreign p s c :
  c ∈ p → c ∉ s → indexOf p s = None.
Proof.
  intros Hp Hs. apply indexOf_None_intro. intros j.
  apply startsWith_false. intros [k Hk]. apply Hs.
  apply (subseteq_drop j). rewrite Hk. apply elem_of_app. by left.
Qed.

Lemma includes_false p s : includes p s = false ↔ indexOf p s = None.
Proof. unfold includes. destruct (indexOf p s); split; done. Qed.

Lemma includes_prefix p k : includes p (p ++ k) = true.
Proof. unfold includes. by rewrite indexOf_here. Qed.

Lemma includes_app_r p a b : includes p b = true → includes p (a ++ b) = true.
Proof.
  intros H. destruct (includes p (a ++ b)) eqn:E; [done|].
  apply includes_false, indexOf_None_app_r in E.
  apply includes_false in E. congruence.
Qed.

Lemma includes_app_l p a b :
  p ≠ [] → includes p a = true → includes p (a ++ b) = true.
Proof.
  intros Hp H. destruct (includes p (a ++ b)) eqn:E; [done|].
  apply includes_false, indexOf_None_app_l in E; [|done].
  apply includes_false in E. congruence.
Qed.

End StringFacts.

(** ** Counting, joining and trimming *)

Section CountJoinTrim.

Implicit Types p s a b : str.

Lemma countOccurrences_cons p c s :
  countOccurrences p (c :: s) =
    (if startsWith p (c :: s) then 1 else 0) + countOccurrences p s.
Proof. done. Qed.

Lemma countOccurrences_nil p : p ≠ [] → countOccurrences p [] = 0.
Proof. by destruct p. Qed.

Lemma countOccurrences_sep p a c b :
  c ∉ p → p ≠ [] →
  countOccurrences p (a ++ c :: b) =
    countOccurrences p a + countOccurrences p b.
Proof.
  intros Hc Hp. induction a as [|y a IH].
  - rewrite app_nil_l, countOccurrences_cons, countOccurrences_nil by done.
    replace (c :: b) with ([] ++ c :: b) at 1 by done.
    by rewrite startsWith_sep, startsWith_nil_r.
  - rewrite <- app_comm_cons, !countOccurrences_cons, IH.
    rewrite (app_comm_cons a (c :: b) y), startsWith_sep by done. lia.
Qed.

Lemma countOccurrences_absent p s :
  indexOf p s = None → countOccurrences p s = 0.
Proof.
  induction s as [|y s IH]; intros H.
  - simpl in *. by destruct (startsWith p []).
  - rewrite indexOf_cons in H. rewrite countOccurrences_cons.
    destruct (startsWith p (y :: s)); [done|].
    destruct (indexOf p s); [done|]. by rewrite IH.
Qed.

Lemma join_cons sep l l' ls :
  join sep (l :: l' :: ls) = l ++ sep :: join sep (l' :: ls).
Proof. done. Qed.

Lemma join_snoc sep ls e : join sep (ls ++ [e]) = terminated sep ls ++ e.
Proof.
  induction ls as [|l ls IH]; [done|].
  unfold terminated in *. rewrite fmap_cons, concat_cons, <- !app_assoc.
  rewrite <- IH. simpl. destruct (ls ++ [e]) eqn:E; [|done].
  by destruct ls.
Qed.

Lemma indexOf_terminated p sep ls e :
  sep ∉ p → p ≠ [] → Forall (λ l, indexOf p l = None) ls →
  indexOf p (terminated sep ls ++ e) =
    (λ i, length (terminated sep ls) + i) <$> indexOf p e.
Proof.
  intros Hsep Hp. induction 1 as [|l ls Hl Hls IH].
  - simpl. by destruct (indexOf p e).
  - unfold terminated in *. rewrite fmap_cons, concat_cons, <- !app_assoc.
    simpl. rewrite indexOf_skip, IH by done.
    destruct (indexOf p e); simpl; [|done].
    f_equal. rewrite !length_app. simpl. lia.
Qed.

Lemma countOccurrences_terminated p sep ls e :
  sep ∉ p → p ≠ [] → Forall (λ l, indexOf p l = None) ls →
  countOccurrences p (terminated sep ls ++ e) = countOccurrences p e.
Proof.
  intros Hsep Hp. induction 1 as [|l ls Hl Hls IH]; [done|].
  unfold terminated in *. rewrite fmap_cons, concat_cons, <- !app_assoc.
  simpl. rewrite countOccurrences_sep, IH by done.
  by rewrite countOccurrences_absent.
Qed.

Lemma includes_join p sep ls l :
  p ≠ [] → l ∈ ls → includes p l = true → includes p (join sep ls) = true.
Proof.
  intros Hp Hin Hl. induction ls as [|l0 ls IH]; [by apply elem_of_nil in Hin|].
  destruct ls as [|l1 ls].
  - apply list_elem_of_singleton in Hin. by subst.
  - rewrite join_cons. apply elem_of_cons in Hin as [->|Hin].
    + by apply includes_app_l.
    + apply includes_app_r. change (includes p ([sep] ++ join sep (l1 :: ls)) = true).
      apply includes_app_r. by apply IH.
Qed.

Lemma replaceTrailingNewlines_snoc s :
  replaceTrailingNewlines (s ++ [LF]) = replaceTrailingNewlines s.
Proof.
  induction s as [|c s IH]; [done|].
  assert (allNewlines ((c :: s) ++ [LF]) = allNewlines (c :: s)) as E.
  { unfold allNewlines. simpl. rewrite forallb_app. simpl.
    by rewrite !andb_true_r. }
  rewrite <- app_comm_cons in *.
  change (replaceTrailingNewlines (c :: s ++ [LF])) with
    (if allNewlines (c :: s ++ [LF]) then []
     else c :: replaceTrailingNewlines (s ++ [LF])).
  change (replaceTrailingNewlines (c :: s)) with
    (if allNewlines (c :: s) then [] else c :: replaceTrailingNewlines s).
  by rewrite E, IH.
Qed.

(** The result is a prefix of the argument. *)
Lemma replaceTrailingNewlines_prefix s :
  ∃ t, s = replaceTrailingNewlines s ++ t.
Proof.
  induction s as [|c s [t Ht]]; [by exists []|].
  change (replaceTrailingNewlines (c :: s)) with
    (if allNewlines (c :: s) then [] else c :: replaceTrailingNewlines s).
  destruct (allNewlines (c :: s)).
  - by exists (c :: s).
  - exists t. simpl. by rewrite <- Ht.
Qed.

(** A text that does not end with a line feed is left as it is. *)
Lemma replaceTrailingNewlines_id s :
  last s ≠ Some LF → replaceTrailingNewlines s = s.
Proof.
  induction s as [|c s IH]; [done|]. intros Hl.
  change (replaceTrailingNewlines (c :: s)) with
    (if allNewlines (c :: s) then [] else c :: replaceTrailingNewlines s).
  destruct (allNewlines (c :: s)) eqn:E.
  - exfalso. apply Hl. unfold allNewlines in E.
    assert (Forall (λ x, x = LF) (c :: s)) as HF.
    { apply Forall_forall. intros x Hx.
      rewrite forallb_forall in E. apply list_elem_of_In in Hx.
      specialize (E x Hx). by apply bool_decide_eq_true in E. }
    destruct (last (c :: s)) as [x|] eqn:Hlast.
    + apply last_Some in Hlast as [l' Hl'].
      rewrite Hl', Forall_app in HF. destruct HF as [_ HF].
      inversion HF; by subst.
    + by apply last_None in Hlast.
  - f_equal. apply IH. destruct s as [|c' s]; [done|]. by rewrite last_cons_cons in Hl.
Qed.

Lemma replaceTrailingNewlines_nil s :
  replaceTrailingNewlines s = [] → s = [] ∨ allNewlines s = true.
Proof.
  destruct s as [|c s]; intros Hnil; [by left|]. right.
  change (replaceTrailingNewlines (c :: s)) with
    (if allNewlines (c :: s) then [] else c :: replaceTrailingNewlines s)
    in Hnil.
  by destruct (allNewlines (c :: s)).
Qed.

(** The result never ends with a line feed. *)
Lemma replaceTrailingNewlines_last s :
  last (replaceTrailingNewlines s) ≠ Some LF.
Proof.
  induction s as [|c s IH]; [done|].
  change (replaceTrailingNewlines (c :: s)) with
    (if allNewlines (c :: s) then [] else c :: replaceTrailingNewlines s).
  destruct (allNewlines (c :: s)) eqn:E; [done|].
  destruct (replaceTrailingNewlines s) as [|x t] eqn:Hr.
  - intros [= ->]. apply replaceTrailingNewlines_nil in Hr as [->|Hs].
    + done.
    + destruct s as [|y s]; [done|]. unfold allNewlines in E, Hs.
      cbn [forallb] in E, Hs. rewrite Hs in E. done.
  - by rewrite last_cons_cons.
Qed.

(** A text that ends with a line feed is shortened. *)
Lemma replaceTrailingNewlines_shorter s :
  last s = Some LF → replaceTrailingNewlines s ≠ s.
Proof.
  intros Hl Heq. apply last_Some in Hl as [l' ->].
  rewrite replaceTrailingNewlines_snoc in Heq.
  destruct (replaceTrailingNewlines_prefix l') as [t Ht].
  rewrite Heq in Ht. apply (f_equal length) in Ht.
  rewrite !length_app in Ht. simpl in Ht. lia.
Qed.

End CountJoinTrim.

(** ** Facts about the resolver *)

Section ResolverFacts.

Implicit Types s h rest : str.

Lemma isBoundary_not_alnum c : isBoundary c = true → isAlnum c = false.
Proof.
  intros Hb. apply not_true_is_false. intros Ha.
  unfold isBoundary, isSpace, isAlnum in *.
  repeat (rewrite ?orb_true_iff, ?andb_true_iff, ?N.leb_le, ?N.eqb_eq in Hb).
  repeat (rewrite ?orb_true_iff, ?andb_true_iff, ?N.leb_le, ?N.eqb_eq in Ha).
  lia.
Qed.

Lemma matchHash_sound s h :
  matchHash s = Some h →
  h ≠ [] ∧ Forall (λ c, isAlnum c = true) h ∧
  ∃ b rest, s = h ++ b :: rest ∧ isBoundary b = true.
Proof.
  revert h. induction s as [|c s IH]; intros h H; [done|].
  cbn [matchHash] in H. destruct (isAlnum c) eqn:Hc; [|done].
  destruct (matchHash s) as [h'|] eqn:Hm.
  - injection H as <-. destruct (IH h' eq_refl) as (_ & Hal & b & rest & -> & Hb).
    split; [done|]. split; [by constructor|]. by exists b, rest.
  - destruct s as [|b rest]; [done|]. cbn [lookahead] in H.
    destruct (isBoundary b) eqn:Hb; [|done]. injection H as <-.
    split; [done|]. split; [by repeat constructor|]. by exists b, rest.
Qed.

Lemma matchHash_complete h b rest :
  h ≠ [] → Forall (λ c, isAlnum c = true) h → isBoundary b = true →
  matchHash (h ++ b :: rest) = Some h.
Proof.
  intros Hne Hal Hb. induction Hal as [|c h Hc Hal IH]; [done|].
  rewrite <- app_comm_cons. cbn [matchHash]. rewrite Hc. destruct h as [|c' h].
  - rewrite app_nil_l. cbn [matchHash lookahead].
    by rewrite (isBoundary_not_alnum b Hb), Hb.
  - by rewrite IH.
Qed.

(** The capture is never a hash that no boundary unit follows. *)
Lemma matchHash_capture_boundary h rest :
  matchHash (h ++ rest) = Some h → lookahead rest = true.
Proof.
  intros H. apply matchHash_sound in H as (_ & _ & b & r & Heq & Hb).
  apply app_inv_head in Heq. by subst.
Qed.

(** A maximal alphanumeric run that ends the input, or that is followed
    by a unit outside the boundary class, gives no match. *)
Lemma matchHash_unresolved h rest :
  Forall (λ c, isAlnum c = true) h →
  match rest with
  | [] => True
  | c :: _ => isAlnum c = false ∧ isBoundary c = false
  end →
  matchHash (h ++ rest) = None.
Proof.
  intros Hal Hrest. induction Hal as [|c h Hc Hal IH].
  - rewrite app_nil_l. destruct rest as [|c r]; [done|].
    cbn [matchHash]. by rewrite (proj1 Hrest).
  - rewrite <- app_comm_cons. cbn [matchHash]. rewrite Hc, IH.
    destruct h as [|c' h].
    + rewrite app_nil_l. destruct rest as [|c' r]; [done|].
      cbn [lookahead]. by rewrite (proj2 Hrest).
    + apply Forall_cons in Hal as [Hc' _].
      rewrite <- app_comm_cons. cbn [lookahead].
      destruct (isBoundary c') eqn:Hb; [|done].
      apply isBoundary_not_alnum in Hb. congruence.
Qed.

End ResolverFacts.

Section ExecFacts.

Implicit Types s h : str.

Lemma matchAt_delimited key s h :
  matchAt key s = Some h ↔ delimitedAt key h 0 s.
Proof.
  unfold matchAt, delimitedAt. split.
  - destruct (startsWith (classPrefix key) s) eqn:Hsw; [|done].
    apply startsWith_prefix in Hsw as [k ->]. rewrite drop_app_length.
    intros H. apply matchHash_sound in H as (Hne & Hal & b & rest & -> & Hb).
    by exists [], b, rest.
  - intros (pre & b & rest & -> & Hpre & Hne & Hal & Hb).
    apply nil_length_inv in Hpre as ->. rewrite app_nil_l.
    rewrite startsWith_app, drop_app_length. by apply matchHash_complete.
Qed.

Lemma delimitedAt_drop key h i s :
  delimitedAt key h i s ↔ i ≤ length s ∧ delimitedAt key h 0 (drop i s).
Proof.
  unfold delimitedAt. split.
  - intros (pre & b & rest & -> & <- & Hne & Hal & Hb). split.
    + rewrite length_app. lia.
    + exists [], b, rest. by rewrite drop_app_length.
  - intros (Hi & pre & b & rest & Heq & Hpre & Hne & Hal & Hb).
    apply nil_length_inv in Hpre as ->. rewrite app_nil_l in Heq.
    exists (take i s), b, rest. rewrite <- Heq, take_drop.
    repeat split; try done. rewrite length_take. lia.
Qed.

Lemma delimitedAt_matchAt key h i s :
  delimitedAt key h i s ↔ i ≤ length s ∧ matchAt key (drop i s) = Some h.
Proof. by rewrite delimitedAt_drop, matchAt_delimited. Qed.

Lemma matchAt_nil key : matchAt key [] = None.
Proof. done. Qed.

Lemma exec_Some key s h :
  exec key s = Some h ↔
  ∃ i, i ≤ length s ∧ matchAt key (drop i s) = Some h ∧
       ∀ j, j < i → matchAt key (drop j s) = None.
Proof.
  revert h. induction s as [|c s IH]; intros h.
  - cbn [exec]. rewrite matchAt_nil. split; [done|].
    intros (i & _ & H & _). by rewrite drop_nil, matchAt_nil in H.
  - cbn [exec]. destruct (matchAt key (c :: s)) as [h0|] eqn:Hm.
    + split.
      * intros [= <-]. exists 0. repeat split; [simpl; lia|done|lia].
      * intros ([|i] & _ & H & Hj).
        -- simpl in H. congruence.
        -- specialize (Hj 0 ltac:(lia)). simpl in Hj. congruence.
    + rewrite IH. split.
      * intros (i & Hi & H & Hj). exists (S i).
        repeat split; [simpl; lia|done|].
        intros [|j] Hlt; [done|]. apply Hj. lia.
      * intros ([|i] & Hi & H & Hj); [simpl in H; congruence|].
        exists i. repeat split; [simpl in Hi; lia|done|].
        intros j Hlt. apply (Hj (S j)). lia.
Qed.

Lemma exec_None key s :
  exec key s = None ↔ ∀ j, matchAt key (drop j s) = None.
Proof.
  induction s as [|c s IH].
  - cbn [exec]. rewrite matchAt_nil. split; [|done].
    intros _ j. by rewrite drop_nil.
  - cbn [exec]. destruct (matchAt key (c :: s)) as [h0|] eqn:Hm.
    + split; [done|]. intros H. specialize (H 0). simpl in H. congruence.
    + rewrite IH. split.
      * intros H [|j]; [done|]. apply H.
      * intros H j. apply (H (S j)).
Qed.

(** The captures are alphanumeric and not empty. *)
Lemma exec_alnum key s h :
  exec key s = Some h → h ≠ [] ∧ Forall (λ c, isAlnum c = true) h.
Proof.
  intros H. apply exec_Some in H as (i & _ & H & _).
  apply matchAt_delimited in H as (_ & _ & _ & _ & _ & Hne & Hal & _). done.
Qed.

Lemma foldl_recordClass_lookup css (keys : list string) (m : gmap string str) key :
  foldl (recordClass css) m keys !! key =
    if decide (key ∈ keys)
    then match exec key css with Some h => Some h | None => m !! key end
    else m !! key.
Proof.
  revert m. induction keys as [|k keys IH]; intros m.
  - cbn [foldl]. destruct (decide (key ∈ [])) as [Hin|]; [|done].
    by apply elem_of_nil in Hin.
  - cbn [foldl]. rewrite IH. unfold recordClass.
    destruct (decide (key = k)) as [->|Hne].
    + rewrite (decide_True (P := k ∈ k :: keys)) by left.
      destruct (exec k css) as [h|] eqn:He.
      * rewrite lookup_insert_eq. by destruct (decide (k ∈ keys)).
      * by destruct (decide (k ∈ keys)).
    + assert ((m !! key) =
              (match exec k css with
               | Some h => <[k:=h]> m
               | None => m
               end) !! key) as <-.
      { destruct (exec k css); [by rewrite lookup_insert_ne|done]. }
      destruct (decide (key ∈ keys)) as [Hin|Hnin].
      * rewrite decide_True by by right. done.
      * rewrite decide_False; [done|].
        intros Hin. apply elem_of_cons in Hin as [?|?]; done.
Qed.

Lemma extractClassMap_lookup css key :
  extractClassMap css !! key =
    if decide (key ∈ patterns) then exec key css else None.
Proof.
  unfold extractClassMap. rewrite foldl_recordClass_lookup, lookup_empty.
  destruct (decide (key ∈ patterns)); [|done]. by destruct (exec key css).
Qed.

Lemma extractClassMap_alnum css key h :
  extractClassMap css !! key = Some h →
  h ≠ [] ∧ Forall (λ c, isAlnum c = true) h.
Proof.
  rewrite extractClassMap_lookup. destruct (decide (key ∈ patterns)); [|done].
  apply exec_alnum.
Qed.

Lemma extractClassMap_truthy css key :
  truthy (extractClassMap css !! key) = true ↔
  is_Some (extractClassMap css !! key).
Proof.
  destruct (extractClassMap css !! key) as [h|] eqn:E; simpl.
  - apply extractClassMap_alnum in E as [Hne _].
    destruct h; [done|]. split; [by eexists|done].
  - split; [done|]. by intros [? ?].
Qed.

End ExecFacts.

(** ** Facts about the synthesized fragment *)

Section FragmentFacts.

Implicit Types (m : gmap string str) (s : str).

Lemma PATCH_START_slash : SLASH ∈ PATCH_START.
Proof. vm_compute. left. Qed.

Lemma PATCH_END_slash : SLASH ∈ PATCH_END.
Proof. vm_compute. left. Qed.

Lemma PATCH_START_no_LF : LF ∉ PATCH_START.
Proof. apply (bool_decide_unpack _). by vm_compute. Qed.

Lemma PATCH_END_no_LF : LF ∉ PATCH_END.
Proof. apply (bool_decide_unpack _). by vm_compute. Qed.

Lemma PATCH_START_nonempty : PATCH_START ≠ [].
Proof. done. Qed.

Lemma PATCH_END_nonempty : PATCH_END ≠ [].
Proof. done. Qed.

Lemma alnum_slashFree s : Forall (λ c, isAlnum c = true) s → SLASH ∉ s.
Proof.
  intros Hal Hin. rewrite Forall_forall in Hal.
  specialize (Hal _ Hin). by vm_compute in Hal.
Qed.

Lemma extractClassMap_alnumValues css : alnumValues (extractClassMap css).
Proof. intros key h H. by apply extractClassMap_alnum in H as [_ ?]. Qed.

Lemma classSelector_slashFree key m :
  alnumValues m → SLASH ∉ lit key → SLASH ∉ classSelector key m.
Proof.
  intros Hm Hkey. unfold classSelector.
  destruct (m !! key) as [[|c h]|] eqn:E;
    unfold exactSelector, fallbackSelector;
    rewrite ?not_elem_of_app; repeat split; try done;
    try (apply (bool_decide_unpack _); by vm_compute).
  apply alnum_slashFree. by apply (Hm key).
Qed.

Lemma slashFree_no_marker s :
  SLASH ∉ s → indexOf PATCH_START s = None ∧ indexOf PATCH_END s = None.
Proof.
  intros H. split; eapply indexOf_None_foreign; eauto.
  - apply PATCH_START_slash.
  - apply PATCH_END_slash.
Qed.

Lemma rtlLines_shape m : rtlLines m = PATCH_START :: rtlBody m ++ [PATCH_END].
Proof. reflexivity. Qed.

Lemma generateRtlCss_shape m :
  generateRtlCss m =
    PATCH_START ++ LF :: terminated LF (rtlBody m) ++ PATCH_END.
Proof.
  unfold generateRtlCss. rewrite rtlLines_shape, app_comm_cons, join_snoc.
  unfold terminated. rewrite fmap_cons, concat_cons.
  by rewrite <- !app_assoc.
Qed.

End FragmentFacts.

(** A line built from selectors and literals holds no solidus. *)
Ltac slash_free :=
  rewrite ?not_elem_of_app; repeat split;
  first [ apply classSelector_slashFree;
          [ assumption | apply (bool_decide_unpack _); by vm_compute ]
        | apply (bool_decide_unpack _); by vm_compute ].

(** Neither marker occurs in a line of the body. *)
Ltac no_marker_line :=
  lazymatch goal with
  | |- context [classSelector] =>
      first [ apply slashFree_no_marker | apply (proj1 (slashFree_no_marker _))
            | apply (proj2 (slashFree_no_marker _)) ]; slash_free
  | |- _ => vm_compute; reflexivity
  end.

Section FragmentMarkers.

Implicit Types (m : gmap string str) (s : str).

Lemma rtlBody_no_START m :
  alnumValues m → Forall (λ l, indexOf PATCH_START l = None) (rtlBody m).
Proof.
  intros Hm. unfold rtlBody, rtlLines. cbv zeta. cbn [tail removelast].
  repeat (apply Forall_cons; split; [no_marker_line|]). apply Forall_nil_2.
Qed.

Lemma rtlBody_no_END m :
  alnumValues m → Forall (λ l, indexOf PATCH_END l = None) (rtlBody m).
Proof.
  intros Hm. unfold rtlBody, rtlLines. cbv zeta. cbn [tail removelast].
  repeat (apply Forall_cons; split; [no_marker_line|]). apply Forall_nil_2.
Qed.

End FragmentMarkers.

(** ** Excising a fragment that was just appended *)

Section Excision.

Implicit Types (m : gmap string str) (D : str).

Lemma indexOf_START_fragment m : indexOf PATCH_START (generateRtlCss m) = Some 0.
Proof. rewrite generateRtlCss_shape. apply indexOf_here. Qed.

Lemma indexOf_END_fragment m :
  alnumValues m →
  indexOf PATCH_END (generateRtlCss m) =
    Some (length PATCH_START + 1 + length (terminated LF (rtlBody m))).
Proof.
  intros Hm. rewrite generateRtlCss_shape.
  rewrite indexOf_skip;
    [|apply PATCH_END_no_LF|apply PATCH_END_nonempty|by vm_compute].
  rewrite indexOf_terminated;
    [|apply PATCH_END_no_LF|apply PATCH_END_nonempty|by apply rtlBody_no_END].
  replace PATCH_END with (PATCH_END ++ []) at 2 by apply app_nil_r.
  rewrite indexOf_here. cbn [fmap option_fmap option_map]. f_equal. lia.
Qed.

Lemma length_generateRtlCss m :
  length (generateRtlCss m) =
    length PATCH_START + 1 + length (terminated LF (rtlBody m))
    + length PATCH_END.
Proof.
  rewrite generateRtlCss_shape, length_app. cbn [length].
  rewrite length_app. lia.
Qed.

Lemma indexOf_START_appended D m :
  indexOf PATCH_START D = None →
  indexOf PATCH_START (D ++ LF :: generateRtlCss m) = Some (length D + 1).
Proof.
  intros HD. rewrite indexOf_skip;
    [|apply PATCH_START_no_LF|apply PATCH_START_nonempty|done].
  rewrite indexOf_START_fragment. cbn [fmap option_fmap option_map].
  f_equal. lia.
Qed.

Lemma indexOf_END_appended D m :
  alnumValues m → indexOf PATCH_END D = None →
  indexOf PATCH_END (D ++ LF :: generateRtlCss m) =
    Some (length D + 1 +
          (length PATCH_START + 1 + length (terminated LF (rtlBody m)))).
Proof.
  intros Hm HD. rewrite indexOf_skip;
    [|apply PATCH_END_no_LF|apply PATCH_END_nonempty|done].
  by rewrite indexOf_END_fragment.
Qed.

(** Excision after an append gives back the content, less the line feeds
    it ended with. *)
Lemma removePatchContent_appended D m :
  alnumValues m →
  indexOf PATCH_START D = None → indexOf PATCH_END D = None →
  removePatchContent (D ++ LF :: generateRtlCss m) =
    replaceTrailingNewlines D.
Proof.
  intros Hm HS HE. unfold removePatchContent.
  rewrite indexOf_START_appended, indexOf_END_appended by done.
  cbv zeta. unfold substring, substringFrom.
  rewrite Nat.sub_0_r, drop_0.
  replace (D ++ LF :: generateRtlCss m)
    with ((D ++ [LF]) ++ generateRtlCss m) by by rewrite <- app_assoc.
  rewrite take_app_length' by (rewrite length_app; simpl; lia).
  rewrite replaceTrailingNewlines_snoc.
  rewrite drop_ge; [by rewrite app_nil_r|].
  rewrite !length_app, length_generateRtlCss. cbn [length]. lia.
Qed.

Lemma includes_START_appended D m :
  includes PATCH_START (D ++ LF :: generateRtlCss m) = true.
Proof.
  apply includes_app_r. change (includes PATCH_START ([LF] ++ generateRtlCss m) = true).
  apply includes_app_r. unfold includes. by rewrite indexOf_START_fragment.
Qed.

Lemma countOccurrences_START_fragment m :
  alnumValues m → countOccurrences PATCH_START (generateRtlCss m) = 1.
Proof.
  intros Hm. rewrite generateRtlCss_shape.
  rewrite countOccurrences_sep;
    [|apply PATCH_START_no_LF|apply PATCH_START_nonempty].
  rewrite countOccurrences_terminated;
    [|apply PATCH_START_no_LF|apply PATCH_START_nonempty
     |by apply rtlBody_no_START].
  by vm_compute.
Qed.

Lemma countOccurrences_START_appended D m :
  alnumValues m → indexOf PATCH_START D = None →
  countOccurrences PATCH_START (D ++ LF :: generateRtlCss m) = 1.
Proof.
  intros Hm HD. rewrite countOccurrences_sep;
    [|apply PATCH_START_no_LF|apply PATCH_START_nonempty].
  by rewrite countOccurrences_absent, countOccurrences_START_fragment.
Qed.

(** The round trip of append and excision on a marker-free content. *)
Lemma round_trip_trimmed D :
  markerFree D →
  removePatchContent (D ++ LF :: generateRtlCss (extractClassMap D)) =
    replaceTrailingNewlines D.
Proof.
  intros [HS HE]. apply removePatchContent_appended;
    [apply extractClassMap_alnumValues|by apply includes_false..].
Qed.

(** It is exact precisely when the content does not end with a line
    feed. *)
Lemma round_trip_exact D :
  markerFree D →
  removePatchContent (D ++ LF :: generateRtlCss (extractClassMap D)) = D ↔
  last D ≠ Some LF.
Proof.
  intros Hfree. rewrite round_trip_trimmed by done. split.
  - intros Heq Hlast. by apply (replaceTrailingNewlines_shorter D).
  - apply replaceTrailingNewlines_id.
Qed.

(** Trimming keeps a marker-free content marker-free. *)
Lemma markerFree_trim D :
  markerFree D → markerFree (replaceTrailingNewlines D).
Proof.
  intros [HS HE]. destruct (replaceTrailingNewlines_prefix D) as [t Ht].
  unfold markerFree. rewrite !includes_false in *.
  rewrite Ht in HS, HE. split.
  - by apply indexOf_None_app_l in HS; [|apply PATCH_START_nonempty].
  - by apply indexOf_None_app_l in HE; [|apply PATCH_END_nonempty].
Qed.

End Excision.

(** ** The lifecycle operations *)

Section Lifecycle.

Implicit Types (fs : gmap string str) (path : string) (content : str).

Lemma backupPathOf_fresh path : backupPathOf path ≠ path.
Proof.
  unfold backupPathOf. induction path as [|c path IH]; [done|].
  simpl. intros [= H]. by apply IH.
Qed.

Lemma workingCopy_unpatched content :
  includes PATCH_START content = false → workingCopy content = content.
Proof. unfold workingCopy. by intros ->. Qed.

(** Without both markers there is nothing to excise. *)
Lemma workingCopy_incomplete content :
  includes PATCH_START content && includes PATCH_END content = false →
  workingCopy content = content.
Proof.
  unfold workingCopy, removePatchContent, includes.
  destruct (indexOf PATCH_START content); [|done].
  destruct (indexOf PATCH_END content); [|done]. done.
Qed.

Lemma applyPatch_unrecognized fs path content :
  fs !! path = Some content →
  extractClassMap (workingCopy content) !! "message"%string = None →
  applyPatch path fs = (ApplyFailure unrecognizedFormatError, fs).
Proof. intros Hf Hm. unfold applyPatch. by rewrite Hf, Hm. Qed.

Lemma applyPatch_recognized fs path content :
  fs !! path = Some content →
  is_Some (extractClassMap (workingCopy content) !! "message"%string) →
  applyPatch path fs =
    (ApplySuccess (extractClassMap (workingCopy content)) (backupPathOf path),
     <[path := workingCopy content ++ LF ::
                 generateRtlCss (extractClassMap (workingCopy content))]>
       (match fs !! backupPathOf path with
        | None => <[backupPathOf path := workingCopy content]> fs
        | Some _ => fs
        end)).
Proof.
  intros Hf Hm. apply extractClassMap_truthy in Hm.
  unfold applyPatch. by rewrite Hf, Hm.
Qed.

(** A call that succeeds resolved the mandatory key. *)
Lemma applyPatch_succeeded fs path content :
  fs !! path = Some content →
  applySucceeded (applyPatch path fs).1 = true →
  is_Some (extractClassMap (workingCopy content) !! "message"%string).
Proof.
  intros Hf. unfold applyPatch. rewrite Hf. cbv zeta.
  destruct (truthy _) eqn:Ht; [|done]. intros _.
  by apply extractClassMap_truthy.
Qed.

End Lifecycle.

(** ** Repeated application *)

Section Repeated.

Implicit Types (fs : gmap string str) (path : string) (content D : str).

Lemma workingCopy_appended D (m : gmap string str) :
  alnumValues m → markerFree D →
  workingCopy (D ++ LF :: generateRtlCss m) = replaceTrailingNewlines D.
Proof.
  intros Hm [HS HE]. unfold workingCopy.
  rewrite includes_START_appended.
  apply removePatchContent_appended; [done|by apply includes_false..].
Qed.

Lemma workingCopy_wellFormed content :
  wellFormedTarget content → markerFree (workingCopy content).
Proof.
  intros [Hfree | (D & m & HD & Hm & ->)].
  - by rewrite workingCopy_unpatched by apply Hfree.
  - rewrite workingCopy_appended by done. by apply markerFree_trim.
Qed.

(** A successful call on a target whose working copy is marker-free
    leaves the working copy, a line feed and one fragment. *)
Lemma applyPatch_markerFree fs path content :
  fs !! path = Some content → markerFree (workingCopy content) →
  applySucceeded (applyPatch path fs).1 = true →
  freshlyPatched path (applyPatch path fs).2.
Proof.
  intros Hf Hfree Hok.
  pose proof (applyPatch_succeeded _ _ _ Hf Hok) as Hm.
  rewrite (applyPatch_recognized _ _ _ Hf Hm).
  exists (workingCopy content). split; [done|].
  cbn [snd]. apply lookup_insert_eq.
Qed.

Lemma applyPatch_wellFormed fs path content :
  fs !! path = Some content → wellFormedTarget content →
  applySucceeded (applyPatch path fs).1 = true →
  freshlyPatched path (applyPatch path fs).2.
Proof.
  intros Hf Hwf. apply (applyPatch_markerFree _ _ _ Hf).
  by apply workingCopy_wellFormed.
Qed.

(** Once the working copy is marker-free and does not end with a line
    feed, a second call changes nothing. *)
Lemma applyPatch_twice fs path content :
  fs !! path = Some content →
  markerFree (workingCopy content) →
  last (workingCopy content) ≠ Some LF →
  applySucceeded (applyPatch path fs).1 = true →
  applySucceeded (applyPatch path (applyPatch path fs).2).1 = true ∧
  (applyPatch path (applyPatch path fs).2).2 = (applyPatch path fs).2.
Proof.
  intros Hf Hfree Hlast Hok.
  pose proof (applyPatch_succeeded _ _ _ Hf Hok) as Hm.
  rewrite (applyPatch_recognized _ _ _ Hf Hm). cbn [snd].
  set (W := workingCopy content) in *.
  set (patched := W ++ LF :: generateRtlCss (extractClassMap W)).
  set (fsb := match fs !! backupPathOf path with
              | Some _ => fs
              | None => <[backupPathOf path:=W]> fs
              end).
  assert (workingCopy patched = W) as Hw.
  { unfold patched. rewrite workingCopy_appended
      by (done || apply extractClassMap_alnumValues).
    by apply replaceTrailingNewlines_id. }
  assert (is_Some (fsb !! backupPathOf path)) as [b Hb].
  { unfold fsb. destruct (fs !! backupPathOf path) eqn:E; [by rewrite E|].
    rewrite lookup_insert_eq. by eexists. }
  assert (<[path:=patched]> fsb !! path = Some patched) as Hf1
    by apply lookup_insert_eq.
  rewrite (applyPatch_recognized _ _ _ Hf1) by by rewrite Hw.
  rewrite Hw, lookup_insert_ne, Hb by apply not_eq_sym, backupPathOf_fresh.
  split; [done|]. cbn [snd]. fold patched. apply insert_insert_eq.
Qed.

Lemma applyPatch_keeps_patched fs path :
  freshlyPatched path fs →
  applySucceeded (applyPatch path fs).1 = true →
  freshlyPatched path (applyPatch path fs).2.
Proof.
  intros (D & Hfree & Hf) Hok.
  pose proof (applyPatch_succeeded _ _ _ Hf Hok) as Hm.
  rewrite (applyPatch_recognized _ _ _ Hf Hm).
  rewrite workingCopy_appended by (done || apply extractClassMap_alnumValues).
  exists (replaceTrailingNewlines D). split; [by apply markerFree_trim|].
  cbn [snd]. apply lookup_insert_eq.
Qed.

Lemma applyTimes_succ n path fs fs' :
  applyTimes (S n) path fs = Some fs' →
  applySucceeded (applyPatch path fs).1 = true ∧
  applyTimes n path (applyPatch path fs).2 = Some fs'.
Proof.
  cbn [applyTimes]. by destruct (applyPatch path fs) as [[m bk|e] fs1].
Qed.

Lemma applyTimes_keeps_patched n path fs fs' :
  freshlyPatched path fs → applyTimes n path fs = Some fs' →
  freshlyPatched path fs'.
Proof.
  revert fs. induction n as [|n IH]; intros fs Hp H.
  - by injection H as <-.
  - apply applyTimes_succ in H as [Hok H].
    apply (IH _ (applyPatch_keeps_patched _ _ Hp Hok) H).
Qed.

(** A state that a successful call leaves as it is stays so under any
    number of calls. *)
Lemma applyTimes_fixed n path fs :
  applySucceeded (applyPatch path fs).1 = true →
  (applyPatch path fs).2 = fs →
  applyTimes n path fs = Some fs.
Proof.
  intros Hok Hfix. induction n as [|n IH]; [done|].
  cbn [applyTimes]. destruct (applyPatch path fs) as [[m bk|e] fs1]; [|done].
  cbn [snd] in Hfix. by subst.
Qed.

(** On such a target every further call succeeds, and any number of
    calls ends in the state that the first one produced. *)
Lemma applyTimes_succeeds n fs path content :
  fs !! path = Some content →
  markerFree (workingCopy content) →
  last (workingCopy content) ≠ Some LF →
  applySucceeded (applyPatch path fs).1 = true →
  applyTimes (S n) path fs = Some (applyPatch path fs).2.
Proof.
  intros Hf Hfree Hlast Hok.
  destruct (applyPatch_twice _ _ _ Hf Hfree Hlast Hok) as [Hok2 Hfix].
  pose proof (applyTimes_fixed n path _ Hok2 Hfix) as Hn.
  cbn [applyTimes]. by destruct (applyPatch path fs) as [[m bk|e] fs1].
Qed.

Lemma freshlyPatched_count path fs :
  freshlyPatched path fs →
  ∃ patched, fs !! path = Some patched ∧
             countOccurrences PATCH_START patched = 1.
Proof.
  intros (D & [HS _] & Hf). eexists. split; [done|].
  apply countOccurrences_START_appended;
    [apply extractClassMap_alnumValues|by apply includes_false].
Qed.

End Repeated.

(** ** Occurrences of a class prefix *)

Section PrefixOccurrences.

Implicit Types (s a rest : str) (key : string).

(** A pattern whose first unit does not occur again in it cannot begin
    before a later occurrence of that unit and run across it. *)
Lemma startsWith_sep_head c (p' : str) d a (b : str) :
  c ∉ p' →
  startsWith (c :: p') (d :: a ++ c :: b) = startsWith (c :: p') (d :: a).
Proof.
  intros Hc. cbn [startsWith]. destruct (decide (c = d)); [|done].
  destruct p' as [|x p']; [done|]. by apply startsWith_sep.
Qed.

Lemma classPrefix_cons key : classPrefix key = 46%N :: lit key ++ lit "_".
Proof. done. Qed.

(** No occurrence of the class prefix begins inside [a] when [a] holds
    none and a full stop follows it. *)
Lemma classPrefix_no_straddle key a rest j :
  46%N ∉ lit key →
  indexOf (classPrefix key) a = None →
  j < length a →
  startsWith (classPrefix key) (drop j (a ++ 46%N :: rest)) = false.
Proof.
  intros Hkey Ha Hj. rewrite drop_app_le by lia.
  destruct (drop j a) as [|d a'] eqn:Hd.
  { apply (f_equal length) in Hd. rewrite length_drop in Hd. simpl in Hd. lia. }
  rewrite <- app_comm_cons, classPrefix_cons, startsWith_sep_head.
  - rewrite <- classPrefix_cons, <- Hd. by apply indexOf_None_drop.
  - rewrite not_elem_of_app. split; [done|].
    apply (bool_decide_unpack _). by vm_compute.
Qed.

Lemma matchAt_no_prefix key s :
  startsWith (classPrefix key) s = false → matchAt key s = None.
Proof. unfold matchAt. by intros ->. Qed.

(** [exec] passes over a stretch in which the class prefix never
    begins. *)
Lemma exec_skip key a rest :
  (∀ j, j < length a →
        startsWith (classPrefix key) (drop j (a ++ rest)) = false) →
  exec key (a ++ rest) = exec key rest.
Proof.
  induction a as [|x a IH]; intros H; [done|].
  rewrite <- app_comm_cons. cbn [exec].
  rewrite matchAt_no_prefix by apply (H 0), Nat.lt_0_succ.
  apply IH. intros j Hj. apply (H (S j)). simpl. lia.
Qed.

Lemma exec_here key hash b rest :
  hash ≠ [] → Forall (λ c, isAlnum c = true) hash → isBoundary b = true →
  exec key (classPrefix key ++ hash ++ b :: rest) = Some hash.
Proof.
  intros Hne Hal Hb.
  assert (matchAt key (classPrefix key ++ hash ++ b :: rest) = Some hash) as Hm.
  { apply matchAt_delimited. by exists [], b, rest. }
  destruct (classPrefix key ++ hash ++ b :: rest); cbn [exec]; by rewrite Hm.
Qed.

(** The first class prefix of the text decides the result when a
    delimited hash follows it. *)
Lemma exec_first key a hash b rest :
  46%N ∉ lit key →
  indexOf (classPrefix key) a = None →
  hash ≠ [] → Forall (λ c, isAlnum c = true) hash → isBoundary b = true →
  exec key (a ++ classPrefix key ++ hash ++ b :: rest) = Some hash.
Proof.
  intros Hkey Ha Hne Hal Hb. rewrite exec_skip; [by apply exec_here|].
  intros j Hj. rewrite classPrefix_cons, <- app_comm_cons.
  by apply classPrefix_no_straddle.
Qed.

(** The text [.messagesContainer_Y], with [Y] alphanumeric, holds no
    occurrence of [.message_]. *)
Lemma messagesContainer_no_message (Y : str) :
  Forall (λ c, isAlnum c = true) Y →
  indexOf (classPrefix "message") (exactSelector "messagesContainer" Y) = None.
Proof.
  intros HY. unfold exactSelector.
  change (lit "." ++ lit "messagesContainer" ++ lit "_" ++ Y)
    with (46%N :: (lit "messagesContainer" ++ lit "_" ++ Y)).
  rewrite indexOf_cons.
  assert (startsWith (classPrefix "message")
            (46%N :: lit "messagesContainer" ++ lit "_" ++ Y) = false) as ->
    by reflexivity.
  rewrite (indexOf_None_foreign _ _ 46%N); [done|left|].
  rewrite !not_elem_of_app. split; [|split].
  - apply (bool_decide_unpack _). by vm_compute.
  - apply (bool_decide_unpack _). by vm_compute.
  - intros Hin. rewrite Forall_forall in HY. specialize (HY _ Hin).
    by vm_compute in HY.
Qed.

(** Two texts without the class prefix, the second beginning with a full
    stop, concatenate to a text without it. *)
Lemma indexOf_classPrefix_app key a rest :
  46%N ∉ lit key →
  indexOf (classPrefix key) a = None →
  indexOf (classPrefix key) (46%N :: rest) = None →
  indexOf (classPrefix key) (a ++ 46%N :: rest) = None.
Proof.
  intros Hkey Ha Hr. apply indexOf_None_intro. intros j.
  destruct (le_lt_dec (length a) j) as [Hle|Hlt].
  - replace j with (length a + (j - length a)) by lia.
    rewrite drop_app_add. by apply indexOf_None_drop.
  - by apply classPrefix_no_straddle.
Qed.

Lemma exactSelector_prefix key hash rest :
  exactSelector key hash ++ rest = classPrefix key ++ hash ++ rest.
Proof. unfold exactSelector, classPrefix. by rewrite <- !app_assoc. Qed.

Lemma delimited_free_iff key css :
  (∀ j, matchAt key (drop j css) = None) ↔
  (∀ j h, ¬ delimitedAt key h j css).
Proof.
  split.
  - intros H j h Hd. apply delimitedAt_matchAt in Hd as [_ Hd].
    by rewrite H in Hd.
  - intros H j. destruct (matchAt key (drop j css)) as [h|] eqn:E; [|done].
    destruct (le_lt_dec j (length css)) as [Hle|Hlt].
    + exfalso. apply (H j h). by apply delimitedAt_matchAt.
    + rewrite drop_ge in E by lia. by rewrite matchAt_nil in E.
Qed.

End PrefixOccurrences.

(** ** Selectors in the fragment *)

Section SelectorFacts.

Implicit Types (m : gmap string str) (key : string).

Lemma classSelector_exact key m h :
  m !! key = Some h → h ≠ [] → classSelector key m = exactSelector key h.
Proof. unfold classSelector. intros -> Hne. by destruct h. Qed.

Lemma classSelector_fallback key m :
  m !! key = None ∨ m !! key = Some [] →
  classSelector key m = fallbackSelector key.
Proof. unfold classSelector. by intros [-> | ->]. Qed.

Lemma classSelector_nonempty key m : classSelector key m ≠ [].
Proof. unfold classSelector. by destruct (m !! key) as [[|c h]|]. Qed.

(** Each of the eight selectors opens a line of the first rule. *)
Lemma classSelector_line key m :
  key ∈ synthKeys → classSelector key m ++ lit "," ∈ rtlLines m.
Proof.
  intros H. unfold synthKeys in H.
  repeat (apply elem_of_cons in H as [->|H]); [..|by apply elem_of_nil in H].
  - by apply (list_elem_of_lookup_2 _ 10).
  - by apply (list_elem_of_lookup_2 _ 11).
  - by apply (list_elem_of_lookup_2 _ 12).
  - by apply (list_elem_of_lookup_2 _ 13).
  - by apply (list_elem_of_lookup_2 _ 14).
  - by apply (list_elem_of_lookup_2 _ 15).
  - by apply (list_elem_of_lookup_2 _ 16).
  - by apply (list_elem_of_lookup_2 _ 17).
Qed.

Lemma classSelector_included key m :
  key ∈ synthKeys →
  includes (classSelector key m) (generateRtlCss m) = true.
Proof.
  intros H. unfold generateRtlCss.
  apply (includes_join _ _ _ (classSelector key m ++ lit ",")).
  - apply classSelector_nonempty.
  - by apply classSelector_line.
  - apply includes_prefix.
Qed.

(** The fragment is a function of the eight looked-up hashes. *)
Lemma classSelector_ext key m m' :
  m !! key = m' !! key → classSelector key m = classSelector key m'.
Proof. unfold classSelector. by intros ->. Qed.

Lemma generateRtlCss_ext m m' :
  (∀ key, key ∈ synthKeys → m !! key = m' !! key) →
  generateRtlCss m = generateRtlCss m'.
Proof.
  intros H. unfold generateRtlCss, rtlLines.
  assert (∀ key, key ∈ synthKeys → classSelector key m = classSelector key m')
    as Hsel by (intros key Hk; by apply classSelector_ext, H).
  cbv zeta.
  rewrite (Hsel "message"%string), (Hsel "userMessage"%string),
    (Hsel "userMessageContainer"%string), (Hsel "timelineMessage"%string),
    (Hsel "slashCommandMessage"%string),
    (Hsel "slashCommandResultMessage"%string),
    (Hsel "interruptedMessage"%string), (Hsel "progressContent"%string)
    by (apply (bool_decide_unpack _); by vm_compute).
  reflexivity.
Qed.

End SelectorFacts.

(** ** A hash that nothing delimits *)

Section Undelimited.

Implicit Types (pre hash rest : str) (key : string).

Lemma exec_absent key (s : str) :
  indexOf (classPrefix key) s = None → exec key s = None.
Proof.
  intros H. apply exec_None. intros j.
  by apply matchAt_no_prefix, indexOf_None_drop.
Qed.

Lemma matchAt_occurrence key hash rest :
  matchAt key (classPrefix key ++ hash ++ rest) = matchHash (hash ++ rest).
Proof. unfold matchAt. by rewrite startsWith_app, drop_app_length. Qed.

(** A class name that ends the text is not resolved when the class
    prefix occurs nowhere before it. *)
Lemma exec_trailing key pre hash :
  46%N ∉ lit key →
  indexOf (classPrefix key) pre = None →
  Forall (λ u, isAlnum u = true) hash →
  exec key (pre ++ classPrefix key ++ hash) = None.
Proof.
  intros Hkey Hpre Hal. rewrite exec_skip.
  - rewrite classPrefix_cons, <- app_comm_cons. cbn [exec].
    rewrite app_comm_cons, <- classPrefix_cons.
    replace (classPrefix key ++ hash)
      with (classPrefix key ++ hash ++ []) by by rewrite app_nil_r.
    rewrite matchAt_occurrence, matchHash_unresolved by done.
    apply exec_absent, (indexOf_None_foreign _ _ 46%N); [left|].
    rewrite !not_elem_of_app. split; [split|].
    + done.
    + apply (bool_decide_unpack _). by vm_compute.
    + intros Hin. rewrite Forall_forall in Hal. specialize (Hal _ Hin).
      by vm_compute in Hal.
  - intros j Hj. rewrite classPrefix_cons, <- app_comm_cons.
    by apply classPrefix_no_straddle.
Qed.

End Undelimited.

(** ** The unit tests of the repository, replayed on the embedding *)

Section UnitTests.

(** "extractClassMap: extracts all known classes". *)
Example test_extractClassMap_all :
  (λ key, extractClassMap SAMPLE_CSS !! key) <$>
    [ "message"; "messagesContainer"; "chatContainer"; "userMessageContainer";
      "userMessage"; "timelineMessage"; "slashCommandMessage";
      "slashCommandResultMessage"; "interruptedMessage";
      "progressContent" ]%string
  = replicate 10 (Some (lit "Abc123")).
Proof. vm_compute. reflexivity. Qed.

(** "extractClassMap: handles different hashes for different modules". *)
Example test_extractClassMap_two_hashes :
  extractClassMap
    (lit ".message_AAA111{color:red}.userMessage_BBB222{color:blue}")
  = {[ "message"%string := lit "AAA111"; "userMessage"%string := lit "BBB222" ]}.
Proof. vm_compute. reflexivity. Qed.

(** "generateRtlCss: falls back to attribute selectors for missing
    classes". *)
Example test_generateRtlCss_fallback :
  includes (lit ".message_XYZ999") (generateRtlCss partialMap) = true ∧
  includes (fallbackSelector "userMessage") (generateRtlCss partialMap) = true.
Proof. split; vm_compute; reflexivity. Qed.

(** "applyPatch: patches a CSS file successfully". *)
Example test_applyPatch_success :
  (applyPatch cssPath sampleFs).1
    = ApplySuccess (extractClassMap SAMPLE_CSS) (backupPathOf cssPath) ∧
  (applyPatch cssPath sampleFs).2 !! backupPathOf cssPath = Some SAMPLE_CSS ∧
  checkPatch cssPath (applyPatch cssPath sampleFs).2 = true.
Proof. split; [|split]; vm_compute; reflexivity. Qed.

(** "applyPatch: is idempotent (re-applying replaces existing patch)". *)
Example test_applyPatch_one_marker :
  countOccurrences PATCH_START <$> contentAfter 1 cssPath sampleFs = Some 1 ∧
  countOccurrences PATCH_START <$> contentAfter 2 cssPath sampleFs = Some 1.
Proof. split; vm_compute; reflexivity. Qed.

(** "applyPatch: returns error for missing file" and "for unrecognized
    CSS". *)
Example test_applyPatch_errors :
  (applyPatch cssPath ∅).1 = ApplyFailure (notFoundError cssPath) ∧
  (applyPatch cssPath {[ cssPath := unrecognizedCss ]}).1
    = ApplyFailure unrecognizedFormatError.
Proof. split; vm_compute; reflexivity. Qed.

(** "revertPatch: restores from backup". *)
Example test_revertPatch_backup :
  revertPatch cssPath (applyPatch cssPath sampleFs).2
  = (RevertSuccess "backup", sampleFs).
Proof. vm_compute. reflexivity. Qed.

(** "revertPatch: strips markers when no backup exists". *)
Example test_revertPatch_strip :
  revertPatch cssPath (delete (backupPathOf cssPath) (applyPatch cssPath sampleFs).2)
  = (RevertSuccess "strip", sampleFs).
Proof. vm_compute. reflexivity. Qed.

(** "revertPatch: returns error when nothing to revert". *)
Example test_revertPatch_nothing :
  revertPatch cssPath sampleFs = (RevertFailure nothingToRevertError, sampleFs).
Proof. vm_compute. reflexivity. Qed.

(** "removePatchContent: removes patch section cleanly" and "is no-op when
    no patch markers". *)
Example test_removePatchContent :
  removePatchContent
    (lit "body{color:red}" ++ [LF] ++ PATCH_START ++ [LF] ++ lit ".rtl{}"
     ++ [LF] ++ PATCH_END)
  = lit "body{color:red}" ∧
  removePatchContent (lit "body{color:red}") = lit "body{color:red}".
Proof. split; vm_compute; reflexivity. Qed.

End UnitTests.

(** ** The resolver against the specification's occurrence *)

Section SpecOccurrence.

Implicit Types (c : N) (h css : str) (key : string).

(** No key of the fixed list holds a full stop. *)
Lemma patterns_no_dot key : key ∈ patterns → 46%N ∉ lit key.
Proof.
  intros H. unfold patterns in H.
  repeat (apply elem_of_cons in H as [->|H]);
    [apply (bool_decide_unpack _); by vm_compute..|by apply elem_of_nil in H].
Qed.

Lemma isAlnum_spec c : isAlnum c = true ↔ c ∈ specAlphanumerics.
Proof.
  unfold isAlnum. rewrite !orb_true_iff, !andb_true_iff, !N.leb_le.
  assert (specAlphanumerics
          = N.of_nat <$> (seq 65 26 ++ seq 97 26 ++ seq 48 10)) as ->
    by (vm_compute; reflexivity).
  rewrite list_elem_of_fmap.
  setoid_rewrite elem_of_app. setoid_rewrite elem_of_app.
  setoid_rewrite elem_of_seq. split.
  - intros Hc. exists (N.to_nat c). split; lia.
  - intros (n & -> & Hn). lia.
Qed.

Lemma isSpace_spec c : isSpace c = true ↔ c ∈ specWhitespace.
Proof.
  rewrite list_elem_of_In. unfold isSpace, specWhitespace.
  rewrite !orb_true_iff, !andb_true_iff, !N.leb_le, !N.eqb_eq.
  cbn [In]. lia.
Qed.

Lemma isBoundary_spec c :
  isBoundary c = true ↔ c ∈ specWhitespace ∨ c ∈ specDelimiters.
Proof.
  unfold isBoundary. rewrite !orb_true_iff, isSpace_spec, !N.eqb_eq.
  assert (c ∈ specDelimiters
          ↔ c = 123 ∨ c = 46 ∨ c = 44 ∨ c = 58 ∨ c = 91 ∨ c = 62 ∨ c = 126
            ∨ c = 43)%N as ->; [|tauto].
  assert (specDelimiters = [123; 46; 44; 58; 91; 62; 126; 43]%N) as ->
    by (vm_compute; reflexivity).
  rewrite !elem_of_cons, elem_of_nil. tauto.
Qed.

Lemma specAlphanumerics_isAlnum h :
  Forall (λ c, c ∈ specAlphanumerics) h ↔ Forall (λ c, isAlnum c = true) h.
Proof. apply Forall_iff. intros c. symmetry. apply isAlnum_spec. Qed.

(** The occurrences that the specification describes are those that the
    regular expression matches. *)
Lemma specOccurrenceAt_delimitedAt key h i css :
  specOccurrenceAt key h i css ↔ delimitedAt key h i css.
Proof.
  unfold specOccurrenceAt, delimitedAt.
  assert (∀ pre b rest,
            pre ++ lit "." ++ lit key ++ lit "_" ++ h ++ b :: rest
            = pre ++ classPrefix key ++ h ++ b :: rest) as Hshape.
  { intros pre b rest. unfold classPrefix. by rewrite <- !app_assoc. }
  split; intros (pre & b & rest & Hcss & Hlen & Hne & Hh & Hb);
    exists pre, b, rest.
  - rewrite Hshape in Hcss. rewrite specAlphanumerics_isAlnum in Hh.
    by rewrite isBoundary_spec.
  - rewrite <- Hshape in Hcss. rewrite <- specAlphanumerics_isAlnum in Hh.
    by rewrite <- isBoundary_spec.
Qed.

End SpecOccurrence.

(** ** The claims *)

(** C1 (the code departs from the claim): appending the synthesized
    fragment to a marker-free stylesheet whose [message] key resolves and
    excising it again does not give the stylesheet back when it ends with a
    line feed; the excision also removes that line feed. *)
Theorem C1_round_trip_loses_trailing_newline :
  markerFree newlineCss ∧
  is_Some (extractClassMap newlineCss !! "message"%string) ∧
  removePatchContent
    (newlineCss ++ LF :: generateRtlCss (extractClassMap newlineCss))
  = lit ".message_Abc123{color:red}" ∧
  removePatchContent
    (newlineCss ++ LF :: generateRtlCss (extractClassMap newlineCss))
  ≠ newlineCss.
Proof.
  split; [split; by vm_compute|].
  split; [vm_compute; by eexists|].
  split; by vm_compute.
Qed.

(** C2: when the working copy of an existing file yields no [message]
    entry, [applyPatch] reports the unrecognized-format failure and leaves
    the whole file system as it was: neither the file nor a backup is
    written. *)
Theorem C2_apply_fails_closed (fs : gmap string str) (path : string) (content : str) :
  fs !! path = Some content →
  extractClassMap (workingCopy content) !! "message"%string = None →
  applyPatch path fs = (ApplyFailure unrecognizedFormatError, fs).
Proof. apply applyPatch_unrecognized. Qed.

Lemma C2_apply_fails_closed_witness :
  ({[ cssPath := unrecognizedCss ]} : gmap string str) !! cssPath
    = Some unrecognizedCss ∧
  extractClassMap (workingCopy unrecognizedCss) !! "message"%string = None ∧
  applyPatch cssPath {[ cssPath := unrecognizedCss ]} =
    (ApplyFailure unrecognizedFormatError, {[ cssPath := unrecognizedCss ]}).
Proof.
  split; [vm_compute; reflexivity|]. split; [vm_compute; reflexivity|].
  apply (C2_apply_fails_closed {[ cssPath := unrecognizedCss ]} cssPath unrecognizedCss).
  - vm_compute. reflexivity.
  - vm_compute. reflexivity.
Defined.

(** C3, as the code has it: for a file without a backup whose working copy
    resolves the [message] key, [applyPatch] followed by [revertPatch]
    reports the method [backup], removes the backup file and leaves the
    working copy of the original content in the file, every other file
    being untouched; when the original content does not hold both markers
    the working copy is the content itself and the file system is restored
    exactly. *)
Theorem C3_revert_restores_working_copy
    (fs : gmap string str) (path : string) (content : str) :
  fs !! path = Some content →
  fs !! backupPathOf path = None →
  is_Some (extractClassMap (workingCopy content) !! "message"%string) →
  applySucceeded (applyPatch path fs).1 = true ∧
  (revertPatch path (applyPatch path fs).2).1 = RevertSuccess "backup" ∧
  (revertPatch path (applyPatch path fs).2).2 !! path
    = Some (workingCopy content) ∧
  (revertPatch path (applyPatch path fs).2).2 !! backupPathOf path = None ∧
  (revertPatch path (applyPatch path fs).2).2
    = <[path := workingCopy content]> fs ∧
  (includes PATCH_START content && includes PATCH_END content = false →
   (revertPatch path (applyPatch path fs).2).2 = fs).
Proof.
  intros Hf Hb Hm. rewrite (applyPatch_recognized _ _ _ Hf Hm), Hb.
  cbn [fst snd]. pose proof (backupPathOf_fresh path) as Hne.
  unfold revertPatch. rewrite lookup_insert_eq.
  rewrite lookup_insert_ne, lookup_insert_eq by done. cbn [fst snd].
  assert (delete (backupPathOf path)
            (<[path:=workingCopy content]>
               (<[path:=workingCopy content ++ LF ::
                          generateRtlCss (extractClassMap (workingCopy content))]>
                  (<[backupPathOf path:=workingCopy content]> fs)))
          = <[path:=workingCopy content]> fs) as Hfs.
  { rewrite insert_insert_eq, delete_insert_ne by done.
    rewrite delete_insert_eq. by rewrite delete_id. }
  rewrite Hfs. split; [done|]. split; [done|].
  split; [apply lookup_insert_eq|].
  split; [by rewrite lookup_insert_ne|]. split; [done|].
  intros Hs. rewrite workingCopy_incomplete by done. by apply insert_id.
Qed.

Lemma C3_revert_restores_working_copy_witness :
  ({[ cssPath := sampleCss ]} : gmap string str) !! cssPath = Some sampleCss ∧
  ({[ cssPath := sampleCss ]} : gmap string str) !! backupPathOf cssPath = None ∧
  is_Some (extractClassMap (workingCopy sampleCss) !! "message"%string) ∧
  includes PATCH_START sampleCss && includes PATCH_END sampleCss = false ∧
  (revertPatch cssPath (applyPatch cssPath {[ cssPath := sampleCss ]}).2).2
  = {[ cssPath := sampleCss ]}.
Proof.
  split; [vm_compute; reflexivity|]. split; [vm_compute; reflexivity|].
  split; [vm_compute; by eexists|]. split; [vm_compute; reflexivity|].
  apply (C3_revert_restores_working_copy {[ cssPath := sampleCss ]} cssPath sampleCss).
  - vm_compute. reflexivity.
  - vm_compute. reflexivity.
  - vm_compute. by eexists.
  - vm_compute. reflexivity.
Defined.

(** C3 fails as stated: a patched file whose backup is gone has a
    resolvable [message] key and no backup, yet after [applyPatch] and
    [revertPatch] it holds the stylesheet without the fragment, not the
    content it had before. *)
Lemma C3_counterexample :
  ({[ cssPath := patchedCss ]} : gmap string str) !! cssPath = Some patchedCss ∧
  ({[ cssPath := patchedCss ]} : gmap string str) !! backupPathOf cssPath = None ∧
  is_Some (extractClassMap patchedCss !! "message"%string) ∧
  (revertPatch cssPath (applyPatch cssPath {[ cssPath := patchedCss ]}).2).1
    = RevertSuccess "backup" ∧
  (revertPatch cssPath (applyPatch cssPath {[ cssPath := patchedCss ]}).2).2
    !! cssPath = Some sampleCss ∧
  sampleCss ≠ patchedCss.
Proof.
  split; [by vm_compute|]. split; [by vm_compute|].
  split; [vm_compute; by eexists|].
  split; [by vm_compute|]. split; by vm_compute.
Qed.

(** C4, as the code has it: for a file on which [applyPatch] succeeds and
    whose working copy (the content itself when it holds no start marker,
    else what [removePatchContent] leaves of it) holds neither marker and
    does not end with a line feed, a second [applyPatch] right after the
    first succeeds too and leaves the file system, the target and its
    backup included, exactly as the first call left it.  The fragment that
    the content may hold can be of any content and text may follow it. *)
Theorem C4_apply_twice_same_state
    (fs : gmap string str) (path : string) (content : str) :
  fs !! path = Some content →
  markerFree (workingCopy content) →
  last (workingCopy content) ≠ Some LF →
  applySucceeded (applyPatch path fs).1 = true →
  applySucceeded (applyPatch path (applyPatch path fs).2).1 = true ∧
  (applyPatch path (applyPatch path fs).2).2 = (applyPatch path fs).2.
Proof. apply applyPatch_twice. Qed.

Lemma C4_apply_twice_same_state_witness :
  ({[ cssPath := laterCss ]} : gmap string str) !! cssPath = Some laterCss ∧
  markerFree (workingCopy laterCss) ∧
  last (workingCopy laterCss) ≠ Some LF ∧
  applySucceeded (applyPatch cssPath {[ cssPath := laterCss ]}).1 = true ∧
  (applyPatch cssPath (applyPatch cssPath {[ cssPath := laterCss ]}).2).2
  = (applyPatch cssPath {[ cssPath := laterCss ]}).2.
Proof.
  split; [vm_compute; reflexivity|].
  split; [split; vm_compute; reflexivity|].
  split; [vm_compute; discriminate|].
  split; [vm_compute; reflexivity|].
  apply (C4_apply_twice_same_state {[ cssPath := laterCss ]} cssPath laterCss).
  - vm_compute. reflexivity.
  - split; vm_compute; reflexivity.
  - vm_compute. discriminate.
  - vm_compute. reflexivity.
Defined.

(** C4 fails as stated: on a file that holds a start marker without an end
    marker both calls succeed, the first appends a fragment after the stray
    marker and the second cuts from the stray marker on, so the contents
    after one and after two calls differ. *)
Lemma C4_counterexample :
  applySucceeded (applyPatch cssPath {[ cssPath := orphanCss ]}).1 = true ∧
  applySucceeded
    (applyPatch cssPath (applyPatch cssPath {[ cssPath := orphanCss ]}).2).1
    = true ∧
  (applyPatch cssPath (applyPatch cssPath {[ cssPath := orphanCss ]}).2).2
    !! cssPath
  ≠ (applyPatch cssPath {[ cssPath := orphanCss ]}).2 !! cssPath.
Proof.
  split; [by vm_compute|]. split; by vm_compute.
Qed.

(** C5, as the code has it: starting from a file whose working copy (the
    content itself when it holds no start marker, else what
    [removePatchContent] leaves of it) holds neither marker, after any
    number [n >= 1] of consecutive successful calls of [applyPatch] the
    content holds exactly one occurrence of the start marker, and it is one
    marker-free text followed by a line feed and one synthesized fragment.
    What stood between the markers of the starting content does not
    matter. *)
Theorem C5_single_start_marker
    (n : nat) (fs fs' : gmap string str) (path : string) (content : str) :
  fs !! path = Some content →
  markerFree (workingCopy content) →
  1 ≤ n →
  applyTimes n path fs = Some fs' →
  ∃ patched,
    fs' !! path = Some patched ∧
    countOccurrences PATCH_START patched = 1 ∧
    ∃ D, markerFree D ∧
         patched = D ++ LF :: generateRtlCss (extractClassMap D).
Proof.
  intros Hf Hfree Hn Happ. destruct n as [|n]; [lia|].
  apply applyTimes_succ in Happ as [Hok Happ].
  pose proof (applyPatch_markerFree _ _ _ Hf Hfree Hok) as Hp.
  pose proof (applyTimes_keeps_patched _ _ _ _ Hp Happ) as Hp'.
  destruct (freshlyPatched_count _ _ Hp') as (patched & Hf' & Hcount).
  exists patched. split; [done|]. split; [done|].
  destruct Hp' as (D & HD & HfD). exists D. split; [done|]. congruence.
Qed.

Lemma C5_single_start_marker_witness :
  ({[ cssPath := handCss ]} : gmap string str) !! cssPath = Some handCss ∧
  markerFree (workingCopy handCss) ∧
  1 ≤ 3 ∧
  is_Some (applyTimes 3 cssPath {[ cssPath := handCss ]}) ∧
  countOccurrences PATCH_START
    <$> contentAfter 3 cssPath {[ cssPath := handCss ]} = Some 1.
Proof.
  split; [vm_compute; reflexivity|].
  split; [split; vm_compute; reflexivity|].
  split; [lia|].
  assert (is_Some (applyTimes 3 cssPath {[ cssPath := handCss ]})) as Hsome
    by (apply (bool_decide_unpack _); vm_compute; exact I).
  split; [exact Hsome|]. destruct Hsome as [fs' E].
  unfold contentAfter. rewrite E.
  destruct (C5_single_start_marker 3 {[ cssPath := handCss ]} fs' cssPath
              handCss) as (patched & Hp & Hc & _).
  - vm_compute. reflexivity.
  - split; vm_compute; reflexivity.
  - lia.
  - exact E.
  - simpl. rewrite Hp. simpl. by rewrite Hc.
Defined.

(** C5 fails as stated: on a file that holds a start marker without an end
    marker one successful call leaves two occurrences of the start
    marker. *)
Lemma C5_counterexample :
  is_Some (applyTimes 1 cssPath {[ cssPath := orphanCss ]}) ∧
  countOccurrences PATCH_START
    <$> contentAfter 1 cssPath {[ cssPath := orphanCss ]} = Some 2.
Proof.
  split; [|by vm_compute].
  apply (bool_decide_unpack _). vm_compute. exact I.
Qed.

(** C6: for every content and every key of the fixed list,
    [extractClassMap] records the hash of the first occurrence of
    [.key_hash] whose hash, one or more of the letters [A-Z], [a-z] and
    the digits, is immediately followed by whitespace or by one of
    [{ . , : [ > ~ +], and records nothing when there is no such
    occurrence.  Each of these characters delimits a hash: when the text
    before holds no [.key_], the hash of the occurrence is recorded.  In
    particular, in a stylesheet with a rule [.message_X{] and a rule
    [.messagesContainer_Y{], in either order, the key [message] resolves
    to [X]. *)
Theorem C6_resolver_first_delimited_occurrence
    (css : str) (key : string) (a b c X Y : str) :
  key ∈ patterns →
  (∀ h, extractClassMap css !! key = Some h ↔
        ∃ i, specOccurrenceAt key h i css ∧
             ∀ j h', j < i → ¬ specOccurrenceAt key h' j css) ∧
  (extractClassMap css !! key = None ↔
     ∀ j h', ¬ specOccurrenceAt key h' j css) ∧
  (∀ pre h d rest,
     includes (lit "." ++ lit key ++ lit "_") pre = false →
     h ≠ [] → Forall (λ u, u ∈ specAlphanumerics) h →
     d ∈ specWhitespace ∨ d ∈ specDelimiters →
     extractClassMap (pre ++ lit "." ++ lit key ++ lit "_" ++ h ++ d :: rest)
       !! key = Some h) ∧
  (X ≠ [] → Forall (λ u, u ∈ specAlphanumerics) X →
   Forall (λ u, u ∈ specAlphanumerics) Y →
   includes (lit ".message_") a = false →
   includes (lit ".message_") b = false →
   extractClassMap
     (a ++ lit ".message_" ++ X ++ lit "{" ++ b ++
      lit ".messagesContainer_" ++ Y ++ lit "{" ++ c)
     !! "message"%string = Some X ∧
   extractClassMap
     (a ++ lit ".messagesContainer_" ++ Y ++ lit "{" ++ b ++
      lit ".message_" ++ X ++ lit "{" ++ c)
     !! "message"%string = Some X).
Proof.
  intros Hkey. setoid_rewrite specOccurrenceAt_delimitedAt.
  rewrite extractClassMap_lookup, decide_True by done.
  split; [|split; [|split]].
  - intros h. rewrite exec_Some. split.
    + intros (i & Hi & Hm & Hj). exists i. split.
      * by apply delimitedAt_matchAt.
      * intros j h' Hlt Hd. apply delimitedAt_matchAt in Hd as [_ Hd].
        by rewrite Hj in Hd.
    + intros (i & Hd & Hj). apply delimitedAt_matchAt in Hd as [Hi Hm].
      exists i. split; [done|]. split; [done|]. intros j Hlt.
      destruct (matchAt key (drop j css)) as [h'|] eqn:E; [|done].
      exfalso. apply (Hj j h' Hlt). apply delimitedAt_matchAt. split; [lia|done].
  - rewrite exec_None. apply delimited_free_iff.
  - intros pre h d rest Hpre Hne Hal Hd. apply includes_false in Hpre.
    apply specAlphanumerics_isAlnum in Hal. apply isBoundary_spec in Hd.
    rewrite extractClassMap_lookup, decide_True by done.
    replace (pre ++ lit "." ++ lit key ++ lit "_" ++ h ++ d :: rest)
      with (pre ++ classPrefix key ++ h ++ d :: rest)
      by (unfold classPrefix; by rewrite <- !app_assoc).
    apply exec_first; [by apply patterns_no_dot|done..].
  - intros HX HXal HYal Ha Hb. apply includes_false in Ha, Hb.
    apply specAlphanumerics_isAlnum in HXal, HYal.
    change (lit ".message_") with (classPrefix "message") in *.
    assert (46%N ∉ lit "message") as Hdot
      by (apply (bool_decide_unpack _); by vm_compute).
    rewrite !extractClassMap_lookup.
    rewrite !decide_True by (apply (bool_decide_unpack _); by vm_compute).
    split.
    + by apply exec_first.
    + replace (a ++ lit ".messagesContainer_" ++ Y ++ lit "{" ++ b ++
               classPrefix "message" ++ X ++ lit "{" ++ c)
        with ((a ++ exactSelector "messagesContainer" Y ++ lit "{" ++ b) ++
              classPrefix "message" ++ X ++ 123%N :: c)
        by (unfold exactSelector, classPrefix; by rewrite <- !app_assoc).
      apply exec_first; try done.
      change (exactSelector "messagesContainer" Y ++ lit "{" ++ b) with
        (46%N :: (lit "messagesContainer" ++ lit "_" ++ Y) ++ 123%N :: b).
      apply indexOf_classPrefix_app; [done|done|].
      rewrite app_comm_cons, indexOf_skip.
      * by rewrite Hb.
      * apply (bool_decide_unpack _). by vm_compute.
      * done.
      * by apply messagesContainer_no_message.
Qed.

Lemma C6_resolver_first_delimited_occurrence_witness :
  "message"%string ∈ patterns ∧
  includes (lit "." ++ lit "message" ++ lit "_")
    (lit ".messagesContainer_Xyz789{overflow-y:auto} ") = false ∧
  lit "Abc123" ≠ [] ∧
  Forall (λ u, u ∈ specAlphanumerics) (lit "Abc123") ∧
  (9%N ∈ specWhitespace ∨ 9%N ∈ specDelimiters) ∧
  extractClassMap
    (lit ".messagesContainer_Xyz789{overflow-y:auto} " ++ lit "." ++
     lit "message" ++ lit "_" ++ lit "Abc123" ++ 9%N :: lit "{color:red}")
    !! "message"%string = Some (lit "Abc123").
Proof.
  split; [apply (bool_decide_unpack _); vm_compute; exact I|].
  split; [vm_compute; reflexivity|].
  split; [discriminate|].
  split; [apply (bool_decide_unpack _); vm_compute; exact I|].
  split; [left; apply (bool_decide_unpack _); vm_compute; exact I|].
  destruct (C6_resolver_first_delimited_occurrence
              sampleCss "message" [] [] [] (lit "Abc123") (lit "Xyz789"))
    as (_ & _ & Hdelimits & _).
  - apply (bool_decide_unpack _). vm_compute. exact I.
  - apply Hdelimits.
    + vm_compute. reflexivity.
    + discriminate.
    + apply (bool_decide_unpack _). vm_compute. exact I.
    + left. apply (bool_decide_unpack _). vm_compute. exact I.
Defined.

(** C7, as the code has it: for each of the eight keys whose selectors
    [generateRtlCss] writes, the fragment holds the exact class selector
    [.key_hash] when the mapping has a non-empty hash for the key and the
    attribute selector [[class*="key_"]] when it has none; for the mapping
    that holds only [message: "XYZ999"] the fragment holds
    [.message_XYZ999] and the attribute selector of each of the other
    seven keys. *)
Theorem C7_selector_fallback_for_written_keys
    (m : gmap string str) (key : string) :
  key ∈ synthKeys →
  (∀ h, m !! key = Some h → h ≠ [] →
        classSelector key m = exactSelector key h ∧
        includes (exactSelector key h) (generateRtlCss m) = true) ∧
  (m !! key = None ∨ m !! key = Some [] →
   classSelector key m = fallbackSelector key ∧
   includes (fallbackSelector key) (generateRtlCss m) = true) ∧
  includes (exactSelector "message" (lit "XYZ999")) (generateRtlCss partialMap)
    = true ∧
  (key ≠ "message"%string →
   includes (fallbackSelector key) (generateRtlCss partialMap) = true).
Proof.
  intros Hkey. split; [|split; [|split]].
  - intros h Hm Hne. pose proof (classSelector_exact _ _ _ Hm Hne) as Hsel.
    split; [done|]. rewrite <- Hsel. by apply classSelector_included.
  - intros Hm. pose proof (classSelector_fallback _ _ Hm) as Hsel.
    split; [done|]. rewrite <- Hsel. by apply classSelector_included.
  - by vm_compute.
  - intros Hne.
    rewrite <- (classSelector_fallback key partialMap).
    + by apply classSelector_included.
    + left. unfold partialMap. by rewrite lookup_singleton_ne.
Qed.

Lemma C7_selector_fallback_for_written_keys_witness :
  "timelineMessage"%string ∈ synthKeys ∧
  "timelineMessage"%string ≠ "message"%string ∧
  includes (fallbackSelector "timelineMessage") (generateRtlCss partialMap)
    = true.
Proof.
  split; [apply (bool_decide_unpack _); vm_compute; exact I|].
  split; [discriminate|].
  apply (C7_selector_fallback_for_written_keys partialMap "timelineMessage").
  - apply (bool_decide_unpack _). vm_compute. exact I.
  - discriminate.
Defined.

(** C7 fails as stated: [chatContainer] is one of the semantic keys, but
    the fragment for the mapping that holds only [message] has no
    attribute selector for it, and a mapping that has a hash for it gets no
    exact selector either. *)
Lemma C7_counterexample :
  "chatContainer"%string ∈ patterns ∧
  partialMap !! "chatContainer"%string = None ∧
  includes (fallbackSelector "chatContainer") (generateRtlCss partialMap)
    = false ∧
  includes (exactSelector "chatContainer" (lit "Q1"))
    (generateRtlCss (<["chatContainer"%string := lit "Q1"]> partialMap))
    = false.
Proof.
  split; [apply (bool_decide_unpack _); by vm_compute|].
  split; [by vm_compute|]. split; by vm_compute.
Qed.

(** C9, as the code has it: an occurrence of [.key_hash] whose hash ends
    the text, or is followed by a unit outside the boundary class, is not
    matched with that hash, and not matched at all when the hash is a
    maximal alphanumeric run; a text whose only [.message_hash] occurrence
    ends it yields no [message] entry; and [applyPatch] fails with the
    unrecognized-format error, leaving the file system as it was, on a file
    whose working copy is such a text, which is the content itself when the
    file does not hold both markers. *)
Theorem C9_undelimited_hash_unresolved
    (key : string) (pre hash rest : str)
    (fs : gmap string str) (path : string) (content : str) :
  Forall (λ u, isAlnum u = true) hash →
  (lookahead rest = false →
   matchAt key (drop (length pre) (pre ++ classPrefix key ++ hash ++ rest))
     ≠ Some hash) ∧
  (lookahead rest = false →
   match rest with [] => True | u :: _ => isAlnum u = false end →
   matchAt key (drop (length pre) (pre ++ classPrefix key ++ hash ++ rest))
     = None) ∧
  (includes (classPrefix "message") pre = false →
   extractClassMap (pre ++ classPrefix "message" ++ hash) !! "message"%string
     = None) ∧
  (fs !! path = Some content →
   workingCopy content = pre ++ classPrefix "message" ++ hash →
   includes (classPrefix "message") pre = false →
   applyPatch path fs = (ApplyFailure unrecognizedFormatError, fs)) ∧
  (fs !! path = Some content →
   includes PATCH_START content && includes PATCH_END content = false →
   content = pre ++ classPrefix "message" ++ hash →
   includes (classPrefix "message") pre = false →
   applyPatch path fs = (ApplyFailure unrecognizedFormatError, fs)).
Proof.
  intros Hal.
  assert (∀ p, includes (classPrefix "message") p = false →
               extractClassMap (p ++ classPrefix "message" ++ hash)
                 !! "message"%string = None) as Hend.
  { intros p Hp. apply includes_false in Hp.
    rewrite extractClassMap_lookup.
    rewrite decide_True by (apply (bool_decide_unpack _); by vm_compute).
    apply exec_trailing; [|done..].
    apply (bool_decide_unpack _). by vm_compute. }
  rewrite drop_app_length, matchAt_occurrence.
  split; [|split; [|split; [|split]]].
  - intros Hla Hm. apply matchHash_capture_boundary in Hm. congruence.
  - intros Hla Hmax. apply matchHash_unresolved; [done|].
    destruct rest as [|u r]; [done|]. by split.
  - apply Hend.
  - intros Hf Hw Hpre. apply (applyPatch_unrecognized _ _ _ Hf).
    rewrite Hw. by apply Hend.
  - intros Hf Hmark -> Hpre. apply (applyPatch_unrecognized _ _ _ Hf).
    rewrite workingCopy_incomplete by done. by apply Hend.
Qed.

Lemma C9_undelimited_hash_unresolved_witness :
  Forall (λ u, isAlnum u = true) (lit "Abc123") ∧
  ({[ cssPath := trailingCss ]} : gmap string str)
    !! cssPath = Some (trailingCss) ∧
  includes PATCH_START (trailingCss)
    && includes PATCH_END (trailingCss) = false ∧
  trailingCss
    = lit "body{margin:0} " ++ classPrefix "message" ++ lit "Abc123" ∧
  includes (classPrefix "message") (lit "body{margin:0} ") = false ∧
  applyPatch cssPath {[ cssPath := trailingCss ]}
  = (ApplyFailure unrecognizedFormatError,
     {[ cssPath := trailingCss ]}).
Proof.
  split; [apply (bool_decide_unpack _); vm_compute; exact I|].
  split; [vm_compute; reflexivity|]. split; [vm_compute; reflexivity|].
  split; [vm_compute; reflexivity|]. split; [vm_compute; reflexivity|].
  apply (C9_undelimited_hash_unresolved
           "message" (lit "body{margin:0} ") (lit "Abc123") []
           {[ cssPath := trailingCss ]} cssPath
           (trailingCss)).
  - apply (bool_decide_unpack _). vm_compute. exact I.
  - vm_compute. reflexivity.
  - vm_compute. reflexivity.
  - vm_compute. reflexivity.
  - vm_compute. reflexivity.
Defined.

(** C9 fails as stated: in a file where an empty fragment splits a class
    name, the only [.message_hash] occurrence ends the file and
    [extractClassMap] finds no [message] entry in the content, yet
    [applyPatch] excises the fragment first, resolves [message] in what is
    left and succeeds. *)
Lemma C9_counterexample :
  splitCss
  = (lit ".mess" ++ PATCH_START ++ PATCH_END ++ lit "age_Q{} ")
    ++ classPrefix "message" ++ lit "Abc123" ∧
  includes (classPrefix "message")
    (lit ".mess" ++ PATCH_START ++ PATCH_END ++ lit "age_Q{} ") = false ∧
  extractClassMap splitCss !! "message"%string = None ∧
  extractClassMap (workingCopy splitCss) !! "message"%string = Some (lit "Q") ∧
  applySucceeded (applyPatch cssPath {[ cssPath := splitCss ]}).1 = true.
Proof.
  split; [by vm_compute|]. split; [by vm_compute|]. split; [by vm_compute|].
  split; by vm_compute.
Qed.

(** C10: for an existing file without a backup whose content holds the
    start marker but not the end marker, [revertPatch] reports success
    with the method [strip], writes the content back as it was, so that the
    file system is unchanged and the start marker is still in the file, and
    [checkPatch] still answers that the file is patched. *)
Theorem C10_strip_without_end_marker
    (fs : gmap string str) (path : string) (content : str) :
  fs !! path = Some content →
  fs !! backupPathOf path = None →
  includes PATCH_START content = true →
  includes PATCH_END content = false →
  revertPatch path fs = (RevertSuccess "strip", <[path := content]> fs) ∧
  (revertPatch path fs).2 = fs ∧
  (revertPatch path fs).2 !! path = Some content ∧
  checkPatch path (revertPatch path fs).2 = true.
Proof.
  intros Hf Hb Hs He.
  assert (removePatchContent content = content) as Hr.
  { unfold removePatchContent. apply includes_false in He. rewrite He.
    by destruct (indexOf PATCH_START content). }
  assert (revertPatch path fs = (RevertSuccess "strip", <[path := content]> fs))
    as Hrev.
  { unfold revertPatch. by rewrite Hf, Hb, Hs, Hr. }
  rewrite Hrev. cbn [snd]. rewrite (insert_id fs path content Hf).
  split; [done|]. split; [done|]. split; [done|].
  unfold checkPatch. by rewrite Hf.
Qed.

Lemma C10_strip_without_end_marker_witness :
  ({[ cssPath := orphanCss ]} : gmap string str) !! cssPath = Some orphanCss ∧
  ({[ cssPath := orphanCss ]} : gmap string str) !! backupPathOf cssPath = None ∧
  includes PATCH_START orphanCss = true ∧
  includes PATCH_END orphanCss = false ∧
  checkPatch cssPath (revertPatch cssPath {[ cssPath := orphanCss ]}).2 = true.
Proof.
  split; [vm_compute; reflexivity|]. split; [vm_compute; reflexivity|].
  split; [vm_compute; reflexivity|]. split; [vm_compute; reflexivity|].
  apply (C10_strip_without_end_marker {[ cssPath := orphanCss ]} cssPath orphanCss).
  - vm_compute. reflexivity.
  - vm_compute. reflexivity.
  - vm_compute. reflexivity.
  - vm_compute. reflexivity.
Defined.

(** ** Further properties of the lifecycle operations *)

Section LifecycleFacts.

Implicit Types (fs : gmap string str) (path : string) (content : str).

Lemma applyPatch_cases fs path :
  (fs !! path = None ∧
   applyPatch path fs = (ApplyFailure (notFoundError path), fs)) ∨
  (∃ content, fs !! path = Some content ∧
     extractClassMap (workingCopy content) !! "message"%string = None ∧
     applyPatch path fs = (ApplyFailure unrecognizedFormatError, fs)) ∨
  (∃ content, fs !! path = Some content ∧
     is_Some (extractClassMap (workingCopy content) !! "message"%string) ∧
     applyPatch path fs =
       (ApplySuccess (extractClassMap (workingCopy content)) (backupPathOf path),
        <[path := workingCopy content ++ LF ::
                    generateRtlCss (extractClassMap (workingCopy content))]>
          (match fs !! backupPathOf path with
           | None => <[backupPathOf path := workingCopy content]> fs
           | Some _ => fs
           end))).
Proof.
  destruct (fs !! path) as [content|] eqn:Hf.
  - destruct (extractClassMap (workingCopy content) !! "message"%string)
      as [h|] eqn:Hm.
    + right. right. exists content. split; [done|]. split; [by eexists|].
      apply (applyPatch_recognized _ _ _ Hf). rewrite Hm. by eexists.
    + right. left. exists content. split; [done|]. split; [done|].
      by apply (applyPatch_unrecognized _ _ _ Hf).
  - left. split; [done|]. unfold applyPatch. by rewrite Hf.
Qed.

Lemma unrecognizedFormatError_not_notFound path :
  unrecognizedFormatError ≠ notFoundError path.
Proof. done. Qed.

End LifecycleFacts.

Section RepeatedBackup.

Implicit Types (fs : gmap string str) (path : string) (content : str).

(** After the first successful call the file system is the original one
    with the backup added and the target rewritten; later calls rewrite
    the target only. *)
Lemma applyTimes_backup_shape n fs fs' path content :
  fs !! path = Some content →
  fs !! backupPathOf path = None →
  applyTimes (S n) path fs = Some fs' →
  ∃ patched,
    fs' = <[path := patched]>
            (<[backupPathOf path := workingCopy content]> fs).
Proof.
  intros Hf Hb Happ. apply applyTimes_succ in Happ as [Hok Happ].
  pose proof (applyPatch_succeeded _ _ _ Hf Hok) as Hm.
  rewrite (applyPatch_recognized _ _ _ Hf Hm), Hb in Happ. cbn [snd] in Happ.
  set (W := workingCopy content) in *.
  set (base := <[backupPathOf path := W]> fs) in *.
  clear Hok Hm. generalize dependent (W ++ LF :: generateRtlCss (extractClassMap W)).
  induction n as [|n IH]; intros patched Happ.
  - injection Happ as <-. by exists patched.
  - apply applyTimes_succ in Happ as [Hok Happ].
    assert (<[path:=patched]> base !! path = Some patched) as Hf1
      by apply lookup_insert_eq.
    pose proof (applyPatch_succeeded _ _ _ Hf1 Hok) as Hm.
    rewrite (applyPatch_recognized _ _ _ Hf1 Hm) in Happ. cbn [snd] in Happ.
    rewrite lookup_insert_ne in Happ by apply not_eq_sym, backupPathOf_fresh.
    unfold base in Happ at 1. rewrite lookup_insert_eq in Happ.
    rewrite insert_insert_eq in Happ. by apply IH in Happ.
Qed.

End RepeatedBackup.

(** ** Further properties *)

(** X1: a call of [applyPatch] that fails leaves every file as it was, and
    it fails either with the not-found message, exactly when the target
    does not exist, or with the unrecognized-format message, exactly when
    the working copy of the target has no [message] entry. *)
Theorem X1_apply_failure_leaves_files
    (fs fs' : gmap string str) (path e : string) :
  applyPatch path fs = (ApplyFailure e, fs') →
  fs' = fs ∧
  ((e = notFoundError path ∧ fs !! path = None) ∨
   (e = unrecognizedFormatError ∧
    ∃ content, fs !! path = Some content ∧
      extractClassMap (workingCopy content) !! "message"%string = None)).
Proof.
  intros H.
  destruct (applyPatch_cases fs path)
    as [[Hf Ha]|[(content & Hf & Hm & Ha)|(content & Hf & Hm & Ha)]];
    rewrite Ha in H; [| |done].
  - injection H as <- <-. split; [done|]. by left.
  - injection H as <- <-. split; [done|]. right. split; [done|]. by exists content.
Qed.

Lemma X1_apply_failure_leaves_files_witness :
  applyPatch cssPath ∅ = (ApplyFailure (notFoundError cssPath), ∅) ∧
  (∅ : gmap string str) = ∅.
Proof.
  split; [vm_compute; reflexivity|].
  apply (X1_apply_failure_leaves_files ∅ ∅ cssPath (notFoundError cssPath)).
  vm_compute. reflexivity.
Defined.

(** X2: a call of [applyPatch] that succeeds found the target, resolved a
    non-empty [message] hash in its working copy, and leaves in the target
    the working copy, one line feed and the fragment synthesized from the
    returned mapping; the returned backup path is the target's path with
    [.rtl-backup] appended, and [checkPatch] answers true afterwards. *)
Theorem X2_apply_success_postcondition
    (fs fs' : gmap string str) (path bk : string) (m : gmap string str) :
  applyPatch path fs = (ApplySuccess m bk, fs') →
  ∃ content h,
    fs !! path = Some content ∧
    m = extractClassMap (workingCopy content) ∧
    m !! "message"%string = Some h ∧ h ≠ [] ∧
    bk = backupPathOf path ∧
    fs' !! path = Some (workingCopy content ++ LF :: generateRtlCss m) ∧
    includes (exactSelector "message" h) (generateRtlCss m) = true ∧
    checkPatch path fs' = true.
Proof.
  intros H.
  destruct (applyPatch_cases fs path)
    as [[Hf Ha]|[(content & Hf & Hm & Ha)|(content & Hf & [h Hm] & Ha)]];
    rewrite Ha in H; [done|done|].
  injection H as <- <- <-. exists content, h.
  pose proof (extractClassMap_alnum _ _ _ Hm) as [Hne _].
  split; [done|]. split; [done|]. split; [done|]. split; [done|].
  split; [done|]. split; [apply lookup_insert_eq|]. split.
  - rewrite <- (classSelector_exact _ _ _ Hm Hne).
    apply classSelector_included. apply (bool_decide_unpack _). by vm_compute.
  - unfold checkPatch. rewrite lookup_insert_eq.
    apply includes_START_appended.
Qed.

Lemma X2_apply_success_postcondition_witness :
  checkPatch cssPath (applyPatch cssPath sampleFs).2 = true.
Proof.
  destruct (X2_apply_success_postcondition sampleFs
              (applyPatch cssPath sampleFs).2 cssPath (backupPathOf cssPath)
              (extractClassMap SAMPLE_CSS))
    as (content & h & _ & _ & _ & _ & _ & _ & _ & Hc).
  - vm_compute. reflexivity.
  - exact Hc.
Defined.

(** X3: a successful [applyPatch] never overwrites a backup: a backup that
    exists is kept as it is, and when none exists the one written holds the
    working copy of the target, which is the target's content itself when
    that holds no start marker. *)
Theorem X3_backup_written_once
    (fs fs' : gmap string str) (path bk : string) (m : gmap string str) :
  applyPatch path fs = (ApplySuccess m bk, fs') →
  (∀ b, fs !! backupPathOf path = Some b →
        fs' !! backupPathOf path = Some b) ∧
  (fs !! backupPathOf path = None →
   ∃ content, fs !! path = Some content ∧
     fs' !! backupPathOf path = Some (workingCopy content) ∧
     (includes PATCH_START content = false →
      fs' !! backupPathOf path = Some content)).
Proof.
  intros H. pose proof (backupPathOf_fresh path) as Hne.
  destruct (applyPatch_cases fs path)
    as [[Hf Ha]|[(content & Hf & Hm & Ha)|(content & Hf & Hm & Ha)]];
    rewrite Ha in H; [done|done|].
  injection H as <- <- <-. split.
  - intros b Hb. rewrite Hb. by rewrite lookup_insert_ne.
  - intros Hb. exists content. split; [done|]. rewrite Hb.
    rewrite lookup_insert_ne, lookup_insert_eq by done. split; [done|].
    intros Hs. by rewrite workingCopy_unpatched.
Qed.

Lemma X3_backup_written_once_witness :
  (applyPatch cssPath sampleFs).2 !! backupPathOf cssPath = Some SAMPLE_CSS.
Proof.
  destruct (X3_backup_written_once sampleFs (applyPatch cssPath sampleFs).2
              cssPath (backupPathOf cssPath) (extractClassMap SAMPLE_CSS))
    as [_ Hnew].
  - vm_compute. reflexivity.
  - destruct Hnew as (content & Hf & _ & Hc); [vm_compute; reflexivity|].
    assert (content = SAMPLE_CSS) as ->
      by (vm_compute in Hf; injection Hf as <-; vm_compute; reflexivity).
    apply Hc. vm_compute. reflexivity.
Defined.

(** X4: after any number [n >= 1] of consecutive successful calls of
    [applyPatch] on a target that had no backup, [revertPatch] reports the
    method [backup] and gives back the file system of before the first
    call, with the working copy of the original content in the target: the
    original file system exactly when the content did not hold both
    markers. *)
Theorem X4_revert_after_repeated_apply
    (n : nat) (fs fs' : gmap string str) (path : string) (content : str) :
  fs !! path = Some content →
  fs !! backupPathOf path = None →
  1 ≤ n →
  applyTimes n path fs = Some fs' →
  revertPatch path fs'
    = (RevertSuccess "backup", <[path := workingCopy content]> fs) ∧
  (includes PATCH_START content && includes PATCH_END content = false →
   revertPatch path fs' = (RevertSuccess "backup", fs)).
Proof.
  intros Hf Hb Hn Happ. destruct n as [|n]; [lia|].
  destruct (applyTimes_backup_shape _ _ _ _ _ Hf Hb Happ) as [patched ->].
  pose proof (backupPathOf_fresh path) as Hne.
  assert (revertPatch path
            (<[path:=patched]> (<[backupPathOf path:=workingCopy content]> fs))
          = (RevertSuccess "backup", <[path := workingCopy content]> fs)) as Hr.
  { unfold revertPatch. rewrite lookup_insert_eq.
    rewrite lookup_insert_ne, lookup_insert_eq by done. f_equal.
    rewrite insert_insert_eq, delete_insert_ne by done.
    rewrite delete_insert_eq. by rewrite delete_id. }
  split; [done|]. intros Hs. rewrite Hr. f_equal.
  rewrite workingCopy_incomplete by done. by apply insert_id.
Qed.

Lemma X4_revert_after_repeated_apply_witness :
  ({[ cssPath := newlineCss ]} : gmap string str) !! cssPath = Some newlineCss ∧
  ({[ cssPath := newlineCss ]} : gmap string str) !! backupPathOf cssPath = None ∧
  1 ≤ 3 ∧
  revertPatch cssPath <$> applyTimes 3 cssPath {[ cssPath := newlineCss ]}
  = Some (RevertSuccess "backup", {[ cssPath := newlineCss ]}).
Proof.
  split; [vm_compute; reflexivity|]. split; [vm_compute; reflexivity|].
  split; [lia|].
  assert (is_Some (applyTimes 3 cssPath {[ cssPath := newlineCss ]})) as [fs' E]
    by (apply (bool_decide_unpack _); vm_compute; exact I).
  rewrite E. cbn [fmap option_fmap option_map]. f_equal.
  apply (X4_revert_after_repeated_apply 3 {[ cssPath := newlineCss ]} fs'
           cssPath newlineCss).
  - vm_compute. reflexivity.
  - vm_compute. reflexivity.
  - lia.
  - exact E.
  - vm_compute. reflexivity.
Defined.

(** X5: [applyPatch] and [revertPatch] on a target touch no file other
    than the target and its backup. *)
Theorem X5_only_target_and_backup_change
    (fs : gmap string str) (path other : string) :
  other ≠ path →
  other ≠ backupPathOf path →
  (applyPatch path fs).2 !! other = fs !! other ∧
  (revertPatch path fs).2 !! other = fs !! other.
Proof.
  intros Hp Hb. split.
  - destruct (applyPatch_cases fs path)
      as [[Hf Ha]|[(content & Hf & Hm & Ha)|(content & Hf & Hm & Ha)]];
      rewrite Ha; cbn [snd]; [done|done|].
    rewrite lookup_insert_ne by done.
    destruct (fs !! backupPathOf path); [done|]. by rewrite lookup_insert_ne.
  - unfold revertPatch. destruct (fs !! path) as [content|]; [|done].
    destruct (fs !! backupPathOf path) as [original|]; cbn [snd].
    + rewrite lookup_delete_ne by done. by rewrite lookup_insert_ne.
    + destruct (includes PATCH_START content); cbn [snd]; [|done].
      by rewrite lookup_insert_ne.
Qed.

Lemma X5_only_target_and_backup_change_witness :
  "other.css"%string ≠ cssPath ∧
  "other.css"%string ≠ backupPathOf cssPath ∧
  (applyPatch cssPath (<["other.css"%string := unrecognizedCss]> sampleFs)).2
    !! "other.css"%string = Some unrecognizedCss.
Proof.
  split; [discriminate|]. split; [discriminate|].
  destruct (X5_only_target_and_backup_change
              (<["other.css"%string := unrecognizedCss]> sampleFs)
              cssPath "other.css") as [Ha _].
  - discriminate.
  - discriminate.
  - rewrite Ha. vm_compute. reflexivity.
Defined.

(** X6: the outcomes of [revertPatch].  A failure leaves every file as it
    was and carries the not-found message exactly when the target does not
    exist, the nothing-to-revert message exactly when the target exists
    without a backup and without a start marker.  A success never leaves a
    backup behind; it reports [backup] when a backup existed, whose content
    is then in the target, and [strip] when there was none and the target
    held the start marker, the target then holding the result of
    [removePatchContent]. *)
Theorem X6_revert_outcomes
    (fs fs' : gmap string str) (path : string) (r : revertResult) :
  revertPatch path fs = (r, fs') →
  match r with
  | RevertFailure e =>
      fs' = fs ∧
      ((e = notFoundError path ∧ fs !! path = None) ∨
       (e = nothingToRevertError ∧ is_Some (fs !! path) ∧
        fs !! backupPathOf path = None ∧ checkPatch path fs = false))
  | RevertSuccess method =>
      is_Some (fs !! path) ∧
      fs' !! backupPathOf path = None ∧
      ((method = "backup"%string ∧ is_Some (fs !! backupPathOf path) ∧
        fs' !! path = fs !! backupPathOf path) ∨
       (method = "strip"%string ∧ fs !! backupPathOf path = None ∧
        checkPatch path fs = true ∧
        fs' !! path = removePatchContent <$> fs !! path))
  end.
Proof.
  pose proof (backupPathOf_fresh path) as Hne.
  unfold revertPatch, checkPatch.
  destruct (fs !! path) as [content|] eqn:Hf.
  - destruct (fs !! backupPathOf path) as [original|] eqn:Hb.
    + intros [= <- <-]. split; [by eexists|]. split; [apply lookup_delete_eq|].
      left. split; [done|]. split; [by eexists|].
      rewrite lookup_delete_ne by done. apply lookup_insert_eq.
    + destruct (includes PATCH_START content) eqn:Hs.
      * intros [= <- <-]. split; [by eexists|].
        split; [by rewrite lookup_insert_ne|].
        right. split; [done|]. split; [done|]. split; [done|].
        apply lookup_insert_eq.
      * intros [= <- <-]. split; [done|]. right.
        split; [done|]. split; [by eexists|]. done.
  - intros [= <- <-]. split; [done|]. by left.
Qed.

Lemma X6_revert_outcomes_witness :
  revertPatch cssPath sampleFs = (RevertFailure nothingToRevertError, sampleFs) ∧
  checkPatch cssPath sampleFs = false.
Proof.
  split; [vm_compute; reflexivity|].
  destruct (X6_revert_outcomes sampleFs sampleFs cssPath
              (RevertFailure nothingToRevertError)) as [_ [[He _]|(_ & _ & _ & Hc)]].
  - vm_compute. reflexivity.
  - discriminate He.
  - exact Hc.
Defined.

(** X7: on a target without a backup that holds a marker-free text, one
    line feed and a synthesized fragment, [revertPatch] reports [strip] and
    leaves the text without its trailing line feeds in the target; neither
    marker is left, [checkPatch] answers false, and a second [revertPatch]
    fails with the nothing-to-revert message. *)
Theorem X7_strip_removes_fragment
    (fs : gmap string str) (path : string) (D : str) (m : gmap string str) :
  fs !! path = Some (D ++ LF :: generateRtlCss m) →
  fs !! backupPathOf path = None →
  markerFree D →
  alnumValues m →
  revertPatch path fs
    = (RevertSuccess "strip", <[path := replaceTrailingNewlines D]> fs) ∧
  markerFree (replaceTrailingNewlines D) ∧
  checkPatch path (revertPatch path fs).2 = false ∧
  revertPatch path (revertPatch path fs).2
    = (RevertFailure nothingToRevertError, (revertPatch path fs).2).
Proof.
  intros Hf Hb Hfree Hm. pose proof (backupPathOf_fresh path) as Hne.
  pose proof (markerFree_trim _ Hfree) as Htrim.
  assert (revertPatch path fs
          = (RevertSuccess "strip", <[path := replaceTrailingNewlines D]> fs))
    as Hr.
  { unfold revertPatch. rewrite Hf, Hb, includes_START_appended.
    rewrite removePatchContent_appended;
      [done|done|by apply includes_false, Hfree..]. }
  rewrite Hr. cbn [snd]. split; [done|]. split; [done|].
  unfold checkPatch, revertPatch. rewrite lookup_insert_eq.
  rewrite lookup_insert_ne, Hb by done. by rewrite (proj1 Htrim).
Qed.

Lemma X7_strip_removes_fragment_witness :
  revertPatch cssPath {[ cssPath := patchedCss ]}
  = (RevertSuccess "strip", {[ cssPath := sampleCss ]}).
Proof.
  destruct (X7_strip_removes_fragment {[ cssPath := patchedCss ]} cssPath
              sampleCss (extractClassMap sampleCss)) as [Hr _].
  - vm_compute. reflexivity.
  - vm_compute. reflexivity.
  - split; vm_compute; reflexivity.
  - apply extractClassMap_alnumValues.
  - rewrite Hr. vm_compute. reflexivity.
Defined.

(** ** The fragment's markers and what excision keeps *)

Section FragmentShape.

Implicit Types (m : gmap string str) (D E : str).

Lemma countOccurrences_END_fragment m :
  alnumValues m → countOccurrences PATCH_END (generateRtlCss m) = 1.
Proof.
  intros Hm. rewrite generateRtlCss_shape.
  rewrite countOccurrences_sep;
    [|apply PATCH_END_no_LF|apply PATCH_END_nonempty].
  rewrite countOccurrences_terminated;
    [|apply PATCH_END_no_LF|apply PATCH_END_nonempty|by apply rtlBody_no_END].
  by vm_compute.
Qed.

Lemma startsWith_includes (p s : str) j :
  startsWith p (drop j s) = true → includes p s = true.
Proof.
  intros H. destruct (includes p s) eqn:E; [done|].
  apply includes_false in E. by rewrite (indexOf_None_drop _ _ j E) in H.
Qed.

Lemma removePatchContent_fragment_then D m E :
  alnumValues m → markerFree D →
  removePatchContent (D ++ LF :: generateRtlCss m ++ E) =
    replaceTrailingNewlines D ++ E.
Proof.
  intros Hm [HS HE]. apply includes_false in HS, HE.
  unfold removePatchContent.
  rewrite indexOf_skip;
    [|apply PATCH_START_no_LF|apply PATCH_START_nonempty|done].
  rewrite indexOf_skip;
    [|apply PATCH_END_no_LF|apply PATCH_END_nonempty|done].
  rewrite generateRtlCss_shape.
  replace ((PATCH_START ++ LF :: terminated LF (rtlBody m) ++ PATCH_END) ++ E)
    with (PATCH_START ++ LF :: terminated LF (rtlBody m) ++ PATCH_END ++ E)
    by (rewrite <- !app_assoc; simpl; by rewrite <- !app_assoc).
  rewrite indexOf_here.
  rewrite indexOf_skip;
    [|apply PATCH_END_no_LF|apply PATCH_END_nonempty|by vm_compute].
  rewrite indexOf_terminated;
    [|apply PATCH_END_no_LF|apply PATCH_END_nonempty|by apply rtlBody_no_END].
  rewrite indexOf_here. cbn [fmap option_fmap option_map]. cbv zeta.
  unfold substring, substringFrom. rewrite Nat.sub_0_r, drop_0.
  rewrite Nat.add_0_r.
  replace (D ++ LF :: PATCH_START ++ LF :: terminated LF (rtlBody m)
             ++ PATCH_END ++ E)
    with ((D ++ [LF]) ++ PATCH_START ++ LF :: terminated LF (rtlBody m)
             ++ PATCH_END ++ E) by by rewrite <- app_assoc.
  rewrite take_app_length' by (rewrite length_app; simpl; lia).
  rewrite replaceTrailingNewlines_snoc. f_equal.
  replace ((D ++ [LF]) ++ PATCH_START ++ LF :: terminated LF (rtlBody m)
             ++ PATCH_END ++ E)
    with (((D ++ [LF]) ++ PATCH_START ++ LF :: terminated LF (rtlBody m)
             ++ PATCH_END) ++ E).
  - apply drop_app_length'. rewrite !length_app. cbn [length].
    rewrite !length_app. lia.
  - rewrite <- !app_assoc. f_equal. f_equal. simpl. by rewrite <- !app_assoc.
Qed.

End FragmentShape.

(** X8: the fragment synthesized from alphanumeric hashes is
    self-delimiting: it begins with the start marker, ends with the end
    marker, and holds exactly one occurrence of each. *)
Theorem X8_fragment_self_delimiting (m : gmap string str) :
  alnumValues m →
  (∃ body, generateRtlCss m = PATCH_START ++ LF :: body ++ PATCH_END) ∧
  countOccurrences PATCH_START (generateRtlCss m) = 1 ∧
  countOccurrences PATCH_END (generateRtlCss m) = 1 ∧
  indexOf PATCH_START (generateRtlCss m) = Some 0 ∧
  indexOf PATCH_END (generateRtlCss m)
    = Some (length (generateRtlCss m) - length PATCH_END).
Proof.
  intros Hm. split; [eexists; apply generateRtlCss_shape|].
  split; [by apply countOccurrences_START_fragment|].
  split; [by apply countOccurrences_END_fragment|].
  split; [apply indexOf_START_fragment|].
  rewrite indexOf_END_fragment, length_generateRtlCss by done. f_equal. lia.
Qed.

Lemma X8_fragment_self_delimiting_witness :
  countOccurrences PATCH_END (generateRtlCss (extractClassMap SAMPLE_CSS)) = 1.
Proof.
  apply (X8_fragment_self_delimiting (extractClassMap SAMPLE_CSS)).
  apply extractClassMap_alnumValues.
Defined.

(** X9: excision cuts exactly the fragment and the line feeds before it:
    from a marker-free text, a line feed, a fragment synthesized from
    alphanumeric hashes and any text after it, [removePatchContent] gives
    the first text without its trailing line feeds followed by the last
    text unchanged. *)
Theorem X9_excision_keeps_what_follows
    (D E : str) (m : gmap string str) :
  alnumValues m →
  markerFree D →
  removePatchContent (D ++ LF :: generateRtlCss m ++ E)
  = replaceTrailingNewlines D ++ E.
Proof. apply removePatchContent_fragment_then. Qed.

Lemma X9_excision_keeps_what_follows_witness :
  removePatchContent
    (sampleCss ++ LF :: generateRtlCss partialMap ++ lit ".later{}")
  = sampleCss ++ lit ".later{}".
Proof.
  rewrite (X9_excision_keeps_what_follows sampleCss (lit ".later{}") partialMap).
  - vm_compute. reflexivity.
  - intros key h Hk. apply (bool_decide_unpack _).
    unfold partialMap in Hk.
    apply lookup_singleton_Some in Hk as [_ <-]. vm_compute. exact I.
  - split; vm_compute; reflexivity.
Defined.

(** X10: when the first end marker lies wholly before the first start
    marker, [removePatchContent] removes no marker text after it: the
    start marker is still in the result. *)
Theorem X10_reversed_markers_keep_start
    (content : str) (startIdx endIdx : nat) :
  indexOf PATCH_START content = Some startIdx →
  indexOf PATCH_END content = Some endIdx →
  endIdx + length PATCH_END ≤ startIdx →
  includes PATCH_START (removePatchContent content) = true.
Proof.
  intros Hs He Hle. unfold removePatchContent. rewrite Hs, He. cbv zeta.
  apply includes_app_r. unfold substringFrom.
  apply indexOf_Some_drop in Hs as [Hsw _].
  apply (startsWith_includes _ _ (startIdx - (endIdx + length PATCH_END))).
  rewrite drop_drop.
  by replace (endIdx + length PATCH_END
              + (startIdx - (endIdx + length PATCH_END))) with startIdx by lia.
Qed.

Lemma X10_reversed_markers_keep_start_witness :
  includes PATCH_START
    (removePatchContent (PATCH_END ++ lit " .message_Abc123{} " ++ PATCH_START))
  = true.
Proof.
  apply (X10_reversed_markers_keep_start
           (PATCH_END ++ lit " .message_Abc123{} " ++ PATCH_START) 48 0).
  - vm_compute. reflexivity.
  - vm_compute. reflexivity.
  - vm_compute. lia.
Defined.

(** ** Resolution and appended text *)

Section ResolverAppend.

Implicit Types (s e h : str) (key : string).

Lemma matchAt_app key s e h :
  matchAt key s = Some h → matchAt key (s ++ e) = Some h.
Proof.
  rewrite !matchAt_delimited.
  intros (pre & b & rest & -> & Hpre & Hne & Hal & Hb).
  exists pre, b, (rest ++ e). split; [|done].
  by rewrite <- !app_assoc, <- app_comm_cons.
Qed.

(** A position at which the pattern fails, with a later match in the text,
    still fails when text is appended: the run it would need ends before
    the full stop of the later match. *)
Lemma matchAt_app_None key s e :
  46%N ∉ lit key →
  matchAt key s = None →
  is_Some (exec key (drop 1 s)) →
  matchAt key (s ++ e) = None.
Proof.
  intros Hkey Hnone [h Hex].
  destruct (matchAt key (s ++ e)) as [h'|] eqn:Hm; [exfalso|done].
  apply matchAt_delimited in Hm as (pre & b & rest & Heq & Hpre & Hne & Hal & Hb).
  apply nil_length_inv in Hpre as ->. rewrite app_nil_l in Heq.
  apply exec_Some in Hex as (i & Hi & Hmi & _).
  apply matchAt_delimited in Hmi as (pre2 & b2 & rest2 & Hd & Hpre2 & _).
  apply nil_length_inv in Hpre2 as ->. rewrite app_nil_l in Hd.
  rewrite drop_drop in Hd.
  assert (s = take (1 + i) s ++ classPrefix key ++ h ++ b2 :: rest2) as Hs.
  { rewrite <- Hd. by rewrite take_drop. }
  assert (length (take (1 + i) s) = 1 + i) as Hlen.
  { rewrite length_take. apply Nat.min_l.
    apply (f_equal length) in Hd. rewrite length_drop in Hd.
    rewrite !length_app in Hd. cbn [length] in Hd. lia. }
  destruct (take (1 + i) s) as [|a0 a'] eqn:Ha; [simpl in Hlen; lia|].
  set (X' := lit key ++ lit "_" ++ h') in *.
  assert (46%N ∉ X') as HX.
  { unfold X'. rewrite !not_elem_of_app. split; [done|]. split.
    - apply (bool_decide_unpack _). by vm_compute.
    - intros Hin. rewrite Forall_forall in Hal. specialize (Hal _ Hin).
      by vm_compute in Hal. }
  set (tail := lit key ++ lit "_" ++ h ++ b2 :: rest2) in *.
  assert (classPrefix key ++ h ++ b2 :: rest2 = 46%N :: tail) as Htail.
  { unfold tail, classPrefix. by rewrite <- !app_assoc. }
  assert (∀ r, classPrefix key ++ h' ++ b :: r = 46%N :: X' ++ b :: r) as HP.
  { intros r. unfold X', classPrefix. by rewrite <- !app_assoc. }
  rewrite Htail in Hs. rewrite Hs, HP in Heq.
  rewrite <- !app_comm_cons in Heq. injection Heq as -> Heq.
  rewrite <- app_assoc in Heq.
  assert (∃ rest', a' ++ 46%N :: tail = X' ++ b :: rest') as [rest' Hcut].
  { apply app_eq_inv in Heq as [(k & Hk1 & Hk2)|(k & Hk1 & Hk2)].
    - destruct k as [|x k].
      + rewrite app_nil_r in Hk1. rewrite app_nil_l in Hk2.
        injection Hk2 as <- Hrest. exists tail. by rewrite Hk1.
      + injection Hk2 as <- Hrest. exists (k ++ 46%N :: tail).
        rewrite Hk1. by rewrite <- app_assoc.
    - destruct k as [|x k].
      + rewrite app_nil_r in Hk1. rewrite app_nil_l in Hk2.
        injection Hk2 as <- Hrest. exists tail. by rewrite Hk1.
      + exfalso. cbn in Hk2. injection Hk2 as <- _.
        apply HX. rewrite Hk1. apply elem_of_app. right. left. }
  assert (matchAt key s = Some h') as Hyes.
  { apply matchAt_delimited. exists [], b, rest'.
    split; [|done]. rewrite app_nil_l, HP, Hs, <- app_comm_cons.
    by rewrite Hcut. }
  congruence.
Qed.

Lemma exec_app key s e h :
  46%N ∉ lit key → exec key s = Some h → exec key (s ++ e) = Some h.
Proof.
  intros Hkey. induction s as [|c s IH]; intros H.
  - cbn [exec] in H. by rewrite matchAt_nil in H.
  - cbn [exec] in H. rewrite <- app_comm_cons. cbn [exec].
    destruct (matchAt key (c :: s)) as [h0|] eqn:Hm.
    + injection H as ->.
      by rewrite (app_comm_cons s e c), (matchAt_app _ _ _ _ Hm).
    + rewrite (app_comm_cons s e c), matchAt_app_None; [by apply IH|done..|].
      cbn [drop]. rewrite drop_0, H. by eexists.
Qed.

End ResolverAppend.

(** X11: the invariant of the class map: every entry that
    [extractClassMap] builds has one of the fourteen fixed keys and a
    non-empty alphanumeric hash (so it is truthy), and the hash follows the
    key in a boundary-delimited occurrence of the content. *)
Theorem X11_class_map_entries (css : str) (key : string) (h : str) :
  extractClassMap css !! key = Some h →
  key ∈ patterns ∧ h ≠ [] ∧ Forall (λ u, isAlnum u = true) h ∧
  truthy (extractClassMap css !! key) = true ∧
  ∃ i, delimitedAt key h i css.
Proof.
  intros H. pose proof (extractClassMap_alnum _ _ _ H) as [Hne Hal].
  assert (key ∈ patterns) as Hkey.
  { rewrite extractClassMap_lookup in H.
    by destruct (decide (key ∈ patterns)). }
  split; [done|]. split; [done|]. split; [done|]. split.
  - apply extractClassMap_truthy. rewrite H. by eexists.
  - rewrite extractClassMap_lookup, decide_True in H by done.
    apply exec_Some in H as (i & Hi & Hm & _). exists i.
    by apply delimitedAt_matchAt.
Qed.

Lemma X11_class_map_entries_witness :
  "timelineMessage"%string ∈ patterns ∧ lit "Abc123" ≠ [].
Proof.
  destruct (X11_class_map_entries sampleCss "timelineMessage" (lit "Abc123"))
    as (Hk & Hne & _).
  - vm_compute. reflexivity.
  - split; assumption.
Defined.

(** X12: appending text to a stylesheet never changes or removes a hash
    that was resolved: the class map of the longer text extends the class
    map of the shorter one.  In particular the hashes resolved in the
    working copy are those that the patched file resolves. *)
Theorem X12_appending_keeps_resolved_hashes (css extra : str) :
  extractClassMap css ⊆ extractClassMap (css ++ extra).
Proof.
  apply map_subseteq_spec. intros key h H.
  assert (key ∈ patterns) as Hkey.
  { rewrite extractClassMap_lookup in H.
    by destruct (decide (key ∈ patterns)). }
  rewrite extractClassMap_lookup, decide_True in * by done.
  apply exec_app; [by apply patterns_no_dot|done].
Qed.

(** ** The single-hash extractor *)

Section HashSuffix.

Implicit Types (s h sp rest : str) (name : string).

Lemma isSpace_boundary c : isSpace c = true → isBoundary c = true.
Proof. unfold isBoundary. by intros ->. Qed.

Lemma matchSpacesBrace_sound s :
  matchSpacesBrace s = true →
  ∃ sp rest, s = sp ++ 123%N :: rest ∧ Forall (λ c, isSpace c = true) sp.
Proof.
  induction s as [|c s IH]; [done|]. cbn [matchSpacesBrace].
  destruct (isSpace c) eqn:Hc.
  - destruct (matchSpacesBrace s) eqn:Hs.
    + intros _. destruct (IH eq_refl) as (sp & rest & -> & Hsp).
      exists (c :: sp), rest. split; [done|]. by constructor.
    + intros Hb. apply N.eqb_eq in Hb as ->. by exists [], s.
  - intros Hb. apply N.eqb_eq in Hb as ->. by exists [], s.
Qed.

Lemma matchSpacesBrace_complete sp rest :
  Forall (λ c, isSpace c = true) sp →
  matchSpacesBrace (sp ++ 123%N :: rest) = true.
Proof.
  induction 1 as [|c sp Hc Hsp IH]; [done|].
  rewrite <- app_comm_cons. cbn [matchSpacesBrace]. by rewrite Hc, IH.
Qed.

(** What follows the capture opens with a unit of the boundary class. *)
Lemma matchSpacesBrace_lookahead s :
  matchSpacesBrace s = true → lookahead s = true.
Proof.
  intros H. apply matchSpacesBrace_sound in H as (sp & rest & -> & Hsp).
  destruct Hsp as [|c sp Hc _]; [done|]. by apply isSpace_boundary.
Qed.

Lemma matchHashBrace_sound s h :
  matchHashBrace s = Some h →
  h ≠ [] ∧ Forall (λ c, isAlnum c = true) h ∧
  ∃ sp rest, s = h ++ sp ++ 123%N :: rest ∧
             Forall (λ c, isSpace c = true) sp.
Proof.
  revert h. induction s as [|c s IH]; intros h H; [done|].
  cbn [matchHashBrace] in H. destruct (isAlnum c) eqn:Hc; [|done].
  destruct (matchHashBrace s) as [h'|] eqn:Hm.
  - injection H as <-. destruct (IH h' eq_refl) as (_ & Hal & sp & rest & -> & Hsp).
    split; [done|]. split; [by constructor|]. by exists sp, rest.
  - destruct (matchSpacesBrace s) eqn:Hs; [|done]. injection H as <-.
    apply matchSpacesBrace_sound in Hs as (sp & rest & -> & Hsp).
    split; [done|]. split; [by repeat constructor|]. by exists sp, rest.
Qed.

Lemma matchHashBrace_matchHash s h :
  matchHashBrace s = Some h → matchHash s = Some h.
Proof.
  intros H. apply matchHashBrace_sound in H as (Hne & Hal & sp & rest & -> & Hsp).
  destruct Hsp as [|c sp Hc _].
  - by apply matchHash_complete.
  - rewrite <- app_comm_cons. apply matchHash_complete; [done..|].
    by apply isSpace_boundary.
Qed.

Lemma matchHashBrace_complete h sp rest :
  h ≠ [] → Forall (λ c, isAlnum c = true) h →
  Forall (λ c, isSpace c = true) sp →
  matchHashBrace (h ++ sp ++ 123%N :: rest) = Some h.
Proof.
  intros Hne Hal Hsp. induction Hal as [|c h Hc Hal IH]; [done|].
  rewrite <- app_comm_cons. cbn [matchHashBrace]. rewrite Hc.
  destruct h as [|c' h].
  - rewrite app_nil_l.
    assert (matchHashBrace (sp ++ 123%N :: rest) = None) as ->.
    { destruct Hsp as [|d sp Hd _]; [done|].
      rewrite <- app_comm_cons. cbn [matchHashBrace].
      by rewrite (isBoundary_not_alnum d (isSpace_boundary d Hd)). }
    by rewrite matchSpacesBrace_complete.
  - by rewrite IH.
Qed.

Lemma matchSuffixAt_matchAt name s h :
  matchSuffixAt name s = Some h → matchAt name s = Some h.
Proof.
  unfold matchSuffixAt, matchAt.
  destruct (startsWith (classPrefix name) s); [|done].
  apply matchHashBrace_matchHash.
Qed.

Lemma matchSuffix_exec name s h :
  matchSuffix name s = Some h → is_Some (exec name s).
Proof.
  induction s as [|c s IH]; cbn [matchSuffix exec].
  - by destruct (matchSuffixAt name []) eqn:E;
      [apply matchSuffixAt_matchAt in E; rewrite E|].
  - destruct (matchSuffixAt name (c :: s)) eqn:E.
    + apply matchSuffixAt_matchAt in E. rewrite E. by eexists.
    + intros H. destruct (matchAt name (c :: s)); [by eexists|by apply IH].
Qed.

Lemma matchSuffix_Some name s h :
  matchSuffix name s = Some h →
  ∃ i, i ≤ length s ∧ matchSuffixAt name (drop i s) = Some h.
Proof.
  induction s as [|c s IH]; cbn [matchSuffix].
  - destruct (matchSuffixAt name []) eqn:E; [|done].
    intros [= <-]. by exists 0.
  - destruct (matchSuffixAt name (c :: s)) eqn:E.
    + intros [= <-]. exists 0. split; [lia|done].
    + intros H. destruct (IH H) as (i & Hi & Hm).
      exists (S i). split; [simpl; lia|done].
Qed.

Lemma matchSuffix_skip name (a rest : str) :
  (∀ j, j < length a →
        startsWith (classPrefix name) (drop j (a ++ rest)) = false) →
  matchSuffix name (a ++ rest) = matchSuffix name rest.
Proof.
  induction a as [|x a IH]; intros H; [done|].
  rewrite <- app_comm_cons. cbn [matchSuffix].
  assert (matchSuffixAt name (x :: a ++ rest) = None) as ->.
  { unfold matchSuffixAt. pose proof (H 0 (Nat.lt_0_succ _)) as H0.
    rewrite drop_0, <- app_comm_cons in H0. by rewrite H0. }
  apply IH. intros j Hj. apply (H (S j)). simpl. lia.
Qed.

Lemma matchSuffix_first name a h sp rest :
  46%N ∉ lit name →
  indexOf (classPrefix name) a = None →
  h ≠ [] → Forall (λ c, isAlnum c = true) h →
  Forall (λ c, isSpace c = true) sp →
  matchSuffix name (a ++ classPrefix name ++ h ++ sp ++ 123%N :: rest) = Some h.
Proof.
  intros Hname Ha Hne Hal Hsp. rewrite matchSuffix_skip.
  - assert (matchSuffixAt name (classPrefix name ++ h ++ sp ++ 123%N :: rest)
            = Some h) as Hm.
    { unfold matchSuffixAt. rewrite startsWith_app, drop_app_length.
      by apply matchHashBrace_complete. }
    destruct (classPrefix name ++ h ++ sp ++ 123%N :: rest);
      cbn [matchSuffix]; by rewrite Hm.
  - intros j Hj. rewrite classPrefix_cons, <- app_comm_cons.
    by apply classPrefix_no_straddle.
Qed.

Lemma matchSuffix_absent name s :
  indexOf (classPrefix name) s = None → matchSuffix name s = None.
Proof.
  intros H. destruct (matchSuffix name s) as [h|] eqn:E; [|done].
  apply matchSuffix_Some in E as (i & _ & Hm). unfold matchSuffixAt in Hm.
  by rewrite (indexOf_None_drop _ _ i H) in Hm.
Qed.

End HashSuffix.

(** X13: a hash returned by [extractHashSuffix] is not empty, is
    alphanumeric, and stands in the content right after [.message_], or
    right after [.chatContainer_] when the [message] pattern matches
    nowhere, followed by optional whitespace and an opening brace. *)
Theorem X13_hash_suffix_origin (css h : str) :
  extractHashSuffix css = Some h →
  h ≠ [] ∧ Forall (λ u, isAlnum u = true) h ∧
  ∃ name pre sp rest,
    (name = "message"%string ∨
     name = "chatContainer"%string ∧ matchSuffix "message" css = None) ∧
    css = pre ++ classPrefix name ++ h ++ sp ++ 123%N :: rest ∧
    Forall (λ u, isSpace u = true) sp.
Proof.
  unfold extractHashSuffix. intros H.
  assert (∀ name, matchSuffix name css = Some h →
            h ≠ [] ∧ Forall (λ u, isAlnum u = true) h ∧
            ∃ pre sp rest,
              css = pre ++ classPrefix name ++ h ++ sp ++ 123%N :: rest ∧
              Forall (λ u, isSpace u = true) sp) as Hone.
  { intros name Hm. apply matchSuffix_Some in Hm as (i & Hi & Hm).
    unfold matchSuffixAt in Hm.
    destruct (startsWith (classPrefix name) (drop i css)) eqn:Hsw; [|done].
    apply startsWith_prefix in Hsw as [k Hk]. rewrite Hk, drop_app_length in Hm.
    apply matchHashBrace_sound in Hm as (Hne & Hal & sp & rest & -> & Hsp).
    split; [done|]. split; [done|]. exists (take i css), sp, rest.
    split; [|done]. by rewrite <- Hk, take_drop. }
  destruct (matchSuffix "message" css) as [h1|] eqn:H1.
  - injection H as ->. destruct (Hone _ H1) as (Hne & Hal & pre & sp & rest & Hc & Hsp).
    split; [done|]. split; [done|].
    exists "message"%string, pre, sp, rest. split; [by left|done].
  - destruct (matchSuffix "chatContainer" css) as [h2|] eqn:H2; [|done].
    injection H as ->. destruct (Hone _ H2) as (Hne & Hal & pre & sp & rest & Hc & Hsp).
    split; [done|]. split; [done|].
    exists "chatContainer"%string, pre, sp, rest. split; [by right|done].
Qed.

Lemma X13_hash_suffix_origin_witness :
  extractHashSuffix (lit ".chatContainer_XyZ789{display:flex}")
    = Some (lit "XyZ789") ∧
  lit "XyZ789" ≠ [].
Proof.
  split; [vm_compute; reflexivity|].
  apply (X13_hash_suffix_origin (lit ".chatContainer_XyZ789{display:flex}")
           (lit "XyZ789")).
  vm_compute. reflexivity.
Defined.

(** X14: whenever [extractHashSuffix] returns a hash, [extractClassMap]
    has an entry for [message] or for [chatContainer]; and on a stylesheet
    whose first [.message_] opens a rule (a hash, optional whitespace, a
    brace) both functions give that hash for [message]. *)
Theorem X14_hash_suffix_and_class_map (css a h sp rest : str) :
  (is_Some (extractHashSuffix css) →
   is_Some (extractClassMap css !! "message"%string) ∨
   is_Some (extractClassMap css !! "chatContainer"%string)) ∧
  (includes (classPrefix "message") a = false →
   h ≠ [] → Forall (λ u, isAlnum u = true) h →
   Forall (λ u, isSpace u = true) sp →
   extractHashSuffix
     (a ++ classPrefix "message" ++ h ++ sp ++ 123%N :: rest) = Some h ∧
   extractClassMap
     (a ++ classPrefix "message" ++ h ++ sp ++ 123%N :: rest)
     !! "message"%string = Some h).
Proof.
  split.
  - intros [h0 H]. unfold extractHashSuffix in H.
    rewrite !extractClassMap_lookup.
    rewrite !decide_True by (apply (bool_decide_unpack _); by vm_compute).
    destruct (matchSuffix "message" css) as [h1|] eqn:H1.
    + left. by apply (matchSuffix_exec _ _ h1).
    + destruct (matchSuffix "chatContainer" css) as [h2|] eqn:H2; [|done].
      right. by apply (matchSuffix_exec _ _ h2).
  - intros Ha Hne Hal Hsp. apply includes_false in Ha.
    assert (46%N ∉ lit "message") as Hdot
      by (apply (bool_decide_unpack _); by vm_compute).
    split.
    + unfold extractHashSuffix. by rewrite matchSuffix_first.
    + rewrite extractClassMap_lookup.
      rewrite decide_True by (apply (bool_decide_unpack _); by vm_compute).
      destruct Hsp as [|d sp Hd Hsp].
      * by apply exec_first.
      * rewrite <- app_comm_cons. apply exec_first; [done..|].
        by apply isSpace_boundary.
Qed.

Lemma X14_hash_suffix_and_class_map_witness :
  includes (classPrefix "message") (lit "body{margin:0} ") = false ∧
  lit "Abc123" ≠ [] ∧
  Forall (λ u, isAlnum u = true) (lit "Abc123") ∧
  Forall (λ u, isSpace u = true) (lit " ") ∧
  extractHashSuffix
    (lit "body{margin:0} " ++ classPrefix "message" ++ lit "Abc123" ++ lit " "
     ++ 123%N :: lit "color:red}") = Some (lit "Abc123").
Proof.
  split; [vm_compute; reflexivity|]. split; [discriminate|].
  split; [apply (bool_decide_unpack _); vm_compute; exact I|].
  split; [apply (bool_decide_unpack _); vm_compute; exact I|].
  destruct (X14_hash_suffix_and_class_map sampleCss (lit "body{margin:0} ")
              (lit "Abc123") (lit " ") (lit "color:red}")) as [_ H].
  destruct H as [H _].
  - vm_compute. reflexivity.
  - discriminate.
  - apply (bool_decide_unpack _). vm_compute. exact I.
  - apply (bool_decide_unpack _). vm_compute. exact I.
  - exact H.
Defined.

(** ** Stylesheets without a class selector *)

Section NoSelector.

Implicit Types (s css : str) (key : string).

Lemma replaceTrailingNewlines_subseteq s : replaceTrailingNewlines s ⊆ s.
Proof.
  destruct (replaceTrailingNewlines_prefix s) as [t Ht].
  intros x Hx. rewrite Ht. apply elem_of_app. by left.
Qed.

Lemma removePatchContent_subseteq css : removePatchContent css ⊆ css.
Proof.
  unfold removePatchContent.
  destruct (indexOf PATCH_START css) as [i|]; [|done].
  destruct (indexOf PATCH_END css) as [j|]; [|done]. cbv zeta.
  intros x Hx. apply elem_of_app in Hx as [Hx|Hx].
  - apply replaceTrailingNewlines_subseteq in Hx. unfold substring in Hx.
    rewrite drop_0 in Hx. by apply (subseteq_take (i - 0)).
  - by apply (subseteq_drop (j + length PATCH_END)).
Qed.

Lemma workingCopy_subseteq css : workingCopy css ⊆ css.
Proof.
  unfold workingCopy. destruct (includes PATCH_START css); [|done].
  apply removePatchContent_subseteq.
Qed.

Lemma classPrefix_dot key : 46%N ∈ classPrefix key.
Proof. rewrite classPrefix_cons. left. Qed.

Lemma extractClassMap_no_dot css : 46%N ∉ css → extractClassMap css = ∅.
Proof.
  intros Hdot. apply map_eq. intros key.
  rewrite lookup_empty, extractClassMap_lookup.
  destruct (decide (key ∈ patterns)); [|done].
  apply exec_absent, (indexOf_None_foreign _ _ 46%N); [|done].
  apply classPrefix_dot.
Qed.

End NoSelector.

(** X15: a stylesheet without a full stop, the empty one included, holds
    no class selector: [extractClassMap] gives the empty mapping,
    [extractHashSuffix] gives null, and [applyPatch] fails on such a file
    with the unrecognized-format message and changes nothing, whatever
    markers the file holds. *)
Theorem X15_no_full_stop_nothing_resolved
    (css : str) (fs : gmap string str) (path : string) :
  46%N ∉ css →
  extractClassMap css = ∅ ∧
  extractHashSuffix css = None ∧
  (fs !! path = Some css →
   applyPatch path fs = (ApplyFailure unrecognizedFormatError, fs)).
Proof.
  intros Hdot. split; [by apply extractClassMap_no_dot|]. split.
  - unfold extractHashSuffix.
    rewrite !matchSuffix_absent; [done|..];
      (apply (indexOf_None_foreign _ _ 46%N); [apply classPrefix_dot|done]).
  - intros Hf. apply (applyPatch_unrecognized _ _ _ Hf).
    rewrite extractClassMap_no_dot; [done|].
    intros Hin. by apply Hdot, (workingCopy_subseteq css).
Qed.

Lemma X15_no_full_stop_nothing_resolved_witness :
  (46%N ∉ lit "body{margin:0}" ++ PATCH_START) ∧
  applyPatch cssPath {[ cssPath := lit "body{margin:0}" ++ PATCH_START ]}
  = (ApplyFailure unrecognizedFormatError,
     {[ cssPath := lit "body{margin:0}" ++ PATCH_START ]}).
Proof.
  split; [apply (bool_decide_unpack _); vm_compute; exact I|].
  apply (X15_no_full_stop_nothing_resolved
           (lit "body{margin:0}" ++ PATCH_START)
           {[ cssPath := lit "body{margin:0}" ++ PATCH_START ]} cssPath).
  - apply (bool_decide_unpack _). vm_compute. exact I.
  - vm_compute. reflexivity.
Defined.

(** ** Discovery *)

Section Discovery.

Variable H : host.

Implicit Types (extDir entry p : string) (entries found : list string).

Lemma scanEntries_acc extDir entries found :
  scanEntries H extDir entries found
  = found ++ scanEntries H extDir entries [].
Proof.
  revert found. induction entries as [|entry entries IH]; intros found.
  - cbn [scanEntries]. by rewrite app_nil_r.
  - cbn [scanEntries]. destruct (String.prefix extensionPrefix entry); [|done].
    destruct (statIsDirectory H (pathJoin H [extDir; entry])) as [[|]|].
    + rewrite IH, (IH ([] ++ _)). by rewrite app_nil_l, app_assoc.
    + done.
    + by rewrite app_nil_r.
Qed.

Lemma scanEntries_sound extDir entries p :
  p ∈ scanEntries H extDir entries [] →
  ∃ entry, entry ∈ entries ∧
           String.prefix extensionPrefix entry = true ∧
           p = pathJoin H [extDir; entry] ∧
           statIsDirectory H p = Some true.
Proof.
  induction entries as [|entry entries IH]; cbn [scanEntries].
  - by intros ?%elem_of_nil.
  - destruct (String.prefix extensionPrefix entry) eqn:Hp.
    + destruct (statIsDirectory H (pathJoin H [extDir; entry])) as [[|]|] eqn:Hs.
      * rewrite scanEntries_acc, app_nil_l. intros Hin.
        apply elem_of_cons in Hin as [->|Hin].
        -- exists entry. split; [left|done].
        -- destruct (IH Hin) as (e & He & ?). exists e. split; [by right|done].
      * intros Hin. destruct (IH Hin) as (e & He & ?).
        exists e. split; [by right|done].
      * by intros ?%elem_of_nil.
    + intros Hin. destruct (IH Hin) as (e & He & ?).
      exists e. split; [by right|done].
Qed.

Lemma foldl_scanDir_sound (dirs : list string) found p :
  p ∈ foldl (scanDir H) found dirs →
  p ∈ found ∨
  ∃ extDir entries,
    extDir ∈ dirs ∧ existsSync H extDir = true ∧
    readdirSync H extDir = Some entries ∧
    p ∈ scanEntries H extDir entries [].
Proof.
  revert found. induction dirs as [|d dirs IH]; intros found; cbn [foldl].
  - by left.
  - intros Hin. destruct (IH _ Hin) as [Hf|(extDir & entries & Hd & ?)].
    + unfold scanDir in Hf. destruct (existsSync H d) eqn:He; [|by left].
      destruct (readdirSync H d) as [entries|] eqn:Hr; [|by left].
      rewrite scanEntries_acc in Hf. apply elem_of_app in Hf as [Hf|Hf].
      * by left.
      * right. exists d, entries. split; [left|done].
    + right. exists extDir, entries. split; [by right|done].
Qed.

(** When no [statSync] throws, a directory contributes its matching
    entries that are directories, in order. *)
Lemma scanEntries_complete extDir entries :
  (∀ entry, entry ∈ entries →
     String.prefix extensionPrefix entry = true →
     is_Some (statIsDirectory H (pathJoin H [extDir; entry]))) →
  scanEntries H extDir entries []
  = (λ entry, pathJoin H [extDir; entry])
      <$> List.filter
            (λ entry, String.prefix extensionPrefix entry
                      && bool_decide
                           (statIsDirectory H (pathJoin H [extDir; entry])
                            = Some true))
            entries.
Proof.
  induction entries as [|entry entries IH]; intros Hstat; [done|].
  cbn [scanEntries List.filter].
  assert (∀ e, e ∈ entries → String.prefix extensionPrefix e = true →
               is_Some (statIsDirectory H (pathJoin H [extDir; e]))) as Hrest
    by (intros e He; apply Hstat; by right).
  destruct (String.prefix extensionPrefix entry) eqn:Hp; cbn [andb].
  - destruct (Hstat entry ltac:(left) Hp) as [b Hb]. rewrite Hb.
    destruct b.
    + rewrite bool_decide_eq_true_2 by done.
      rewrite scanEntries_acc, app_nil_l, fmap_cons. f_equal. by apply IH.
    + rewrite bool_decide_eq_false_2 by done. by apply IH.
  - by apply IH.
Qed.

Lemma foldl_scanDir_acc (dirs : list string) found :
  foldl (scanDir H) found dirs = found ++ foldl (scanDir H) [] dirs.
Proof.
  revert found. induction dirs as [|d dirs IH]; intros found; cbn [foldl].
  - by rewrite app_nil_r.
  - rewrite IH, (IH (scanDir H [] d)).
    assert (scanDir H found d = found ++ scanDir H [] d) as ->.
    { unfold scanDir. destruct (existsSync H d); [|by rewrite app_nil_r].
      destruct (readdirSync H d); [|by rewrite app_nil_r].
      apply scanEntries_acc. }
    by rewrite app_assoc.
Qed.

Lemma foldl_scanDir_complete (dirs : list string) extDir entries p :
  extDir ∈ dirs → existsSync H extDir = true →
  readdirSync H extDir = Some entries →
  p ∈ scanEntries H extDir entries [] →
  p ∈ foldl (scanDir H) [] dirs.
Proof.
  intros Hd He Hr Hp. induction dirs as [|d dirs IH]; [by apply elem_of_nil in Hd|].
  cbn [foldl]. rewrite foldl_scanDir_acc. apply elem_of_app.
  apply elem_of_cons in Hd as [<-|Hd].
  - left. unfold scanDir. by rewrite He, Hr.
  - right. by apply IH.
Qed.

End Discovery.

(** X16: without the override variable, every directory that
    [findExtensionDirs] returns is an entry of an existing candidate
    directory whose name begins with [anthropic.claude-code-] and that
    [statSync] reports as a directory, joined to that candidate. *)
Theorem X16_discovered_directories_sound (H : host) (p : string) :
  envTruthy (envCLAUDE_CODE_EXT_DIR H) = false →
  p ∈ findExtensionDirs H →
  ∃ extDir entries entry,
    extDir ∈ candidateDirs H ∧
    existsSync H extDir = true ∧
    readdirSync H extDir = Some entries ∧
    entry ∈ entries ∧
    String.prefix "anthropic.claude-code-" entry = true ∧
    p = pathJoin H [extDir; entry] ∧
    statIsDirectory H p = Some true.
Proof.
  intros Henv Hin. unfold findExtensionDirs in Hin. cbv zeta in Hin.
  assert (p ∈ foldl (scanDir H) [] (candidateDirs H)) as Hfold.
  { destruct (envCLAUDE_CODE_EXT_DIR H) as [[|c d]|]; done. }
  apply foldl_scanDir_sound in Hfold
    as [Hnil|(extDir & entries & Hd & He & Hr & Hs)];
    [by apply elem_of_nil in Hnil|].
  apply scanEntries_sound in Hs as (entry & Hentry & Hp & -> & Hstat).
  by exists extDir, entries, entry.
Qed.

Lemma X16_discovered_directories_sound_witness :
  envTruthy (envCLAUDE_CODE_EXT_DIR scanningHost) = false ∧
  findExtensionDirs scanningHost
  = [ "/home/u/.vscode/extensions/anthropic.claude-code-1.0.0";
      "/home/u/.vscode/extensions/anthropic.claude-code-2.0.0" ]%string ∧
  statIsDirectory scanningHost
    "/home/u/.vscode/extensions/anthropic.claude-code-2.0.0" = Some true.
Proof.
  split; [reflexivity|]. split; [vm_compute; reflexivity|].
  destruct (X16_discovered_directories_sound scanningHost
              "/home/u/.vscode/extensions/anthropic.claude-code-2.0.0")
    as (extDir & entries & entry & _ & _ & _ & _ & _ & _ & Hstat).
  - reflexivity.
  - apply (bool_decide_unpack _). vm_compute. exact I.
  - exact Hstat.
Defined.

(** X17: without the override variable, an entry of an existing candidate
    directory whose name begins with [anthropic.claude-code-] and that is a
    directory is returned by [findExtensionDirs], provided that
    [readdirSync] on the candidate and [statSync] on its matching entries
    do not throw. *)
Theorem X17_discovered_directories_complete
    (H : host) (extDir entry : string) (entries : list string) :
  envTruthy (envCLAUDE_CODE_EXT_DIR H) = false →
  extDir ∈ candidateDirs H →
  existsSync H extDir = true →
  readdirSync H extDir = Some entries →
  (∀ e, e ∈ entries → String.prefix "anthropic.claude-code-" e = true →
        is_Some (statIsDirectory H (pathJoin H [extDir; e]))) →
  entry ∈ entries →
  String.prefix "anthropic.claude-code-" entry = true →
  statIsDirectory H (pathJoin H [extDir; entry]) = Some true →
  pathJoin H [extDir; entry] ∈ findExtensionDirs H.
Proof.
  intros Henv Hd He Hr Hall Hentry Hp Hstat.
  assert (findExtensionDirs H = foldl (scanDir H) [] (candidateDirs H)) as ->.
  { unfold findExtensionDirs.
    destruct (envCLAUDE_CODE_EXT_DIR H) as [[|c d]|]; done. }
  apply (foldl_scanDir_complete H _ extDir entries); [done..|].
  rewrite scanEntries_complete by done.
  apply (list_elem_of_fmap_2 (λ e, pathJoin H [extDir; e])).
  apply list_elem_of_In, filter_In. split; [by apply list_elem_of_In|].
  change extensionPrefix with "anthropic.claude-code-"%string.
  rewrite Hp. cbn [andb]. by apply bool_decide_eq_true_2.
Qed.

Lemma X17_discovered_directories_complete_witness :
  "/home/u/.vscode/extensions/anthropic.claude-code-2.0.0"%string
    ∈ findExtensionDirs scanningHost.
Proof.
  apply (X17_discovered_directories_complete scanningHost
           "/home/u/.vscode/extensions" "anthropic.claude-code-2.0.0"
           [ "anthropic.claude-code-1.0.0"; "ms-python.python-2024";
             "anthropic.claude-code-readme.txt";
             "anthropic.claude-code-2.0.0" ]%string).
  - reflexivity.
  - apply (bool_decide_unpack _). vm_compute. exact I.
  - reflexivity.
  - reflexivity.
  - intros e _ _. by eexists.
  - apply (bool_decide_unpack _). vm_compute. exact I.
  - reflexivity.
  - reflexivity.
Defined.

(** X18: a [statSync] that throws ends the scan of its directory: the
    entries after it are not looked at, and the directories pushed before
    it stay in the result. *)
Theorem X18_throwing_stat_ends_directory_scan
    (H : host) (extDir bad : string) (before after found : list string) :
  String.prefix "anthropic.claude-code-" bad = true →
  statIsDirectory H (pathJoin H [extDir; bad]) = None →
  scanEntries H extDir (before ++ bad :: after) found
  = scanEntries H extDir before found.
Proof.
  intros Hp Hs. revert found.
  induction before as [|entry before IH]; intros found.
  - cbn [app scanEntries].
    change extensionPrefix with "anthropic.claude-code-"%string.
    by rewrite Hp, Hs.
  - rewrite <- app_comm_cons. cbn [scanEntries].
    destruct (String.prefix extensionPrefix entry); [|apply IH].
    destruct (statIsDirectory H (pathJoin H [extDir; entry])) as [[|]|];
      [apply IH|apply IH|done].
Qed.

Lemma X18_throwing_stat_ends_directory_scan_witness :
  scanEntries throwingHost "/home/u/.vscode/extensions"
    ([ "anthropic.claude-code-1.0.0" ]%string
     ++ "anthropic.claude-code-2.0.0"%string
        :: [ "anthropic.claude-code-3.0.0" ]%string) []
  = [ "/home/u/.vscode/extensions/anthropic.claude-code-1.0.0" ]%string ∧
  findExtensionDirs throwingHost
  = [ "/home/u/.vscode/extensions/anthropic.claude-code-1.0.0" ]%string.
Proof.
  split; [|vm_compute; reflexivity].
  rewrite (X18_throwing_stat_ends_directory_scan throwingHost).
  - vm_compute. reflexivity.
  - reflexivity.
  - reflexivity.
Defined.

(** ** Runs of the command line *)

Section Runs.

Variable H : host.

Implicit Types (fs : gmap string str) (dirs args : list string).
Implicit Types (path other extDir : string).

Lemma applyPatch_frame fs path other :
  other ≠ path → other ≠ backupPathOf path →
  (applyPatch path fs).2 !! other = fs !! other.
Proof.
  intros Hp Hb.
  destruct (applyPatch_cases fs path)
    as [[Hf Ha]|[(content & Hf & Hm & Ha)|(content & Hf & Hm & Ha)]];
    rewrite Ha; cbn [snd]; [done|done|].
  rewrite lookup_insert_ne by done.
  destruct (fs !! backupPathOf path); [done|]. by rewrite lookup_insert_ne.
Qed.

Lemma revertPatch_frame fs path other :
  other ≠ path → other ≠ backupPathOf path →
  (revertPatch path fs).2 !! other = fs !! other.
Proof.
  intros Hp Hb. unfold revertPatch.
  destruct (fs !! path) as [content|]; [|done].
  destruct (fs !! backupPathOf path) as [original|]; cbn [snd].
  - rewrite lookup_delete_ne by done. by rewrite lookup_insert_ne.
  - destruct (includes PATCH_START content); cbn [snd]; [|done].
    by rewrite lookup_insert_ne.
Qed.

(** [applyPatch] removes no file. *)
Lemma applyPatch_keeps_files fs path other :
  is_Some (fs !! other) → is_Some ((applyPatch path fs).2 !! other).
Proof.
  intros Hs.
  destruct (applyPatch_cases fs path)
    as [[Hf Ha]|[(content & Hf & Hm & Ha)|(content & Hf & Hm & Ha)]];
    rewrite Ha; cbn [snd]; [done|done|].
  destruct (decide (other = path)) as [->|Hne];
    [rewrite lookup_insert_eq; by eexists|].
  rewrite lookup_insert_ne by done.
  destruct (fs !! backupPathOf path) eqn:Hb; [done|].
  destruct (decide (other = backupPathOf path)) as [->|Hne'];
    [rewrite lookup_insert_eq; by eexists|].
  by rewrite lookup_insert_ne.
Qed.

(** [applyPatch] on one file leaves a patched file patched. *)
Lemma applyPatch_keeps_check fs path other :
  checkPatch other fs = true →
  checkPatch other (applyPatch path fs).2 = true.
Proof.
  intros Hc.
  destruct (applyPatch_cases fs path)
    as [[Hf Ha]|[(content & Hf & Hm & Ha)|(content & Hf & Hm & Ha)]];
    rewrite Ha; cbn [snd]; [done|done|].
  unfold checkPatch.
  destruct (decide (other = path)) as [->|Hne];
    [rewrite lookup_insert_eq; apply includes_START_appended|].
  rewrite lookup_insert_ne by done.
  destruct (fs !! backupPathOf path) eqn:Hb; [done|].
  destruct (decide (other = backupPathOf path)) as [->|Hne'].
  - unfold checkPatch in Hc. by rewrite Hb in Hc.
  - by rewrite lookup_insert_ne.
Qed.

(** After a successful call the target is patched and has a backup. *)
Lemma applySucceeded_post fs path :
  applySucceeded (applyPatch path fs).1 = true →
  checkPatch path (applyPatch path fs).2 = true ∧
  is_Some ((applyPatch path fs).2 !! backupPathOf path).
Proof.
  destruct (applyPatch_cases fs path)
    as [[Hf Ha]|[(content & Hf & Hm & Ha)|(content & Hf & Hm & Ha)]];
    rewrite Ha; cbn [fst snd applySucceeded]; [done|done|].
  intros _. split.
  - unfold checkPatch. rewrite lookup_insert_eq.
    apply includes_START_appended.
  - rewrite lookup_insert_ne by apply not_eq_sym, backupPathOf_fresh.
    destruct (fs !! backupPathOf path) eqn:Hb; [by rewrite Hb|].
    rewrite lookup_insert_eq. by eexists.
Qed.

(** A failed call changes nothing. *)
Lemma applyFailed_unchanged fs path :
  applySucceeded (applyPatch path fs).1 = false →
  (applyPatch path fs).2 = fs.
Proof.
  destruct (applyPatch_cases fs path)
    as [[Hf Ha]|[(content & Hf & Hm & Ha)|(content & Hf & Hm & Ha)]];
    rewrite Ha; cbn [fst snd applySucceeded]; done.
Qed.

(** [revertPatch] creates no file. *)
Lemma revertPatch_no_new_files fs path other :
  is_Some ((revertPatch path fs).2 !! other) → is_Some (fs !! other).
Proof.
  unfold revertPatch. destruct (fs !! path) as [content|] eqn:Hf; [|done].
  destruct (fs !! backupPathOf path) as [original|] eqn:Hb; cbn [snd].
  - destruct (decide (other = backupPathOf path)) as [->|Hne].
    + rewrite lookup_delete_eq. by intros [? ?].
    + rewrite lookup_delete_ne by done.
      destruct (decide (other = path)) as [->|Hne']; [by rewrite Hf|].
      by rewrite lookup_insert_ne.
  - destruct (includes PATCH_START content); cbn [snd]; [|done].
    destruct (decide (other = path)) as [->|Hne']; [by rewrite Hf|].
    by rewrite lookup_insert_ne.
Qed.

(** After [revertPatch] on an existing target there is no backup. *)
Lemma revertPatch_no_backup fs path :
  is_Some (fs !! path) →
  (revertPatch path fs).2 !! backupPathOf path = None.
Proof.
  intros [content Hf]. unfold revertPatch. rewrite Hf.
  destruct (fs !! backupPathOf path) as [original|] eqn:Hb; cbn [snd].
  - apply lookup_delete_eq.
  - destruct (includes PATCH_START content); cbn [snd]; [|done].
    by rewrite lookup_insert_ne by apply not_eq_sym, backupPathOf_fresh.
Qed.

Lemma applyAll_keeps_check dirs fs other :
  checkPatch other fs = true → checkPatch other (applyAll H dirs fs) = true.
Proof.
  revert fs. induction dirs as [|d dirs IH]; intros fs Hc; [done|].
  unfold applyAll. cbn [foldl]. by apply IH, applyPatch_keeps_check.
Qed.

Lemma applyAll_keeps_files dirs fs other :
  is_Some (fs !! other) → is_Some (applyAll H dirs fs !! other).
Proof.
  revert fs. induction dirs as [|d dirs IH]; intros fs Hc; [done|].
  unfold applyAll. cbn [foldl]. by apply IH, applyPatch_keeps_files.
Qed.

Lemma anyApplied_post dirs fs :
  anyApplied H dirs fs = true →
  ∃ extDir, extDir ∈ dirs ∧
    checkPatch (cssFileOf H extDir) (applyAll H dirs fs) = true ∧
    is_Some (applyAll H dirs fs !! backupPathOf (cssFileOf H extDir)).
Proof.
  revert fs. induction dirs as [|d dirs IH]; intros fs; cbn [anyApplied];
    [done|].
  intros [Hd|Hrest]%orb_true_iff.
  - apply applySucceeded_post in Hd as [Hc Hb]. exists d.
    split; [left|]. unfold applyAll. cbn [foldl]. split.
    + by apply applyAll_keeps_check.
    + by apply applyAll_keeps_files.
  - destruct (IH _ Hrest) as (e & He & Hc & Hb). exists e.
    split; [by right|]. done.
Qed.

Lemma revertAll_no_new_files dirs fs other :
  is_Some (revertAll H dirs fs !! other) → is_Some (fs !! other).
Proof.
  revert fs. induction dirs as [|d dirs IH]; intros fs; [done|].
  unfold revertAll. cbn [foldl]. intros Hs.
  by apply IH, revertPatch_no_new_files in Hs.
Qed.

Lemma revertAll_no_backup dirs fs extDir :
  extDir ∈ dirs →
  is_Some (revertAll H dirs fs !! cssFileOf H extDir) →
  revertAll H dirs fs !! backupPathOf (cssFileOf H extDir) = None.
Proof.
  revert fs. induction dirs as [|d dirs IH]; intros fs Hin;
    [by apply elem_of_nil in Hin|].
  apply elem_of_cons in Hin as [->|Hin].
  - unfold revertAll. cbn [foldl]. intros Hs.
    apply revertAll_no_new_files in Hs as Hs1.
    apply revertPatch_no_new_files in Hs1 as Hs0.
    apply (revertPatch_no_backup fs) in Hs0.
    apply eq_None_not_Some. intros Hb.
    apply revertAll_no_new_files in Hb. rewrite Hs0 in Hb. by destruct Hb.
  - unfold revertAll. cbn [foldl]. by apply IH.
Qed.

(** One iteration of the loop, by mode. *)
Lemma mainStep_check isRevert isQuiet any out fs extDir :
  ∃ out',
    mainStep H true isRevert isQuiet (any, out, fs) extDir
    = (any || checkPatch (cssFileOf H extDir) fs, out', fs).
Proof. eexists. reflexivity. Qed.

Lemma mainStep_apply isQuiet any out fs extDir :
  ∃ out',
    mainStep H false false isQuiet (any, out, fs) extDir
    = (any || applySucceeded (applyPatch (cssFileOf H extDir) fs).1, out',
       (applyPatch (cssFileOf H extDir) fs).2).
Proof.
  unfold mainStep. cbv zeta.
  destruct (applyPatch (cssFileOf H extDir) fs) as [[m bk|e] fs'];
    eexists; cbn [fst snd applySucceeded];
    [rewrite orb_true_r|rewrite orb_false_r]; reflexivity.
Qed.

Lemma mainStep_revert isQuiet any out fs extDir :
  ∃ out',
    mainStep H false true isQuiet (any, out, fs) extDir
    = (any || revertSucceeded (revertPatch (cssFileOf H extDir) fs).1, out',
       (revertPatch (cssFileOf H extDir) fs).2).
Proof.
  unfold mainStep. cbv zeta.
  destruct (revertPatch (cssFileOf H extDir) fs) as [[m|e] fs'];
    eexists; cbn [fst snd revertSucceeded];
    [rewrite orb_true_r|rewrite orb_false_r]; reflexivity.
Qed.

Lemma foldl_mainStep_check isRevert isQuiet dirs any out fs :
  ∃ out',
    foldl (mainStep H true isRevert isQuiet) (any, out, fs) dirs
    = (any || existsb (λ extDir, checkPatch (cssFileOf H extDir) fs) dirs,
       out', fs).
Proof.
  revert any out. induction dirs as [|d dirs IH]; intros any out;
    cbn [foldl existsb].
  - exists out. by rewrite orb_false_r.
  - destruct (mainStep_check isRevert isQuiet any out fs d) as [o' ->].
    destruct (IH (any || checkPatch (cssFileOf H d) fs) o') as [o'' ->].
    exists o''. by rewrite orb_assoc.
Qed.

Lemma foldl_mainStep_apply isQuiet dirs any out fs :
  ∃ out',
    foldl (mainStep H false false isQuiet) (any, out, fs) dirs
    = (any || anyApplied H dirs fs, out', applyAll H dirs fs).
Proof.
  revert any out fs. induction dirs as [|d dirs IH]; intros any out fs;
    cbn [foldl anyApplied].
  - exists out. by rewrite orb_false_r.
  - destruct (mainStep_apply isQuiet any out fs d) as [o' ->].
    destruct (IH (any || applySucceeded (applyPatch (cssFileOf H d) fs).1) o'
                 (applyPatch (cssFileOf H d) fs).2) as [o'' ->].
    exists o''. by rewrite orb_assoc.
Qed.

Lemma foldl_mainStep_revert isQuiet dirs any out fs :
  ∃ out',
    foldl (mainStep H false true isQuiet) (any, out, fs) dirs
    = (any || anyReverted H dirs fs, out', revertAll H dirs fs).
Proof.
  revert any out fs. induction dirs as [|d dirs IH]; intros any out fs;
    cbn [foldl anyReverted].
  - exists out. by rewrite orb_false_r.
  - destruct (mainStep_revert isQuiet any out fs d) as [o' ->].
    destruct (IH (any || revertSucceeded (revertPatch (cssFileOf H d) fs).1) o'
                 (revertPatch (cssFileOf H d) fs).2) as [o'' ->].
    exists o''. by rewrite orb_assoc.
Qed.

(** The exit code and the files of a run are those of its loop. *)
Lemma main_exitCode args fs :
  exitCode (main H args fs)
  = if (foldl (mainStep H (bool_decide ("--check"%string ∈ args))
                 (bool_decide ("--revert"%string ∈ args))
                 (bool_decide ("--quiet"%string ∈ args)))
          (false, [], fs) (findExtensionDirs H)).1.1
    then 0 else 1.
Proof.
  unfold main. cbv zeta. destruct (findExtensionDirs H) as [|d ds]; [done|].
  by destruct (foldl _ _ _) as [[a o] f].
Qed.

Lemma main_filesAfter args fs :
  filesAfter (main H args fs)
  = (foldl (mainStep H (bool_decide ("--check"%string ∈ args))
              (bool_decide ("--revert"%string ∈ args))
              (bool_decide ("--quiet"%string ∈ args)))
       (false, [], fs) (findExtensionDirs H)).2.
Proof.
  unfold main. cbv zeta. destruct (findExtensionDirs H) as [|d ds]; [done|].
  by destruct (foldl _ _ _) as [[a o] f].
Qed.

Lemma main_check_exitCode args fs :
  "--check"%string ∈ args →
  exitCode (main H args fs)
  = if existsb (λ extDir, checkPatch (cssFileOf H extDir) fs)
         (findExtensionDirs H)
    then 0 else 1.
Proof.
  intros Hc. rewrite main_exitCode, (bool_decide_eq_true_2 _ Hc).
  by destruct (foldl_mainStep_check
                 (bool_decide ("--revert"%string ∈ args))
                 (bool_decide ("--quiet"%string ∈ args))
                 (findExtensionDirs H) false [] fs) as [o ->].
Qed.

Lemma existsb_elem_of {A} (f : A → bool) (l : list A) :
  existsb f l = true ↔ ∃ x, x ∈ l ∧ f x = true.
Proof.
  rewrite existsb_exists. split; intros (x & Hx & Hf); exists x;
    (split; [by apply list_elem_of_In|done]).
Qed.

(** The quiet switch removes the lines of the output stream only. *)
Lemma logLine_filter isQuiet line :
  List.filter onStderr (logLine isQuiet line) = [].
Proof. by destruct isQuiet. Qed.

Lemma mainStep_quiet isCheck isRevert isQuiet any out fs extDir :
  mainStep H isCheck isRevert true (any, List.filter onStderr out, fs) extDir
  = ((mainStep H isCheck isRevert isQuiet (any, out, fs) extDir).1.1,
     List.filter onStderr
       (mainStep H isCheck isRevert isQuiet (any, out, fs) extDir).1.2,
     (mainStep H isCheck isRevert isQuiet (any, out, fs) extDir).2).
Proof.
  unfold mainStep. cbv zeta. destruct isCheck.
  { cbn [fst snd]. by rewrite List.filter_app, logLine_filter. }
  destruct isRevert.
  { destruct (revertPatch (cssFileOf H extDir) fs) as [[m|e] fs'];
      cbn [fst snd]; by rewrite List.filter_app, logLine_filter. }
  destruct (applyPatch (cssFileOf H extDir) fs) as [[m bk|e] fs'];
    cbn [fst snd]; rewrite !List.filter_app, ?logLine_filter; done.
Qed.

Lemma foldl_mainStep_quiet isCheck isRevert isQuiet dirs any out fs :
  foldl (mainStep H isCheck isRevert true)
    (any, List.filter onStderr out, fs) dirs
  = ((foldl (mainStep H isCheck isRevert isQuiet) (any, out, fs) dirs).1.1,
     List.filter onStderr
       (foldl (mainStep H isCheck isRevert isQuiet) (any, out, fs) dirs).1.2,
     (foldl (mainStep H isCheck isRevert isQuiet) (any, out, fs) dirs).2).
Proof.
  revert any out fs. induction dirs as [|d dirs IH]; intros any out fs;
    cbn [foldl]; [done|].
  rewrite (mainStep_quiet isCheck isRevert isQuiet).
  destruct (mainStep H isCheck isRevert isQuiet (any, out, fs) d)
    as [[a o] f]. cbn [fst snd]. apply IH.
Qed.

(** A run leaves alone what is neither a target nor a backup. *)
Lemma mainStep_frame isCheck isRevert isQuiet (st : mainState) extDir other :
  other ≠ cssFileOf H extDir →
  other ≠ backupPathOf (cssFileOf H extDir) →
  (mainStep H isCheck isRevert isQuiet st extDir).2 !! other = st.2 !! other.
Proof.
  intros Hp Hb. destruct st as [[any out] fs]. unfold mainStep. cbv zeta.
  destruct isCheck; [done|]. destruct isRevert.
  - pose proof (revertPatch_frame fs _ _ Hp Hb) as Hr.
    by destruct (revertPatch (cssFileOf H extDir) fs) as [[m|e] fs'].
  - pose proof (applyPatch_frame fs _ _ Hp Hb) as Hr.
    by destruct (applyPatch (cssFileOf H extDir) fs) as [[m bk|e] fs'].
Qed.

Lemma foldl_mainStep_frame isCheck isRevert isQuiet dirs (st : mainState) other :
  (∀ extDir, extDir ∈ dirs →
     other ≠ cssFileOf H extDir ∧ other ≠ backupPathOf (cssFileOf H extDir)) →
  (foldl (mainStep H isCheck isRevert isQuiet) st dirs).2 !! other
  = st.2 !! other.
Proof.
  revert st. induction dirs as [|d dirs IH]; intros st Hall; cbn [foldl];
    [done|].
  rewrite IH by (intros e He; apply Hall; by right).
  destruct (Hall d ltac:(left)) as [Hp Hb]. by apply mainStep_frame.
Qed.

(** With the quiet switch, checking and reverting print nothing. *)
Lemma mainStep_quiet_silent isCheck isRevert any out fs extDir :
  isCheck || isRevert = true →
  (mainStep H isCheck isRevert true (any, out, fs) extDir).1.2 = out.
Proof.
  intros Hmode. unfold mainStep. cbv zeta. destruct isCheck.
  { cbn [fst snd logLine]. apply app_nil_r. }
  destruct isRevert; [|done].
  destruct (revertPatch (cssFileOf H extDir) fs) as [[m|e] fs'];
    cbn [fst snd logLine]; apply app_nil_r.
Qed.

Lemma foldl_mainStep_quiet_silent isCheck isRevert dirs any out fs :
  isCheck || isRevert = true →
  (foldl (mainStep H isCheck isRevert true) (any, out, fs) dirs).1.2 = out.
Proof.
  intros Hmode. revert any out fs.
  induction dirs as [|d dirs IH]; intros any out fs; cbn [foldl]; [done|].
  pose proof (mainStep_quiet_silent isCheck isRevert any out fs d Hmode) as Hd.
  destruct (mainStep H isCheck isRevert true (any, out, fs) d) as [[a o] f].
  cbn [fst snd] in Hd. subst o. apply IH.
Qed.

(** The two writing modes of a run. *)
Lemma main_default_run args fs :
  "--check"%string ∉ args → "--revert"%string ∉ args →
  filesAfter (main H args fs) = applyAll H (findExtensionDirs H) fs ∧
  exitCode (main H args fs)
  = if anyApplied H (findExtensionDirs H) fs then 0 else 1.
Proof.
  intros Hc Hr. rewrite main_filesAfter, main_exitCode.
  rewrite (bool_decide_eq_false_2 _ Hc), (bool_decide_eq_false_2 _ Hr).
  by destruct (foldl_mainStep_apply
                 (bool_decide ("--quiet"%string ∈ args))
                 (findExtensionDirs H) false [] fs) as [o ->].
Qed.

Lemma main_revert_run args fs :
  "--check"%string ∉ args → "--revert"%string ∈ args →
  filesAfter (main H args fs) = revertAll H (findExtensionDirs H) fs ∧
  exitCode (main H args fs)
  = if anyReverted H (findExtensionDirs H) fs then 0 else 1.
Proof.
  intros Hc Hr. rewrite main_filesAfter, main_exitCode.
  rewrite (bool_decide_eq_false_2 _ Hc), (bool_decide_eq_true_2 _ Hr).
  by destruct (foldl_mainStep_revert
                 (bool_decide ("--quiet"%string ∈ args))
                 (findExtensionDirs H) false [] fs) as [o ->].
Qed.

End Runs.

(** X19: a run of [main] with [--check] writes no file, also when
    [--revert] is given with it, and exits with 0 exactly when the
    stylesheet of one of the discovered directories holds the start
    marker, with 1 otherwise. *)
Theorem X19_check_run_read_only
    (H : host) (args : list string) (fs : gmap string str) :
  "--check"%string ∈ args →
  filesAfter (main H args fs) = fs ∧
  (exitCode (main H args fs) = 0 ↔
     ∃ extDir, extDir ∈ findExtensionDirs H ∧
               checkPatch (cssFileOf H extDir) fs = true) ∧
  (exitCode (main H args fs) ≠ 0 → exitCode (main H args fs) = 1).
Proof.
  intros Hc. split.
  - rewrite main_filesAfter, (bool_decide_eq_true_2 _ Hc).
    by destruct (foldl_mainStep_check H
                   (bool_decide ("--revert"%string ∈ args))
                   (bool_decide ("--quiet"%string ∈ args))
                   (findExtensionDirs H) false [] fs) as [o ->].
  - rewrite (main_check_exitCode H _ _ Hc), <- existsb_elem_of.
    by destruct (existsb _ _).
Qed.

Lemma X19_check_run_read_only_witness :
  "--check"%string ∈ [ "--check"; "--revert" ]%string ∧
  filesAfter (main scanningHost [ "--check"; "--revert" ]%string scannedFs)
  = scannedFs ∧
  exitCode (main scanningHost [ "--check"; "--revert" ]%string scannedFs) = 0.
Proof.
  split; [left|].
  destruct (X19_check_run_read_only scanningHost
              [ "--check"; "--revert" ]%string scannedFs)
    as (Hfiles & Hexit & _); [left|].
  split; [exact Hfiles|]. apply Hexit.
  exists "/home/u/.vscode/extensions/anthropic.claude-code-2.0.0"%string.
  split; [apply (bool_decide_unpack _); vm_compute; exact I|].
  vm_compute. reflexivity.
Defined.

(** X20: a run of [main] without [--check] and [--revert] calls
    [applyPatch] on the stylesheet of every discovered directory in turn,
    a failure not ending the loop, and exits with 0 exactly when one call
    succeeded.  When it exits with 0, one of these stylesheets holds the
    start marker and has a backup beside it in the files the run leaves,
    and a later run with [--check] on these files exits with 0. *)
Theorem X20_default_run_patches
    (H : host) (args : list string) (fs : gmap string str) :
  "--check"%string ∉ args →
  "--revert"%string ∉ args →
  filesAfter (main H args fs) = applyAll H (findExtensionDirs H) fs ∧
  (exitCode (main H args fs) = 0 ↔
     anyApplied H (findExtensionDirs H) fs = true) ∧
  (exitCode (main H args fs) = 0 →
     (∃ extDir, extDir ∈ findExtensionDirs H ∧
        checkPatch (cssFileOf H extDir) (filesAfter (main H args fs)) = true ∧
        is_Some (filesAfter (main H args fs)
                   !! backupPathOf (cssFileOf H extDir))) ∧
     ∀ args', "--check"%string ∈ args' →
       exitCode (main H args' (filesAfter (main H args fs))) = 0).
Proof.
  intros Hc Hr.
  destruct (main_default_run H args fs Hc Hr) as [Hfiles Hcode].
  assert (exitCode (main H args fs) = 0 ↔
            anyApplied H (findExtensionDirs H) fs = true) as Hexit.
  { rewrite Hcode. by destruct (anyApplied H (findExtensionDirs H) fs). }
  split; [done|]. split; [done|]. intros Hzero.
  apply Hexit, anyApplied_post in Hzero as (extDir & Hin & Hcheck & Hbackup).
  rewrite Hfiles. split; [by exists extDir|].
  intros args' Hc'. rewrite (main_check_exitCode H _ _ Hc').
  assert (existsb (λ e, checkPatch (cssFileOf H e)
                          (applyAll H (findExtensionDirs H) fs))
            (findExtensionDirs H) = true) as ->; [|done].
  apply existsb_elem_of. by exists extDir.
Qed.

Lemma X20_default_run_patches_witness :
  ("--check"%string ∉ ([] : list string)) ∧
  ("--revert"%string ∉ ([] : list string)) ∧
  exitCode (main exampleHost [] installedFs) = 0 ∧
  exitCode (main exampleHost [ "--check" ]%string
              (filesAfter (main exampleHost [] installedFs))) = 0.
Proof.
  split; [apply not_elem_of_nil|]. split; [apply not_elem_of_nil|].
  destruct (X20_default_run_patches exampleHost [] installedFs)
    as (_ & Hexit & Hafter); [apply not_elem_of_nil..|].
  assert (exitCode (main exampleHost [] installedFs) = 0) as Hzero
    by (apply Hexit; vm_compute; reflexivity).
  split; [exact Hzero|]. apply (Hafter Hzero). left.
Defined.

(** X21: a run of [main] with [--revert] and without [--check] calls
    [revertPatch] on the stylesheet of every discovered directory in turn
    and exits with 0 exactly when one call succeeded.  It creates no file,
    and in the files it leaves no discovered stylesheet that exists has a
    backup beside it. *)
Theorem X21_revert_run_leaves_no_backup
    (H : host) (args : list string) (fs : gmap string str) :
  "--check"%string ∉ args →
  "--revert"%string ∈ args →
  filesAfter (main H args fs) = revertAll H (findExtensionDirs H) fs ∧
  (exitCode (main H args fs) = 0 ↔
     anyReverted H (findExtensionDirs H) fs = true) ∧
  (∀ other, is_Some (filesAfter (main H args fs) !! other) →
            is_Some (fs !! other)) ∧
  (∀ extDir, extDir ∈ findExtensionDirs H →
     is_Some (filesAfter (main H args fs) !! cssFileOf H extDir) →
     filesAfter (main H args fs) !! backupPathOf (cssFileOf H extDir) = None).
Proof.
  intros Hc Hr.
  destruct (main_revert_run H args fs Hc Hr) as [Hfiles Hcode].
  assert (exitCode (main H args fs) = 0 ↔
            anyReverted H (findExtensionDirs H) fs = true) as Hexit.
  { rewrite Hcode. by destruct (anyReverted H (findExtensionDirs H) fs). }
  split; [done|]. split; [done|]. rewrite Hfiles. split.
  - intros other. apply revertAll_no_new_files.
  - intros extDir. apply revertAll_no_backup.
Qed.

Lemma X21_revert_run_leaves_no_backup_witness :
  ("--check"%string ∉ [ "--revert" ]%string) ∧
  "--revert"%string ∈ [ "--revert" ]%string ∧
  filesAfter (main exampleHost [ "--revert" ]%string
                (filesAfter (main exampleHost [] installedFs)))
    !! backupPathOf (cssFileOf exampleHost installedDir) = None.
Proof.
  split; [apply (bool_decide_unpack _); vm_compute; exact I|].
  split; [left|].
  destruct (X21_revert_run_leaves_no_backup exampleHost [ "--revert" ]%string
              (filesAfter (main exampleHost [] installedFs)))
    as (_ & _ & _ & Hbackup).
  - apply (bool_decide_unpack _). vm_compute. exact I.
  - left.
  - apply (Hbackup installedDir).
    + apply (bool_decide_unpack _). vm_compute. exact I.
    + apply (bool_decide_unpack _). vm_compute. exact I.
Defined.

(** X22: [--quiet] changes neither the exit code of a run nor the files
    it leaves; the quiet run prints the lines that the other run prints on
    the error stream, and nothing else.  So a quiet run with [--check] or
    [--revert] that found a directory prints nothing, a failed
    [revertPatch] included. *)
Theorem X22_quiet_silences_output_stream_only
    (H : host) (args : list string) (fs : gmap string str) :
  exitCode (main H ("--quiet"%string :: args) fs) = exitCode (main H args fs) ∧
  filesAfter (main H ("--quiet"%string :: args) fs)
  = filesAfter (main H args fs) ∧
  output (main H ("--quiet"%string :: args) fs)
  = List.filter onStderr (output (main H args fs)) ∧
  ("--check"%string ∈ args ∨ "--revert"%string ∈ args →
   findExtensionDirs H ≠ [] →
   output (main H ("--quiet"%string :: args) fs) = []).
Proof.
  assert (∀ flag : string, flag ≠ "--quiet"%string →
            bool_decide (flag ∈ "--quiet"%string :: args)
            = bool_decide (flag ∈ args)) as Hflag.
  { intros flag Hne. apply bool_decide_ext. rewrite elem_of_cons.
    split; [by intros [?|?]|by right]. }
  unfold main. cbv zeta. rewrite !Hflag by done.
  rewrite (bool_decide_eq_true_2 ("--quiet"%string ∈ "--quiet"%string :: args))
    by left.
  destruct (findExtensionDirs H) as [|d ds]; [done|].
  split; [|split; [|split]].
  4:{ intros Hmode _.
      assert (bool_decide ("--check"%string ∈ args)
              || bool_decide ("--revert"%string ∈ args) = true) as Hb.
      { apply orb_true_iff.
        destruct Hmode; [left|right]; by apply bool_decide_eq_true_2. }
      pose proof (foldl_mainStep_quiet_silent H _ _ (d :: ds) false [] fs Hb)
        as Hs.
      destruct (foldl _ _ _) as [[a o] f]. exact Hs. }
  all: pose proof (foldl_mainStep_quiet H
                (bool_decide ("--check"%string ∈ args))
                (bool_decide ("--revert"%string ∈ args))
                (bool_decide ("--quiet"%string ∈ args))
                (d :: ds) false [] fs) as Hq;
    change (List.filter onStderr []) with (@nil (stream * string)) in Hq;
    rewrite Hq;
    destruct (foldl (mainStep H _ _ (bool_decide ("--quiet"%string ∈ args)))
                _ _) as [[a o] f];
    reflexivity.
Qed.

Lemma X22_quiet_silences_output_stream_only_witness :
  exitCode (main exampleHost [ "--quiet"; "--revert" ]%string installedFs) = 1 ∧
  output (main exampleHost [ "--quiet"; "--revert" ]%string installedFs) = [].
Proof.
  split; [vm_compute; reflexivity|].
  destruct (X22_quiet_silences_output_stream_only exampleHost
              [ "--revert" ]%string installedFs) as (_ & _ & _ & Hsilent).
  apply Hsilent.
  - right. left.
  - discriminate.
Defined.

(** X23: whatever its arguments, a run of [main] leaves every file as it
    was that is neither the stylesheet of a discovered directory nor the
    backup beside one. *)
Theorem X23_run_touches_targets_and_backups_only
    (H : host) (args : list string) (fs : gmap string str) (other : string) :
  (∀ extDir, extDir ∈ findExtensionDirs H →
     other ≠ cssFileOf H extDir ∧
     other ≠ backupPathOf (cssFileOf H extDir)) →
  filesAfter (main H args fs) !! other = fs !! other.
Proof.
  intros Hall. rewrite main_filesAfter.
  by rewrite foldl_mainStep_frame.
Qed.

Lemma X23_run_touches_targets_and_backups_only_witness :
  filesAfter (main exampleHost []
                (<["/ext/notes.txt"%string := unrecognizedCss]> installedFs))
    !! "/ext/notes.txt"%string
  = Some unrecognizedCss.
Proof.
  rewrite (X23_run_touches_targets_and_backups_only exampleHost []).
  - vm_compute. reflexivity.
  - intros extDir Hin.
    assert (findExtensionDirs exampleHost = [installedDir]) as E
      by reflexivity.
    rewrite E in Hin. apply list_elem_of_singleton in Hin as ->.
    split; apply (bool_decide_unpack _); vm_compute; exact I.
Defined.

(** ** The editor extension *)

Section Extension.

Variable H : host.

Implicit Types (fs : gmap string str) (dirs : list string).
Implicit Types (target : string * string) (shown : list notification).
Implicit Types (message path : string).

Lemma autoPatchStep_patched message shown fs target :
  checkPatch target.1 fs = true →
  autoPatchStep message (shown, fs) target = (shown, fs).
Proof. intros Hc. unfold autoPatchStep. by rewrite Hc. Qed.

Lemma foldl_autoPatchStep_patched message (targets : list (string * string))
    shown fs :
  (∀ target, target ∈ targets → checkPatch target.1 fs = true) →
  foldl (autoPatchStep message) (shown, fs) targets = (shown, fs).
Proof.
  induction targets as [|t targets IH]; intros Hall; cbn [foldl]; [done|].
  rewrite autoPatchStep_patched by (apply Hall; left).
  apply IH. intros t' Ht'. apply Hall. by right.
Qed.

(** Once [applyPatch] ran on a target, the auto-patch leaves it alone. *)
Lemma autoPatchStep_after_apply message shown fs target :
  autoPatchStep message (shown, (applyPatch target.1 fs).2) target
  = (shown, (applyPatch target.1 fs).2).
Proof.
  destruct (applySucceeded (applyPatch target.1 fs).1) eqn:Hok.
  - apply autoPatchStep_patched. by apply applySucceeded_post.
  - pose proof (applyFailed_unchanged fs _ Hok) as Hfs.
    destruct (applyPatch target.1 fs) as [[m bk|e] fs'] eqn:Ha;
      cbn [fst snd applySucceeded] in *; [done|]. subst fs'.
    unfold autoPatchStep. destruct (checkPatch target.1 fs); [done|].
    by rewrite Ha.
Qed.

Lemma autoPatchStep_idem message message' shown shown' fs target :
  autoPatchStep message' (shown', (autoPatchStep message (shown, fs) target).2)
    target
  = (shown', (autoPatchStep message (shown, fs) target).2).
Proof.
  assert ((autoPatchStep message (shown, fs) target).2 = fs
          ∧ checkPatch target.1 fs = true
          ∨ (autoPatchStep message (shown, fs) target).2
            = (applyPatch target.1 fs).2) as [[-> Hc]| ->].
  { unfold autoPatchStep. destruct (checkPatch target.1 fs); [by left|].
    right. by destruct (applyPatch target.1 fs) as [[m bk|e] fs']. }
  - by apply autoPatchStep_patched.
  - apply autoPatchStep_after_apply.
Qed.

Lemma patchNowStep_eq (n : nat) fs target :
  patchNowStep (n, fs) target
  = (if applySucceeded (applyPatch target.1 fs).1 then S n else n,
     (applyPatch target.1 fs).2).
Proof.
  unfold patchNowStep.
  by destruct (applyPatch target.1 fs) as [[m bk|e] fs'].
Qed.

Lemma revertCommandStep_eq (n : nat) fs target :
  revertCommandStep (n, fs) target
  = (if revertSucceeded (revertPatch target.1 fs).1 then S n else n,
     (revertPatch target.1 fs).2).
Proof.
  unfold revertCommandStep.
  by destruct (revertPatch target.1 fs) as [[m|e] fs'].
Qed.

Lemma foldl_patchNowStep dirs (n : nat) fs :
  ∃ n' : nat,
    foldl patchNowStep (n, fs)
      ((λ dir, (pathJoin H [dir; "webview"; "index.css"]%string, dir)) <$> dirs)
    = (n', applyAll H dirs fs) ∧
    (0 <? n') = (0 <? n) || anyApplied H dirs fs.
Proof.
  revert n fs. induction dirs as [|d dirs IH]; intros n fs;
    cbn [fmap list_fmap foldl anyApplied].
  - exists n. by rewrite orb_false_r.
  - rewrite patchNowStep_eq. cbn [fst].
    change (pathJoin H [d; "webview"; "index.css"]%string)
      with (cssFileOf H d).
    destruct (IH (if applySucceeded (applyPatch (cssFileOf H d) fs).1
                  then S n else n)
                 (applyPatch (cssFileOf H d) fs).2) as (n' & -> & Hn').
    exists n'. split; [done|]. rewrite Hn'.
    destruct (applySucceeded (applyPatch (cssFileOf H d) fs).1); [|done].
    cbn [orb]. by rewrite orb_true_r.
Qed.

Lemma foldl_revertCommandStep dirs (n : nat) fs :
  ∃ n' : nat,
    foldl revertCommandStep (n, fs)
      ((λ dir, (pathJoin H [dir; "webview"; "index.css"]%string, dir)) <$> dirs)
    = (n', revertAll H dirs fs) ∧
    (0 <? n') = (0 <? n) || anyReverted H dirs fs.
Proof.
  revert n fs. induction dirs as [|d dirs IH]; intros n fs;
    cbn [fmap list_fmap foldl anyReverted].
  - exists n. by rewrite orb_false_r.
  - rewrite revertCommandStep_eq. cbn [fst].
    change (pathJoin H [d; "webview"; "index.css"]%string)
      with (cssFileOf H d).
    destruct (IH (if revertSucceeded (revertPatch (cssFileOf H d) fs).1
                  then S n else n)
                 (revertPatch (cssFileOf H d) fs).2) as (n' & -> & Hn').
    exists n'. split; [done|]. rewrite Hn'.
    destruct (revertSucceeded (revertPatch (cssFileOf H d) fs).1); [|done].
    cbn [orb]. by rewrite orb_true_r.
Qed.

(** [revertPatch] after the first successful [applyPatch]. *)
Lemma revertPatch_after_first_apply fs path (patched W : str) :
  fs !! backupPathOf path = None →
  revertPatch path (<[path := patched]> (<[backupPathOf path := W]> fs))
  = (RevertSuccess "backup", <[path := W]> fs).
Proof.
  intros Hb. pose proof (backupPathOf_fresh path) as Hne.
  unfold revertPatch. rewrite lookup_insert_eq.
  rewrite lookup_insert_ne, lookup_insert_eq by done. f_equal.
  rewrite insert_insert_eq, delete_insert_ne by done.
  rewrite delete_insert_eq. by rewrite delete_id.
Qed.

End Extension.

(** X24: the auto-patch of [activate] and of the update watcher leaves
    alone the targets that [checkPatch] reports as patched: when every
    target is, no message is shown and no file is written. *)
Theorem X24_auto_patch_skips_patched_targets
    (H : host) (claudeExtensionPath : option string) (fs : gmap string str) :
  (∀ target, target ∈ findCssFilesViaApi H claudeExtensionPath →
             checkPatch target.1 fs = true) →
  activatePatch H claudeExtensionPath fs = ([], fs) ∧
  onExtensionsChanged H claudeExtensionPath fs = ([], fs).
Proof.
  intros Hall. unfold activatePatch, onExtensionsChanged.
  by rewrite !foldl_autoPatchStep_patched.
Qed.

Lemma X24_auto_patch_skips_patched_targets_witness :
  activatePatch exampleHost None (filesAfter (main exampleHost [] installedFs))
  = ([], filesAfter (main exampleHost [] installedFs)).
Proof.
  destruct (X24_auto_patch_skips_patched_targets exampleHost None
              (filesAfter (main exampleHost [] installedFs))) as [Ha _];
    [|exact Ha].
  intros target Hin.
  assert (findCssFilesViaApi exampleHost None = [(installedCss, installedDir)])
    as E by (vm_compute; reflexivity).
  rewrite E in Hin. apply list_elem_of_singleton in Hin as ->.
  vm_compute. reflexivity.
Defined.

(** X25: with the target that the extensions API names, the auto-patch is
    idempotent: run again on the files an activation leaves, or on the
    files the command [patchNow] leaves, it shows no message and writes no
    file, whether the first call patched the stylesheet or failed. *)
Theorem X25_auto_patch_idempotent
    (H : host) (extensionPath : string) (fs : gmap string str) :
  activatePatch H (Some extensionPath)
    (activatePatch H (Some extensionPath) fs).2
  = ([], (activatePatch H (Some extensionPath) fs).2) ∧
  onExtensionsChanged H (Some extensionPath)
    (activatePatch H (Some extensionPath) fs).2
  = ([], (activatePatch H (Some extensionPath) fs).2) ∧
  activatePatch H (Some extensionPath) (patchNow H (Some extensionPath) fs).2
  = ([], (patchNow H (Some extensionPath) fs).2).
Proof.
  unfold activatePatch, onExtensionsChanged, patchNow, findCssFilesViaApi.
  cbn [foldl]. split; [apply autoPatchStep_idem|].
  split; [apply autoPatchStep_idem|].
  rewrite patchNowStep_eq. cbn [fst snd].
  apply (autoPatchStep_after_apply _ []
           fs (pathJoin H [extensionPath; "webview"; "index.css"]%string,
               extensionPath)).
Qed.

(** X26: without an extension that the API names, the commands of the
    extension write what the command line writes: [patchNow] leaves the
    files of a run without [--check] and [--revert], and shows its
    information message exactly when that run exits with 0; [revert]
    does so for a run with [--revert]. *)
Theorem X26_commands_agree_with_command_line
    (H : host) (args : list string) (fs : gmap string str) :
  "--check"%string ∉ args →
  ("--revert"%string ∉ args →
   (patchNow H None fs).2 = filesAfter (main H args fs) ∧
   ((∃ text, (patchNow H None fs).1 = [InformationMessage text]) ↔
    exitCode (main H args fs) = 0)) ∧
  ("--revert"%string ∈ args →
   (revertCommand H None fs).2 = filesAfter (main H args fs) ∧
   ((∃ text, (revertCommand H None fs).1 = [InformationMessage text]) ↔
    exitCode (main H args fs) = 0)).
Proof.
  intros Hc. split; intros Hr.
  - destruct (main_default_run H args fs Hc Hr) as [-> ->].
    destruct (foldl_patchNowStep H (findExtensionDirs H) 0 fs)
      as (n' & Hfold & Hn').
    unfold patchNow, findCssFilesViaApi.
    destruct (findExtensionDirs H) as [|d ds].
    { cbn [fmap list_fmap fst snd anyApplied]. split; [done|].
      split; [by intros [? ?]|done]. }
    cbn [fmap list_fmap] in *. rewrite Hfold. cbn [fst snd].
    split; [done|]. rewrite Hn'. cbn [orb Nat.ltb Nat.leb].
    destruct (anyApplied H (d :: ds) fs); split; try done.
    + intros _. by eexists.
    + by intros [? ?].
  - destruct (main_revert_run H args fs Hc Hr) as [-> ->].
    unfold revertCommand, findCssFilesViaApi.
    destruct (foldl_revertCommandStep H (findExtensionDirs H) 0 fs)
      as (n' & -> & Hn'). cbn [fst snd]. split; [done|].
    rewrite Hn'. cbn [orb Nat.ltb Nat.leb].
    destruct (anyReverted H (findExtensionDirs H) fs); split; try done.
    + intros _. by eexists.
    + by intros [? ?].
Qed.

Lemma X26_commands_agree_with_command_line_witness :
  (patchNow exampleHost None installedFs).2
  = filesAfter (main exampleHost [ "--quiet" ]%string installedFs).
Proof.
  destruct (X26_commands_agree_with_command_line exampleHost
              [ "--quiet" ]%string installedFs) as [Hpatch _].
  - apply (bool_decide_unpack _). vm_compute. exact I.
  - apply Hpatch. apply (bool_decide_unpack _). vm_compute. exact I.
Defined.

(** X27: the command [patchNow] followed by the command [revert], on the
    target that the extensions API names.  When the stylesheet has no
    backup and its working copy resolves [message], [patchNow] reports
    one patched installation, and [revert] then reports one reverted
    installation and leaves the files as they were, but for the
    stylesheet, which holds its working copy. *)
Theorem X27_patch_then_revert_commands
    (H : host) (extensionPath : string) (fs : gmap string str) (content : str) :
  fs !! cssFileOf H extensionPath = Some content →
  fs !! backupPathOf (cssFileOf H extensionPath) = None →
  is_Some (extractClassMap (workingCopy content) !! "message"%string) →
  (patchNow H (Some extensionPath) fs).1
  = [ InformationMessage
        "Claude Code RTL Fix: Patched 1 installation(s). Reload window." ] ∧
  revertCommand H (Some extensionPath) (patchNow H (Some extensionPath) fs).2
  = ([ InformationMessage
         "Claude Code RTL Fix: Reverted 1 installation(s). Reload window." ],
     <[cssFileOf H extensionPath := workingCopy content]> fs).
Proof.
  intros Hf Hb Hm.
  unfold patchNow, revertCommand, findCssFilesViaApi. cbn [foldl].
  rewrite patchNowStep_eq. cbn [fst].
  change (pathJoin H [extensionPath; "webview"; "index.css"]%string)
    with (cssFileOf H extensionPath).
  rewrite (applyPatch_recognized _ _ _ Hf Hm), Hb.
  cbn [fst snd applySucceeded]. split; [by vm_compute|].
  rewrite revertCommandStep_eq. cbn [fst].
  rewrite (revertPatch_after_first_apply _ _ _ _ Hb).
  cbn [fst snd revertSucceeded]. f_equal.
Qed.

Lemma X27_patch_then_revert_commands_witness :
  revertCommand exampleHost (Some installedDir)
    (patchNow exampleHost (Some installedDir) installedFs).2
  = ([ InformationMessage
         "Claude Code RTL Fix: Reverted 1 installation(s). Reload window." ],
     <[cssFileOf exampleHost installedDir := workingCopy SAMPLE_CSS]>
       installedFs).
Proof.
  destruct (X27_patch_then_revert_commands exampleHost installedDir
              installedFs SAMPLE_CSS) as [_ Hr]; [| | |exact Hr].
  - vm_compute. reflexivity.
  - vm_compute. reflexivity.
  - apply (bool_decide_unpack _). vm_compute. exact I.
Defined.

(** X28: a non-empty [CLAUDE_CODE_EXT_DIR] is taken as the only
    directory, without a look at the file system or at its name: a run of
    [main] without [--check] and [--revert] then is one call of
    [applyPatch] on the stylesheet below it, and exits with 0 exactly when
    that call succeeds. *)
Theorem X28_override_is_the_only_target
    (H : host) (dir : string) (args : list string) (fs : gmap string str) :
  envCLAUDE_CODE_EXT_DIR H = Some dir →
  dir ≠ ""%string →
  "--check"%string ∉ args →
  "--revert"%string ∉ args →
  findExtensionDirs H = [dir] ∧
  filesAfter (main H args fs) = (applyPatch (cssFileOf H dir) fs).2 ∧
  (exitCode (main H args fs) = 0 ↔
     applySucceeded (applyPatch (cssFileOf H dir) fs).1 = true).
Proof.
  intros Henv Hne Hc Hr.
  assert (findExtensionDirs H = [dir]) as Hdirs.
  { unfold findExtensionDirs. rewrite Henv. by destruct dir. }
  destruct (main_default_run H args fs Hc Hr) as [-> ->].
  rewrite Hdirs. cbn [anyApplied]. rewrite orb_false_r.
  split; [done|]. split; [done|].
  by destruct (applySucceeded _).
Qed.

Lemma X28_override_is_the_only_target_witness :
  existsSync exampleHost installedDir = false ∧
  filesAfter (main exampleHost [] installedFs)
  = (applyPatch (cssFileOf exampleHost installedDir) installedFs).2.
Proof.
  split; [reflexivity|].
  destruct (X28_override_is_the_only_target exampleHost installedDir []
              installedFs) as (_ & Hfiles & _).
  - reflexivity.
  - discriminate.
  - apply not_elem_of_nil.
  - apply not_elem_of_nil.
  - exact Hfiles.
Defined.
